(** * nanobot: the agent core, embedded and verified

    A shallow embedding of the execution core of nanobot:
    - [Registry]: [nanobot/agent/tools/registry.py] (tool dispatch),
    - [Web], [WebText], [Search]: [nanobot/agent/tools/web.py] (SSRF-safe
      fetch pipeline, whitespace normalisation, web search),
    - [Agent]: [nanobot/agent/loop.py] (iteration loop, message dispatch,
      memory consolidation),
    - [Prefix]: [nanobot/utils/prefix.py] (model identifiers).

    Python code that runs on one asyncio event loop is embedded as state
    passing: a coroutine is a function on the state, split at its [await]
    points where another task can run in between. External collaborators
    (provider, DNS, HTTP, stores) are fields of interface records acting on an
    abstract world. *)

From stdpp Require Import base option list strings gmap pretty.
From Stdlib Require Import ZArith Lia Ascii.

Local Open Scope string_scope.
Local Open Scope Z_scope.

(** ** Exceptions and the state-and-error monad *)

(** Instances of Python's [Exception] hierarchy, which is what
    [except Exception] handles. [str e] is the message. *)
Inductive exn_kind : Type :=
  | KException       (* a plain [Exception] or any subclass not listed below *)
  | KOSError         (* [OSError], with [socket.gaierror] and [socket.herror] *)
  | KValueError      (* [ValueError] *)
  | KTimeoutError.   (* [asyncio.TimeoutError] *)

Record exn : Type := Exn { kind : exn_kind; str : string }.

Global Instance exn_kind_eq_dec : EqDecision exn_kind.
Proof. solve_decision. Defined.

(** A computation over a state [S]: it returns or raises, and leaves a state. *)
Definition M (S A : Type) : Type := S → (exn + A) * S.

Definition ret {S A} (a : A) : M S A := λ s, (inr a, s).
Definition raise {S A} (e : exn) : M S A := λ s, (inl e, s).
Definition bind {S A B} (c : M S A) (k : A → M S B) : M S B :=
  λ s, match c s with
       | (inr a, s') => k a s'
       | (inl e, s') => (inl e, s')
       end.
(** [try: c except Exception as e: h e] *)
Definition try_except {S A} (c : M S A) (h : exn → M S A) : M S A :=
  λ s, match c s with
       | (inr a, s') => (inr a, s')
       | (inl e, s') => h e s'
       end.
Definition get_state {S} : M S S := λ s, (inr s, s).
Definition modify {S} (f : S → S) : M S unit := λ s, (inr tt, f s).

Declare Scope m_scope.
Delimit Scope m_scope with m.
Notation "x <- c ;; k" := (bind c (λ x, k))
  (at level 100, c at next level, right associativity) : m_scope.
Notation "c ;;; k" := (bind c (λ _, k))
  (at level 100, right associativity) : m_scope.

(** ** JSON values, as [json] and [json_repair] produce them *)

#[warnings="-register-all"]
Inductive Json : Type :=
  | JNull
  | JBool (b : bool)
  | JNum (n : Z)
  | JStr (s : string)
  | JList (l : list Json)
  | JDict (d : list (string * Json)).

(** [dict.get(key)] *)
Fixpoint dict_get (d : list (string * Json)) (key : string) : option Json :=
  match d with
  | [] => None
  | (k, v) :: d' => if String.eqb k key then Some v else dict_get d' key
  end.

(** Python truth value of a JSON value. *)
Definition truthy (v : Json) : bool :=
  match v with
  | JNull => false
  | JBool b => b
  | JNum n => negb (n =? 0)
  | JStr s => negb (String.eqb s "")
  | JList l => match l with [] => false | _ => true end
  | JDict d => match d with [] => false | _ => true end
  end.

(** [", ".join(xs)] *)
Definition join (sep : string) (xs : list string) : string := String.concat sep xs.

(** ** ToolRegistry *)

Module Registry.
Section Registry.
(** The world the tools act on. *)
Context {W : Type}.

(** [dict[str, Any]]: the arguments of a call. *)
Definition Params : Type := list (string * Json).

(** The capability contract of [nanobot.agent.tools.base.Tool], whose
    declaration is outside the sources: [validate_params] returns the list
    of violations, [execute] returns text, and each of them may raise. *)
Record Tool : Type := {
  tool_name : string;
  validate_params : Params → exn + list string;
  tool_execute : Params → M W string;
}.

(** [self._tools] *)
Record ToolRegistry : Type := { _tools : gmap string Tool }.

Definition empty : ToolRegistry := {| _tools := ∅ |}.

Definition register (r : ToolRegistry) (tool : Tool) : ToolRegistry :=
  {| _tools := <[tool_name tool := tool]> (_tools r) |}.

Definition unregister (r : ToolRegistry) (nm : string) : ToolRegistry :=
  {| _tools := delete nm (_tools r) |}.

Definition get (r : ToolRegistry) (nm : string) : option Tool := _tools r !! nm.

Definition has (r : ToolRegistry) (nm : string) : bool := bool_decide (is_Some (_tools r !! nm)).

Definition tool_not_found (nm : string) : string :=
  "Error: Tool '" +:+ nm +:+ "' not found".

Definition invalid_parameters (nm : string) (errors : list string) : string :=
  "Error: Invalid parameters for tool '" +:+ nm +:+ "': " +:+ join "; " errors.

Definition execution_error (nm : string) (e : exn) : string :=
  "Error executing " +:+ nm +:+ ": " +:+ str e.

(** [ToolRegistry.execute] *)
Definition execute (r : ToolRegistry) (nm : string) (params : Params) : M W string :=
  match _tools r !! nm with
  | None => ret (tool_not_found nm)
  | Some tool =>
      match validate_params tool params with
      | inl e => raise e     (* line 53 is outside the [try] of lines 57-60 *)
      | inr ((_ :: _) as errors) => ret (invalid_parameters nm errors)
      | inr [] =>
          try_except (tool_execute tool params)
                     (λ e, ret (execution_error nm e))
      end
  end.
(** [len(registry)] *)
Definition __len__ (r : ToolRegistry) : nat := size (_tools r).

(** [name in registry] *)
Definition __contains__ (r : ToolRegistry) (nm : string) : bool :=
  bool_decide (is_Some (_tools r !! nm)).
End Registry.
Arguments Tool : clear implicits.
Arguments ToolRegistry : clear implicits.
End Registry.

(** ** Web tools: URL validation and the redirect-validating fetch *)

Module Web.

Definition USER_AGENT : string :=
  "Mozilla/5.0 (Macintosh; Intel Mac OS X 14_7_2) AppleWebKit/537.36".
Definition MAX_REDIRECTS : Z := 5.

(** An [ipaddress.IPv4Address] or [IPv6Address], by its integer value. *)
Inductive ip_addr : Type :=
  | IPv4Address (n : Z)
  | IPv6Address (n : Z).

(** An [ipaddress.ip_network]: network address and prefix length. *)
Inductive ip_net : Type :=
  | IPv4Network (network_address prefixlen : Z)
  | IPv6Network (network_address prefixlen : Z).

Definition netmask (bits prefixlen : Z) : Z :=
  Z.shiftl (Z.ones prefixlen) (bits - prefixlen).

(** [ip in network]: false across versions, else the masked comparison. *)
Definition contains (network : ip_net) (ip : ip_addr) : bool :=
  match network, ip with
  | IPv4Network base len, IPv4Address n => Z.land n (netmask 32 len) =? base
  | IPv6Network base len, IPv6Address n => Z.land n (netmask 128 len) =? base
  | _, _ => false
  end.

Definition v4 (a b c d : Z) : Z := ((a * 256 + b) * 256 + c) * 256 + d.
(** The leading 16-bit group of an IPv6 address, all other groups zero. *)
Definition v6_lead (g : Z) : Z := Z.shiftl g 112.

Definition PRIVATE_IP_RANGES : list ip_net :=
  [ IPv4Network (v4 0 0 0 0) 8;         (* "This" network *)
    IPv4Network (v4 127 0 0 0) 8;       (* Loopback *)
    IPv4Network (v4 10 0 0 0) 8;        (* Private Class A *)
    IPv4Network (v4 100 64 0 0) 10;     (* CGNAT *)
    IPv4Network (v4 172 16 0 0) 12;     (* Private Class B *)
    IPv4Network (v4 192 168 0 0) 16;    (* Private Class C *)
    IPv4Network (v4 169 254 0 0) 16;    (* Link-local *)
    IPv6Network 0 128;                  (* IPv6 unspecified *)
    IPv6Network 1 128;                  (* IPv6 loopback *)
    IPv6Network (v6_lead 0xfc00) 7;     (* IPv6 private *)
    IPv6Network (v6_lead 0xfe80) 10 ].  (* IPv6 link-local *)

Definition BLOCKED_HOSTNAMES : list string :=
  [ "localhost"; "metadata.google.internal"; "169.254.169.254" ].

(** What [urlparse] returns, as far as the validation reads it. *)
Record ParseResult : Type := {
  scheme : string;
  netloc : string;
  hostname : option string;
}.

(** An [httpx.Response], as far as the tool reads it. *)
Record Response : Type := {
  status_code : Z;
  location : option string;        (* [headers.get("location")] *)
  content_type : option string;    (* [headers.get("content-type")] *)
  text : string;
  json : exn + Json;               (* [r.json()] *)
  url : string;                    (* [r.url], the final URL *)
}.

Definition nl : string := String (Ascii.ascii_of_nat 10) EmptyString.

(** [sub in s] *)
Definition str_in (sub s : string) : bool :=
  match String.index 0 sub s with Some _ => true | None => false end.

Section Web.
Context {W : Type}.

(** The libraries and the network the module calls. A library function
    that raises returns [inl]; DNS and HTTP act on the world. A [string]
    holds the text as it is encoded, so the length and the slices of a
    [str], which count code points, are taken from Python. *)
Record Net : Type := {
  urlparse : string → exn + ParseResult;
  lower : string → string;                       (* [str.lower] *)
  py_len : string → Z;                           (* [len(s)] *)
  py_upto : string → Z → string;                 (* [s[:n]] *)
  ip_address : string → option ip_addr;          (* [None]: [ValueError] *)
  getaddrinfo : string → M W (list string);      (* the [r[4][0]] of each entry *)
  client_get : string → M W Response;            (* [client.get], no redirects *)
  raise_for_status : Response → exn + unit;
  readability : string → exn + (string * string);  (* [Document]: summary, title *)
  _to_markdown : string → string;
  _strip_tags : string → string;
  json_dumps : Json → string;
  json_dumps_indent : Json → string;             (* [json.dumps(_, indent=2)] *)
}.

Variable net : Net.

(** The scan of [PRIVATE_IP_RANGES] in [_is_private_ip]. *)
Fixpoint in_any (networks : list ip_net) (ip : ip_addr) : bool :=
  match networks with
  | [] => false
  | network :: rest => if contains network ip then true else in_any rest ip
  end.

Definition _is_private_ip (ip_str : string) : bool :=
  match ip_address net ip_str with
  | Some ip => in_any PRIVATE_IP_RANGES ip
  | None => false
  end.

(** [if ip not in ips: ips.append(ip)] over the entries, in order. *)
Definition unique_ips (result : list string) : list string :=
  fold_left (λ ips ip, if bool_decide (ip ∈ ips) then ips else (ips ++ [ip])%list) result [].

Definition _resolve_hostname (host : string) : M W (list string) :=
  try_except (result <- getaddrinfo net host ;; ret (unique_ips result))%m
             (λ e, if decide (kind e = KOSError) then ret [] else raise e).

(** The loop over the resolved addresses in [_validate_url]. *)
Fixpoint any_private (ips : list string) : bool :=
  match ips with
  | [] => false
  | ip :: rest => if _is_private_ip ip then true else any_private rest
  end.

Definition is_http (s : string) : bool := String.eqb s "http" || String.eqb s "https".

Definition _validate_url (u : string) : M W (bool * string) :=
  try_except
    (match urlparse net u with
     | inl e => raise e
     | inr p =>
         if negb (is_http (scheme p)) then
           ret (false, "Only http/https allowed, got '" +:+
                       (if String.eqb (scheme p) "" then "none" else scheme p))
         else if String.eqb (netloc p) "" then ret (false, "Missing domain")
         else match hostname p with
              | None => ret (false, "Missing hostname")
              | Some h =>
                  if String.eqb h "" then ret (false, "Missing hostname")
                  else
                    let h := lower net h in
                    if bool_decide (h ∈ BLOCKED_HOSTNAMES) then
                      ret (false, "Access to " +:+ h +:+ " is blocked")
                    else
                      (ips <- _resolve_hostname h ;;
                       match ips with
                       | [] => ret (false, "Could not resolve hostname")
                       | _ =>
                           if any_private ips then
                             ret (false, "Access to private/internal addresses is blocked")
                           else ret (true, "")
                       end)%m
              end
     end)
    (λ e, ret (false, str e)).

(** *** The fetch, with a record of what it does

    The state of a fetch is the world and the sequence of validations and
    requests made so far, oldest first. *)
Inductive event : Type :=
  | EvValidate (u : string) (is_valid : bool)
  | EvGet (u : string).

Record St : Type := { world : W; trace : list event }.

Definition on_world {A} (c : M W A) : M St A :=
  λ s, let '(r, w) := c (world s) in (r, {| world := w; trace := trace s |}).

Definition record (ev : event) : M St unit :=
  modify (λ s, {| world := world s; trace := (trace s ++ [ev])%list |}).

(** [_validate_url(u)], recorded with its verdict. *)
Definition validate (u : string) : M St (bool * string) :=
  (v <- on_world (_validate_url u) ;;
   record (EvValidate u (fst v)) ;;;
   ret v)%m.

(** [client.get(u, headers=...)], recorded. *)
Definition get (u : string) : M St Response :=
  (record (EvGet u) ;;; on_world (client_get net u))%m.

Definition is_redirect (r : Response) : bool :=
  bool_decide (status_code r ∈ [301; 302; 303; 307; 308]).

Definition too_many_redirects : exn :=
  Exn KException ("Too many redirects (max " +:+ pretty MAX_REDIRECTS +:+ ")").

(** The body of [_fetch_with_redirect_validation], given the function to
    call for the next hop. *)
Definition fetch_body (self : string → Z → M St Response)
           (u : string) (redirect_count : Z) : M St Response :=
  if redirect_count >? MAX_REDIRECTS then raise too_many_redirects
  else
    (r <- get u ;;
     if is_redirect r then
       match location r with
       | None => raise (Exn KException "Redirect response missing Location header")
       | Some redirect_url =>
           if String.eqb redirect_url "" then
             raise (Exn KException "Redirect response missing Location header")
           else
             v <- validate redirect_url ;;
             if negb (fst v) then
               raise (Exn KException ("Redirect target validation failed: " +:+ snd v))
             else self redirect_url (redirect_count + 1)
       end
     else ret r)%m.

(** The recursion is on the depth left; [fetch_unfold] below shows that
    [_fetch_with_redirect_validation] satisfies the source's equation, so
    the first case is never what a call returns. *)
Fixpoint fetch_rec (depth_left : nat) (u : string) (redirect_count : Z) : M St Response :=
  match depth_left with
  | O => raise too_many_redirects
  | S d => fetch_body (fetch_rec d) u redirect_count
  end.

Definition _fetch_with_redirect_validation (u : string) (redirect_count : Z) : M St Response :=
  fetch_rec (Z.to_nat (MAX_REDIRECTS + 2 - redirect_count)) u redirect_count.

Definition of_result {S A} (r : exn + A) : M S A :=
  match r with inl e => raise e | inr a => ret a end.

(** Lines 244-260: the content, by declared type. *)
Definition extract (r : Response) (extractMode : string) : M St (string * string) :=
  let ctype := default "" (content_type r) in
  if str_in "application/json" ctype then
    (j <- of_result (json r) ;; ret (json_dumps_indent net j, "json"))%m
  else if str_in "text/html" ctype
          || String.prefix "<!doctype" (lower net (py_upto net (text r) 256))
          || String.prefix "<html" (lower net (py_upto net (text r) 256)) then
    (doc <- of_result (readability net (text r)) ;;
     let content := if String.eqb extractMode "markdown"
                    then _to_markdown net (fst doc) else _strip_tags net (fst doc) in
     let txt := if String.eqb (snd doc) "" then content
                else "# " +:+ snd doc +:+ nl +:+ nl +:+ content in
     ret (txt, "readability"))%m
  else ret (text r, "raw").

Definition error_payload (msg u : string) : Json :=
  JDict [("error", JStr msg); ("url", JStr u)].

(** [WebFetchTool.execute]; [self_max_chars] is [self.max_chars]. *)
Definition execute (self_max_chars : Z) (u : string) (extractMode : string)
           (maxChars : option Z) : M St string :=
  let max_chars := match maxChars with
                   | Some n => if n =? 0 then self_max_chars else n
                   | None => self_max_chars
                   end in
  (v <- validate u ;;
   if negb (fst v) then
     ret (json_dumps net (error_payload ("URL validation failed: " +:+ snd v) u))
   else
     try_except
       (r <- _fetch_with_redirect_validation u 0 ;;
        of_result (raise_for_status net r) ;;;
        te <- extract r extractMode ;;
        let truncated := py_len net (fst te) >? max_chars in
        let txt := if truncated then py_upto net (fst te) max_chars else fst te in
        ret (json_dumps net
               (JDict [("url", JStr u);
                       ("finalUrl", JStr (url r));
                       ("status", JNum (status_code r));
                       ("extractor", JStr (snd te));
                       ("truncated", JBool truncated);
                       ("length", JNum (py_len net txt));
                       ("text", JStr txt)])))
       (λ e, ret (json_dumps net (error_payload (str e) u))))%m.

(** A chain of [n] redirects from [u]: each request answers with a
    redirect whose target passes validation. [w'] is the world after the
    last validation and [last] the last target. *)
Inductive redirect_chain : nat → string → W → string → W → Prop :=
  | chain_nil u w : redirect_chain 0 u w u w
  | chain_hop n u w r w1 target w2 last w' :
      client_get net u w = (inr r, w1) →
      is_redirect r = true →
      location r = Some target →
      target ≠ "" →
      _validate_url target w1 = (inr (true, ""), w2) →
      redirect_chain n target w2 last w' →
      redirect_chain (S n) u w last w'.



Definition is_get (ev : event) : bool :=
  match ev with EvGet _ => true | EvValidate _ _ => false end.

(** The number of requests in a trace. *)
Definition gets (tr : list event) : nat := length (List.filter is_get tr).

End Web.
Arguments Net : clear implicits.
Arguments St : clear implicits.
End Web.

(** ** Python list slicing *)

(** The bound [i] of a slice of a sequence of length [len]: a negative bound
    counts from the end, and both ends are clamped. *)
Definition slice_bound (len i : Z) : Z :=
  if i <? 0 then Z.max 0 (i + len) else Z.min i len.

(** [l[start:stop]] *)
Definition py_slice {A} (l : list A) (start stop : Z) : list A :=
  let len := Z.of_nat (length l) in
  let a := slice_bound len start in
  let b := slice_bound len stop in
  take (Z.to_nat (b - a)) (drop (Z.to_nat a) l).

(** [len(l)] *)
Definition len {A} (l : list A) : Z := Z.of_nat (length l).

(** ** Web tools: whitespace normalisation *)

Module WebText.

Definition space : ascii := Ascii.ascii_of_nat 32.
Definition tab : ascii := Ascii.ascii_of_nat 9.
Definition newline : ascii := Ascii.ascii_of_nat 10.

Definition is_blank (c : ascii) : bool := Ascii.eqb c space || Ascii.eqb c tab.

(** [re.sub(r"[ \t]+", " ", text)]: every run of spaces and tabs becomes one
    space. [in_run] tells that the character before was of such a run. *)
Fixpoint collapse_blanks (in_run : bool) (s : string) : string :=
  match s with
  | EmptyString => EmptyString
  | String c rest =>
      if is_blank c then
        if in_run then collapse_blanks true rest
        else String space (collapse_blanks true rest)
      else String c (collapse_blanks false rest)
  end.

(** [re.sub(r"\n{3,}", "\n\n", text)]: of every run of newlines at most two
    are kept. [seen] counts the newlines of the run so far. *)
Fixpoint collapse_newlines (seen : nat) (s : string) : string :=
  match s with
  | EmptyString => EmptyString
  | String c rest =>
      if Ascii.eqb c newline then
        if (seen <? 2)%nat then String c (collapse_newlines (S seen) rest)
        else collapse_newlines (S seen) rest
      else String c (collapse_newlines 0 rest)
  end.

(** The two substitutions of [_normalize], in their order. *)
Definition collapse (txt : string) : string :=
  collapse_newlines 0 (collapse_blanks false txt).

(** [_normalize]; [strip] is [str.strip]. *)
Definition _normalize (strip : string → string) (txt : string) : string :=
  strip (collapse txt).

(** The string has no tab, no two spaces in a row and no three newlines in
    a row. *)
Definition normalized (s : string) : Prop :=
  ∀ i : nat,
    String.get i s ≠ Some tab ∧
    ¬ (String.get i s = Some space ∧ String.get (S i) s = Some space) ∧
    ¬ (String.get i s = Some newline ∧ String.get (S i) s = Some newline ∧
       String.get (S (S i)) s = Some newline).

End WebText.

(** ** Web tools: search *)

Module Search.
Section Search.
Context {W : Type}.

(** What [WebSearchTool] calls: the request to the search API, with the
    query, the count and the token it sends, and Python's handling of the
    values of the answer. *)
Record Api : Type := {
  search_get : string → Z → string → M W Web.Response;
  raise_for_status : Web.Response → exn + unit;
  py_str : Json → string;                 (* [str(x)], as an f-string formats [x] *)
  attribute_error : Json → string → exn;  (* [x.name] on a value without [name] *)
  type_error : Json → exn;                (* [x[:n]] on a value that has no slices *)
}.

Variable api : Api.

(** [x.get(key, default)]: a dict answers; any other value has no [get]. *)
Definition py_get (x : Json) (key : string) (dflt : Json) : exn + Json :=
  match x with
  | JDict d => inr (default dflt (dict_get d key))
  | _ => inl (attribute_error api x "get")
  end.

(** The lines of one result; [i] is its number. *)
Definition item_lines (i : Z) (item : Json) : exn + list string :=
  match py_get item "title" (JStr ""), py_get item "url" (JStr ""),
        py_get item "description" JNull with
  | inr title, inr u, inr desc =>
      inr ((pretty i +:+ ". " +:+ py_str api title +:+ Web.nl +:+ "   " +:+ py_str api u)
           :: (if truthy desc then ["   " +:+ py_str api desc] else []))
  | inl e, _, _ => inl e
  | _, inl e, _ => inl e
  | _, _, inl e => inl e
  end.

(** The [for i, item in enumerate(..., 1)] loop. *)
Fixpoint result_lines (i : Z) (items : list Json) (lines : list string)
  : exn + list string :=
  match items with
  | [] => inr lines
  | item :: rest =>
      match item_lines i item with
      | inl e => inl e
      | inr new => result_lines (i + 1) rest (lines ++ new)%list
      end
  end.

(** [n = min(max(count or self.max_results, 1), 10)] *)
Definition requested (max_results : Z) (count : option Z) : Z :=
  Z.min (Z.max (match count with
                | Some c => if c =? 0 then max_results else c
                | None => max_results
                end) 1) 10.

Definition of_result {A} (r : exn + A) : M W A :=
  match r with inl e => raise e | inr a => ret a end.

(** The values [results[:n]] iterates over. *)
Definition sliced (results : Json) (n : Z) : exn + list Json :=
  match results with
  | JList l => inr (py_slice l 0 n)
  | JStr s => inr (List.map (λ c, JStr (String c EmptyString))
                            (py_slice (String.list_ascii_of_string s) 0 n))
  | _ => inl (type_error api results)
  end.

(** [WebSearchTool.execute]; [api_key] and [max_results] are the fields of
    the tool. *)
Definition execute (api_key : string) (max_results : Z)
           (query : string) (count : option Z) : M W string :=
  if String.eqb api_key "" then ret "Error: BRAVE_API_KEY not configured"
  else
    try_except
      (let n := requested max_results count in
       r <- search_get api query n api_key ;;
       of_result (raise_for_status api r) ;;;
       answer <- of_result (Web.json r) ;;
       web <- of_result (py_get answer "web" (JDict [])) ;;
       results <- of_result (py_get web "results" (JList [])) ;;
       if negb (truthy results) then ret ("No results for: " +:+ query)
       else
         items <- of_result (sliced results n) ;;
         lines <- of_result (result_lines 1 items ["Results for: " +:+ query +:+ Web.nl]) ;;
         ret (join Web.nl lines))%m
      (λ e, ret ("Error: " +:+ str e)).

(** The same API behind a service that refuses a count outside 1 to 10. *)
Definition checked : Api :=
  {| search_get := λ query n token,
       if (1 <=? n) && (n <=? 10) then search_get api query n token
       else raise (Exn KException "count out of range");
     raise_for_status := raise_for_status api;
     py_str := py_str api;
     attribute_error := attribute_error api;
     type_error := type_error api |}.

End Search.
Arguments Api : clear implicits.
End Search.

(** ** The agent loop *)

Module Agent.
Import Registry.

Definition nl : string := String (Ascii.ascii_of_nat 10) EmptyString.
Definition dq : string := String (Ascii.ascii_of_nat 34) EmptyString.

(** [nanobot.bus.events] *)
Record InboundMessage : Type := {
  channel : string;
  sender_id : string;
  chat_id : string;
  content : string;
  media : list string;
  metadata : Params;
}.

Record OutboundMessage : Type := {
  o_channel : string;
  o_chat_id : string;
  o_content : string;
  o_metadata : Params;
}.

(** Modelled from the spec: [InboundMessage.session_key], the key derived
    from channel and chat id. *)
Definition session_key (msg : InboundMessage) : string :=
  channel msg +:+ ":" +:+ chat_id msg.

(** [nanobot.providers.base]: a tool call and a response of the provider. *)
Record ToolCall : Type := {
  tc_id : string;
  tc_name : string;
  tc_arguments : Params;
}.

Record LLMResponse : Type := {
  r_content : option string;
  tool_calls : list ToolCall;
  reasoning_content : option string;
  has_tool_calls : bool;
}.

(** An entry of [tool_call_dicts]. *)
Record ToolCallDict : Type := {
  d_id : string;
  d_name : string;
  d_arguments : string;     (* [json.dumps(tc.arguments)] *)
}.

(** A message of the list sent to the provider. *)
Inductive ChatMessage : Type :=
  | Plain (role content : string)
  | AssistantTurn (content : option string) (calls : list ToolCallDict)
                  (reasoning : option string)
  | ToolResult (tool_call_id name result : string).

(** A record of [session.messages]. *)
Record Message : Type := {
  role : string;
  m_content : string;
  tools_used : option (list string);
  timestamp : option string;
}.

(** [nanobot.session.manager.Session], as far as the loop reads it. *)
Record Session : Type := {
  key : string;
  messages : list Message;
  last_consolidated : Z;
}.

(** Modelled from the spec: [Session(key=...)], [Session.add_message] and
    [Session.clear], whose class is outside the sources: the sequence is
    append-only except for the clear, which also resets the cursor. *)
Definition new_session (k : string) : Session :=
  {| key := k; messages := []; last_consolidated := 0 |}.

Definition add_message (s : Session) (r c : string) (used : option (list string))
           (now : string) : Session :=
  {| key := key s;
     messages := (messages s ++ [{| role := r; m_content := c; tools_used := used;
                                    timestamp := Some now |}])%list;
     last_consolidated := last_consolidated s |}.

Definition clear (s : Session) : Session :=
  {| key := key s; messages := []; last_consolidated := 0 |}.

Definition set_messages (s : Session) (ms : list Message) : Session :=
  {| key := key s; messages := ms; last_consolidated := last_consolidated s |}.

Definition set_last_consolidated (s : Session) (n : Z) : Session :=
  {| key := key s; messages := messages s; last_consolidated := n |}.

(** What a consolidation job keeps across its [await]. *)
Record Pending : Type := {
  p_session : nat;
  p_archive_all : bool;
  p_keep_count : Z;
  p_old_messages : list Message;
  p_current_memory : string;
  p_prompt : string;
}.

(** A detached task of [_background_tasks]: created and not yet started,
    or suspended at its provider call. *)
Inductive Task : Type :=
  | ConsolidateTask (session : nat)
      (* [create_task(self._consolidate_memory(session))] *)
  | ConsolidateAndCleanup (session : nat) (messages_to_archive : list Message)
      (* [create_task(_consolidate_and_cleanup())] *)
  | AwaitingProvider (p : Pending).

Inductive level : Type := ERROR | WARNING.

(** What the run leaves behind: the log lines at error and warning level,
    and a record of the provider calls and of the slices consolidated. *)
Inductive Entry : Type :=
  | Logged (lv : level) (line : string)
  | LoopChat (answer : exn + LLMResponse)            (* a call of the iteration loop *)
  | Consolidating (task session : nat) (old_messages : list Message)
  | ConsolidationChat (answer : exn + LLMResponse).  (* a call of a consolidation job *)

Section Agent.
Context {W : Type}.

(** What a tool acts on: the world, and the outbound messages it publishes
    while it runs. [_register_default_tools] gives the message tool
    [bus.publish_outbound] as its callback, so a tool call can queue
    messages; the second component is what the call has published. *)
Definition ToolWorld : Type := (W * list OutboundMessage)%type.

(** [self]: the configuration and the collaborators of an [AgentLoop]. The
    provider, context builder, stores and bus are outside the sources and
    act on the world; a call that raises returns [inl]. The context builder
    reads the world to build the prompt. *)
Record AgentLoop : Type := {
  provider_chat : list ChatMessage → list Json → M W LLMResponse;
  tools : ToolRegistry ToolWorld;
  get_definitions : list Json;            (* [self.tools.get_definitions()] *)
  max_iterations : Z;
  memory_window : Z;
  build_messages : list Message → string → option (list string) → string → string
                   → W → list ChatMessage;
  get_history : Session → Z → list Message;
  set_context : string → string → string → W → W;   (* tool name, channel, chat id *)
  clock : W → string;
  read_long_term : M W string;
  write_long_term : Json → M W unit;
  append_history : Json → M W unit;
  json_repair_loads : string → exn + Json;
  json_dumps : Params → string;
  strip : string → string;
  lower : string → string;
  upper : string → string;
  py_upto : string → nat → string;               (* [s[:n]], counted in characters *)
  consume_inbound : M W InboundMessage;   (* [wait_for(bus.consume_inbound(), 1.0)] *)
}.

Variable self : AgentLoop.

(** The state of the process: the world, the [Session] objects by identity,
    the session store, the outbound queue, the detached tasks, the
    scheduling decisions still to come, and what was logged. *)
Record State : Type := {
  world : W;
  heap : gmap nat Session;
  next_ref : nat;
  cache : gmap string nat;         (* the store's cache: key to object *)
  disk : gmap string Session;      (* the saved sessions *)
  outbound : list OutboundMessage;
  tasks : gmap nat Task;
  next_task : nat;
  schedule : list (list nat);      (* per suspension: the tasks that run, in order *)
  log : list Entry;
  _running : bool;
}.

Definition set_world (w : W) (st : State) : State :=
  {| world := w; heap := heap st; next_ref := next_ref st; cache := cache st;
     disk := disk st; outbound := outbound st; tasks := tasks st;
     next_task := next_task st; schedule := schedule st; log := log st;
     _running := _running st |}.

Definition set_heap (h : gmap nat Session) (n : nat) (st : State) : State :=
  {| world := world st; heap := h; next_ref := n; cache := cache st;
     disk := disk st; outbound := outbound st; tasks := tasks st;
     next_task := next_task st; schedule := schedule st; log := log st;
     _running := _running st |}.

Definition set_cache (c : gmap string nat) (st : State) : State :=
  {| world := world st; heap := heap st; next_ref := next_ref st; cache := c;
     disk := disk st; outbound := outbound st; tasks := tasks st;
     next_task := next_task st; schedule := schedule st; log := log st;
     _running := _running st |}.

Definition set_disk (d : gmap string Session) (st : State) : State :=
  {| world := world st; heap := heap st; next_ref := next_ref st; cache := cache st;
     disk := d; outbound := outbound st; tasks := tasks st;
     next_task := next_task st; schedule := schedule st; log := log st;
     _running := _running st |}.

Definition set_outbound (o : list OutboundMessage) (st : State) : State :=
  {| world := world st; heap := heap st; next_ref := next_ref st; cache := cache st;
     disk := disk st; outbound := o; tasks := tasks st;
     next_task := next_task st; schedule := schedule st; log := log st;
     _running := _running st |}.

Definition set_tasks (t : gmap nat Task) (n : nat) (st : State) : State :=
  {| world := world st; heap := heap st; next_ref := next_ref st; cache := cache st;
     disk := disk st; outbound := outbound st; tasks := t;
     next_task := n; schedule := schedule st; log := log st;
     _running := _running st |}.

Definition set_schedule (s : list (list nat)) (st : State) : State :=
  {| world := world st; heap := heap st; next_ref := next_ref st; cache := cache st;
     disk := disk st; outbound := outbound st; tasks := tasks st;
     next_task := next_task st; schedule := s; log := log st;
     _running := _running st |}.

Definition set_log (l : list Entry) (st : State) : State :=
  {| world := world st; heap := heap st; next_ref := next_ref st; cache := cache st;
     disk := disk st; outbound := outbound st; tasks := tasks st;
     next_task := next_task st; schedule := schedule st; log := l;
     _running := _running st |}.

Definition set_running (b : bool) (st : State) : State :=
  {| world := world st; heap := heap st; next_ref := next_ref st; cache := cache st;
     disk := disk st; outbound := outbound st; tasks := tasks st;
     next_task := next_task st; schedule := schedule st; log := log st;
     _running := b |}.

(** *** Primitive steps *)

Definition on_world {A} (c : M W A) : M State A :=
  λ st, let '(r, w) := c (world st) in (r, set_world w st).

Definition emit (e : Entry) : M State unit :=
  modify (λ st, set_log (log st ++ [e])%list st).

(** The object a reference denotes. *)
Definition deref (st : State) (ref : nat) : Session :=
  default (new_session "") (heap st !! ref).

Definition read (ref : nat) : M State Session := λ st, (inr (deref st ref), st).

Definition write (ref : nat) (s : Session) : M State unit :=
  modify (λ st, set_heap (<[ref := s]> (heap st)) (next_ref st) st).

(** A new object. *)
Definition alloc (s : Session) : M State nat :=
  λ st, (inr (next_ref st), set_heap (<[next_ref st := s]> (heap st)) (S (next_ref st)) st).

(** [asyncio.create_task], with the task added to [_background_tasks]. *)
Definition create_task (t : Task) : M State unit :=
  modify (λ st, set_tasks (<[next_task st := t]> (tasks st)) (S (next_task st)) st).

(** Modelled from the spec: the bus delivers a reply by queueing it. *)
Definition publish_outbound (m : OutboundMessage) : M State unit :=
  modify (λ st, set_outbound (outbound st ++ [m])%list st).

(** Modelled from the spec: the session store, [get_or_create], [save] and
    [invalidate]. A key that is not cached is loaded from the saved
    sessions, or created, into a new object. *)
Definition get_or_create (k : string) : M State nat :=
  (st <- get_state ;;
   match cache st !! k with
   | Some ref => ret ref
   | None =>
       ref <- alloc (default (new_session k) (disk st !! k)) ;;
       modify (λ st, set_cache (<[k := ref]> (cache st)) st) ;;;
       ret ref
   end)%m.

Definition save (ref : nat) : M State unit :=
  modify (λ st, set_disk (<[key (deref st ref) := deref st ref]> (disk st)) st).

Definition invalidate (k : string) : M State unit :=
  modify (λ st, set_cache (delete k (cache st)) st).

Definition of_result {A} (r : exn + A) : M State A :=
  match r with inl e => raise e | inr a => ret a end.

(** A tool call: it acts on the world, and what it published is queued
    after what was in the queue. *)
Definition on_tools {A} (c : M ToolWorld A) : M State A :=
  λ st, let '(r, (w, sent)) := c (world st, []) in
        (r, set_outbound (outbound st ++ sent)%list (set_world w st)).

(** *** Memory consolidation *)

(** The part after the first [sep], or all of [s]: [s.split(sep, 1)[-1]]. *)
Definition after_first (sep s : string) : string :=
  match String.index 0 sep s with
  | Some i => String.substring (i + String.length sep)
                               (String.length s - (i + String.length sep)) s
  | None => s
  end.

(** The last position at or below [n] where [sep] occurs in [s]. *)
Fixpoint rindex_from (n : nat) (sep s : string) : option nat :=
  if String.prefix sep (String.substring n (String.length s - n) s) then Some n
  else match n with
       | O => None
       | S n' => rindex_from n' sep s
       end.

(** The part before the last [sep], or all of [s]: [s.rsplit(sep, 1)[0]]. *)
Definition before_last (sep s : string) : string :=
  match rindex_from (String.length s) sep s with
  | Some i => String.substring 0 i s
  | None => s
  end.

Definition fence : string := "```".

(** The text handed to [json_repair.loads]. *)
Definition unfence (txt : string) : string :=
  if String.prefix fence txt
  then strip self (before_last fence (after_first nl txt))
  else txt.

(** One line of the transcript. *)
Definition transcript_line (m : Message) : string :=
  let used := match tools_used m with
              | Some (t :: ts) => " [tools: " +:+ join ", " (t :: ts) +:+ "]"
              | _ => ""
              end in
  "[" +:+ py_upto self (default "?" (timestamp m)) 16 +:+ "] "
      +:+ upper self (role m) +:+ used +:+ ": " +:+ m_content m.

(** The lines of the messages that have content. *)
Fixpoint transcript_lines (old_messages : list Message) : list string :=
  match old_messages with
  | [] => []
  | m :: rest =>
      if String.eqb (m_content m) "" then transcript_lines rest
      else transcript_line m :: transcript_lines rest
  end.

Definition consolidation_prompt (current_memory conversation : string) : string :=
  "You are a memory consolidation agent. Process this conversation and return a JSON object with exactly two keys:"
  +:+ nl +:+ nl
  +:+ "1. " +:+ dq +:+ "history_entry" +:+ dq
  +:+ ": A paragraph (2-5 sentences) summarizing the key events/decisions/topics. Start with a timestamp like [YYYY-MM-DD HH:MM]. Include enough detail to be useful when found by grep search later."
  +:+ nl +:+ nl
  +:+ "2. " +:+ dq +:+ "memory_update" +:+ dq
  +:+ ": The updated long-term memory content. Add any new facts: user location, preferences, personal info, habits, project context, technical decisions, tools/services used. If nothing new, return the existing content unchanged."
  +:+ nl +:+ nl
  +:+ "## Current Long-term Memory" +:+ nl
  +:+ (if String.eqb current_memory "" then "(empty)" else current_memory)
  +:+ nl +:+ nl
  +:+ "## Conversation to Process" +:+ nl
  +:+ conversation +:+ nl +:+ nl
  +:+ "Respond with ONLY valid JSON, no markdown fences.".

(** Lines 439-465: the messages a run consolidates and its [keep_count];
    [None] where the function returns at once. *)
Definition select_old_messages (session : Session) (archive_all : bool)
  : option (list Message * Z) :=
  if archive_all then Some (messages session, 0)
  else
    let keep_count := memory_window self / 2 in
    if len (messages session) <=? keep_count then None
    else
      let messages_to_process := len (messages session) - last_consolidated session in
      if messages_to_process <=? 0 then None
      else
        match py_slice (messages session) (last_consolidated session) (- keep_count) with
        | [] => None
        | old_messages => Some (old_messages, keep_count)
        end.

(** [_consolidate_memory] up to its [await]: [None] when it has returned. *)
Definition consolidate_begin (ref : nat) (archive_all : bool) : M State (option Pending) :=
  (session <- read ref ;;
   match select_old_messages session archive_all with
   | None => ret None
   | Some (old_messages, keep_count) =>
       let conversation := join nl (transcript_lines old_messages) in
       current_memory <- on_world (read_long_term self) ;;
       ret (Some {| p_session := ref; p_archive_all := archive_all;
                    p_keep_count := keep_count; p_old_messages := old_messages;
                    p_current_memory := current_memory;
                    p_prompt := consolidation_prompt current_memory conversation |})
   end)%m.

Definition consolidation_request (p : Pending) : list ChatMessage :=
  [ Plain "system" "You are a memory consolidation agent. Respond only with valid JSON.";
    Plain "user" (p_prompt p) ].

(** [update != current_memory] *)
Definition differs (update : Json) (current_memory : string) : bool :=
  match update with
  | JStr s => negb (String.eqb s current_memory)
  | _ => true
  end.

(** The [try] block of [_consolidate_memory] after the provider answered. *)
Definition consolidate_end (p : Pending) (response : LLMResponse) : M State unit :=
  let txt := strip self (default "" (r_content response)) in
  if String.eqb txt "" then
    emit (Logged WARNING "Memory consolidation: LLM returned empty response, skipping")
  else
    let txt := unfence txt in
    (result <- of_result (json_repair_loads self txt) ;;
     match result with
     | JDict d =>
         match dict_get d "history_entry" with
         | Some entry => if truthy entry then on_world (append_history self entry) else ret tt
         | None => ret tt
         end ;;;
         match dict_get d "memory_update" with
         | Some update =>
             if truthy update && differs update (p_current_memory p)
             then on_world (write_long_term self update) else ret tt
         | None => ret tt
         end ;;;
         session <- read (p_session p) ;;
         write (p_session p)
               (set_last_consolidated session
                  (if p_archive_all p then 0
                   else len (messages session) - p_keep_count p))
     | _ =>
         emit (Logged WARNING
                 ("Memory consolidation: unexpected response type, skipping. Response: "
                  +:+ py_upto self txt 200))
     end)%m.

(** The provider's answer to a consolidation job, recorded. *)
Definition consolidation_chat (p : Pending) : M State LLMResponse :=
  λ st, let '(answer, w) := provider_chat self (consolidation_request p) [] (world st) in
        (answer, set_log (log st ++ [ConsolidationChat answer])%list (set_world w st)).

(** The rest of [_consolidate_memory], from the answer of the provider. *)
Definition consolidate_resume (p : Pending) : M State unit :=
  try_except
    (response <- consolidation_chat p ;; consolidate_end p response)%m
    (λ e, emit (Logged ERROR ("Memory consolidation failed: " +:+ str e))).

(** [_consolidate_memory], when nothing else runs during its [await]. *)
Definition _consolidate_memory (ref : nat) (archive_all : bool) : M State unit :=
  (pending <- consolidate_begin ref archive_all ;;
   match pending with
   | None => ret tt
   | Some p => consolidate_resume p
   end)%m.

(** *** The event loop: detached tasks run at the suspensions *)

(** What a task does in one turn of the event loop, until it suspends at
    its provider call or ends; [Some p] when it is suspended afterwards. An
    exception that leaves a task stays in the task. *)
Definition advance (t : Task) : M State (option Pending) :=
  match t with
  | ConsolidateTask ref => consolidate_begin ref false
  | ConsolidateAndCleanup ref messages_to_archive =>
      (session <- read ref ;;
       temp_session <- alloc (set_messages (new_session (key session)) messages_to_archive) ;;
       consolidate_begin temp_session true)%m
  | AwaitingProvider p =>
      (consolidate_resume p ;;; ret None)%m
  end.

(** One turn of the event loop for task [id]. A task that suspends is
    recorded with the messages it consolidates; a task that ended is
    discarded from [_background_tasks]. *)
Definition step_task (id : nat) (st : State) : State :=
  match tasks st !! id with
  | None => st
  | Some t =>
      match advance t st with
      | (inr (Some p), st') =>
          set_tasks (<[id := AwaitingProvider p]> (tasks st')) (next_task st')
            (set_log (log st' ++ [Consolidating id (p_session p) (p_old_messages p)])%list st')
      | (_, st') => set_tasks (delete id (tasks st')) (next_task st') st'
      end
  end.

(** A suspension of the running coroutine: the tasks the schedule names run. *)
Definition yield_point : M State unit :=
  λ st, match schedule st with
        | [] => (inr tt, st)
        | slot :: rest => (inr tt, fold_left (λ s id, step_task id s) slot (set_schedule rest st))
        end.

(** [await c] *)
Definition await {A} (c : M State A) : M State A := (yield_point ;;; c)%m.

(** *** The iteration loop *)

Definition tool_call_dict (tc : ToolCall) : ToolCallDict :=
  {| d_id := tc_id tc; d_name := tc_name tc; d_arguments := json_dumps self (tc_arguments tc) |}.

(** Modelled from the spec: [ContextBuilder.add_assistant_message] and
    [add_tool_result] append one turn to the running list. *)
Definition add_assistant_message (msgs : list ChatMessage) (c : option string)
           (calls : list ToolCallDict) (reasoning : option string) : list ChatMessage :=
  (msgs ++ [AssistantTurn c calls reasoning])%list.

Definition add_tool_result (msgs : list ChatMessage) (id nm result : string)
  : list ChatMessage :=
  (msgs ++ [ToolResult id nm result])%list.

(** [await self.provider.chat(...)] of the loop, recorded. *)
Definition loop_chat (msgs : list ChatMessage) : M State LLMResponse :=
  await (λ st, let '(answer, w) := provider_chat self msgs (get_definitions self) (world st) in
               (answer, set_log (log st ++ [LoopChat answer])%list (set_world w st))).

(** The [for tool_call in response.tool_calls] loop. *)
Fixpoint run_tool_calls (calls : list ToolCall) (msgs : list ChatMessage)
         (used : list string) : M State (list ChatMessage * list string) :=
  match calls with
  | [] => ret (msgs, used)
  | tool_call :: rest =>
      (let used := (used ++ [tc_name tool_call])%list in
       result <- await (on_tools (execute (tools self) (tc_name tool_call)
                                          (tc_arguments tool_call))) ;;
       run_tool_calls rest
         (add_tool_result msgs (tc_id tool_call) (tc_name tool_call) result) used)%m
  end.

(** One test of the [while] of [_run_agent_loop] and its body, given the
    function that continues the loop. *)
Definition loop_body
           (continue : list ChatMessage → Z → list string → M State (option string * list string))
           (msgs : list ChatMessage) (iteration : Z) (used : list string)
  : M State (option string * list string) :=
  if iteration <? max_iterations self then
    (let iteration := iteration + 1 in
     response <- loop_chat msgs ;;
     if has_tool_calls response then
       let tool_call_dicts := List.map tool_call_dict (tool_calls response) in
       let msgs := add_assistant_message msgs (r_content response) tool_call_dicts
                                         (reasoning_content response) in
       mu <- run_tool_calls (tool_calls response) msgs used ;;
       let msgs := (fst mu ++ [Plain "user" "Reflect on the results and decide next steps."])%list in
       continue msgs iteration (snd mu)
     else ret (r_content response, used))%m
  else ret (None, used).

(** The recursion is on the iterations left; [loop_unfold] shows that the
    loop satisfies the source's equation. *)
Fixpoint loop_rec (left : nat) (msgs : list ChatMessage) (iteration : Z)
         (used : list string) : M State (option string * list string) :=
  match left with
  | O => ret (None, used)
  | S n => loop_body (loop_rec n) msgs iteration used
  end.

Definition while_loop (msgs : list ChatMessage) (iteration : Z) (used : list string)
  : M State (option string * list string) :=
  loop_rec (S (Z.to_nat (max_iterations self - iteration))) msgs iteration used.

Definition _run_agent_loop (initial_messages : list ChatMessage)
  : M State (option string * list string) :=
  while_loop initial_messages 0 [].

(** *** Messages *)

Definition _set_tool_context (ch cid : string) : M State unit :=
  modify (λ st,
    fold_left (λ s nm, if has (tools self) nm
                       then set_world (set_context self nm ch cid (world s)) s else s)
              ["message"; "spawn"; "cron"] st).

Definition say (s : Session) (r c : string) (used : option (list string)) (st : State)
  : Session := add_message s r c used (clock self (world st)).

(** [session.add_message(role, content, ...)] on the object [ref]. *)
Definition session_add_message (ref : nat) (r c : string) (used : option (list string))
  : M State unit :=
  modify (λ st, set_heap (<[ref := say (deref st ref) r c used st]> (heap st))
                         (next_ref st) st).

Definition colon_split (s : string) : option (string * string) :=
  match String.index 0 ":" s with
  | Some i => Some (String.substring 0 i s,
                    String.substring (S i) (String.length s - S i) s)
  | None => None
  end.

Definition _process_system_message (msg : InboundMessage) : M State (option OutboundMessage) :=
  let '(origin_channel, origin_chat_id) :=
    match colon_split (chat_id msg) with
    | Some parts => parts
    | None => ("cli", chat_id msg)
    end in
  let session_key := origin_channel +:+ ":" +:+ origin_chat_id in
  (session <- get_or_create session_key ;;
   _set_tool_context origin_channel origin_chat_id ;;;
   s <- read session ;;
   st <- get_state ;;
   let initial_messages := build_messages self (get_history self s (memory_window self))
                             (content msg) None origin_channel origin_chat_id (world st) in
   fu <- _run_agent_loop initial_messages ;;
   let final_content := default "Background task completed." (fst fu) in
   session_add_message session "user"
      ("[System: " +:+ sender_id msg +:+ "] " +:+ content msg) None ;;;
   session_add_message session "assistant" final_content None ;;;
   save session ;;;
   ret (Some {| o_channel := origin_channel; o_chat_id := origin_chat_id;
                o_content := final_content; o_metadata := [] |}))%m.

Definition fallback : string := "I've completed processing but have no response to give.".

(** [session_key or msg.session_key] *)
Definition turn_key (msg : InboundMessage) (session_key_arg : option string) : string :=
  match session_key_arg with
  | Some k => if String.eqb k "" then session_key msg else k
  | None => session_key msg
  end.

Definition _process_message (msg : InboundMessage) (session_key_arg : option string)
  : M State (option OutboundMessage) :=
  if String.eqb (channel msg) "system" then _process_system_message msg
  else
    let k := turn_key msg session_key_arg in
    (session <- get_or_create k ;;
     let cmd := lower self (strip self (content msg)) in
     if String.eqb cmd "/new" then
       s <- read session ;;
       let messages_to_archive := messages s in
       write session (clear s) ;;;
       save session ;;;
       invalidate (key s) ;;;
       create_task (ConsolidateAndCleanup session messages_to_archive) ;;;
       ret (Some {| o_channel := channel msg; o_chat_id := chat_id msg;
                    o_content := "New session started. Memory consolidation in progress.";
                    o_metadata := [] |})
     else if String.eqb cmd "/help" then
       ret (Some {| o_channel := channel msg; o_chat_id := chat_id msg;
                    o_content := "ðŸˆ nanobot commands:" +:+ nl
                                 +:+ "/new â€” Start a new conversation" +:+ nl
                                 +:+ "/help â€” Show available commands";
                    o_metadata := [] |})
     else
       s <- read session ;;
       (if len (messages s) >? memory_window self
        then create_task (ConsolidateTask session) else ret tt) ;;;
       _set_tool_context (channel msg) (chat_id msg) ;;;
       s <- read session ;;
       st <- get_state ;;
       let initial_messages := build_messages self (get_history self s (memory_window self))
                                 (content msg)
                                 (match media msg with [] => None | m => Some m end)
                                 (channel msg) (chat_id msg) (world st) in
       fu <- _run_agent_loop initial_messages ;;
       let final_content := default fallback (fst fu) in
       session_add_message session "user" (content msg) None ;;;
       session_add_message session "assistant" final_content
          (match snd fu with [] => None | used => Some used end) ;;;
       save session ;;;
       ret (Some {| o_channel := channel msg; o_chat_id := chat_id msg;
                    o_content := final_content; o_metadata := metadata msg |}))%m.

(** *** The run loop *)

Definition apology (msg : InboundMessage) : OutboundMessage :=
  {| o_channel := channel msg; o_chat_id := chat_id msg;
     o_content := "Sorry, I encountered an internal error. Please try again.";
     o_metadata := [] |}.

(** The inner [try] block: the message is processed and the reply, if
    any, published. *)
Definition process_and_publish (msg : InboundMessage) : M State unit :=
  (response <- _process_message msg None ;;
   match response with
   | Some out => await (publish_outbound out)
   | None => ret tt
   end)%m.

(** The inner [except Exception as e]. *)
Definition on_failure (msg : InboundMessage) (e : exn) : M State unit :=
  (emit (Logged ERROR ("Error processing message: " +:+ str e)) ;;;
   await (publish_outbound (apology msg)))%m.

(** The body of [while self._running]: [inr] when the loop goes on. *)
Definition run_iteration : M State unit :=
  try_except
    (msg <- await (on_world (consume_inbound self)) ;;
     try_except (process_and_publish msg) (on_failure msg))%m
    (λ e, if decide (kind e = KTimeoutError) then ret tt else raise e).

(** [left] tests of [while self._running]: [inr true] when the loop is
    still running after them, [inr false] when the flag stopped it, [inl]
    when an exception ended it. *)
Fixpoint run_loop (left : nat) : M State bool :=
  match left with
  | O => (st <- get_state ;; ret (_running st))%m
  | S n =>
      (st <- get_state ;;
       if _running st then (run_iteration ;;; run_loop n) else ret false)%m
  end.

(** [AgentLoop.run], with no MCP server configured. *)
Definition run (left : nat) : M State bool :=
  (modify (set_running true) ;;; run_loop left)%m.

(** [AgentLoop.stop] *)
Definition stop : M State unit := modify (set_running false).

(** [AgentLoop.process_direct], with no MCP server configured. *)
Definition process_direct (text session_key_arg ch cid : string) : M State string :=
  let msg := {| channel := ch; sender_id := "user"; chat_id := cid; content := text;
                media := []; metadata := [] |} in
  (response <- _process_message msg (Some session_key_arg) ;;
   ret (match response with Some out => o_content out | None => "" end))%m.

(** *** What the code keeps *)

(** The tool-result turns of the calls, given what each returned. *)
Definition tool_results (calls : list ToolCall) (results : list string) : list ChatMessage :=
  zip_with (λ tc result, ToolResult (tc_id tc) (tc_name tc) result) calls results.

(** The names of the tools an answer of the provider calls. *)
Definition called (a : exn + LLMResponse) : list string :=
  match a with
  | inr response =>
      if has_tool_calls response then List.map tc_name (tool_calls response) else []
  | inl _ => []
  end.

(** From [st] to [st'] no session object was lost, and each one has the key
    and the messages it had. *)
Definition same_history (st st' : State) : Prop :=
  (next_ref st ≤ next_ref st')%nat ∧
  ∀ ref, (ref < next_ref st)%nat →
         key (deref st' ref) = key (deref st ref) ∧
         messages (deref st' ref) = messages (deref st ref).

(** From [st] to [st'] the sessions, the store and the outbound queue are
    as they were, but for the cursors of the sessions. *)
Definition kept (st st' : State) : Prop :=
  same_history st st' ∧ cache st' = cache st ∧ disk st' = disk st ∧
  outbound st' = outbound st.

(** The same, but that messages may have been queued after the ones that
    were in the outbound queue. *)
Definition kept_but_sent (st st' : State) : Prop :=
  same_history st st' ∧ cache st' = cache st ∧ disk st' = disk st ∧
  outbound st `prefix_of` outbound st'.

(** The exception is one the validator of a registered tool raised, on the
    arguments of a call. *)
Definition validator_raised (e : exn) : Prop :=
  ∃ nm tool params,
    get (tools self) nm = Some tool ∧ validate_params tool params = inl e.

(** The calls were run one after the other from [st] to [st'], each at a
    suspension of the loop, and returned the texts [results]. *)
Inductive ran : list ToolCall → State → list string → State → Prop :=
  | ran_nil st : ran [] st [] st
  | ran_cons tc calls st result st1 results st2 :
      on_tools (execute (tools self) (tc_name tc) (tc_arguments tc)) (yield_point st).2
      = (inr result, st1) →
      ran calls st1 results st2 →
      ran (tc :: calls) st (result :: results) st2.

(** The cache of the store names objects that exist. *)
Definition cache_ok (st : State) : Prop :=
  ∀ k ref, cache st !! k = Some ref → (ref < next_ref st)%nat.

(** The session the store answers with for key [k]: the cached object, or
    else the saved session, or else a new one. *)
Definition stored (st : State) (k : string) : Session :=
  match cache st !! k with
  | Some ref => deref st ref
  | None => default (new_session k) (disk st !! k)
  end.

(** What a record of the history says, apart from its time. *)
Definition said_by (m : Message) : string * string * option (list string) :=
  (role m, m_content m, tools_used m).

(** *** What the specification speaks of *)

(** The slice the specification names: [messages[last_consolidated :
    len(messages) - keep_count]], as a range of positions. *)
Definition spec_slice (session : Session) (keep_count : Z) : list Message :=
  let start := Z.max 0 (last_consolidated session) in
  let stop := Z.max 0 (len (messages session) - keep_count) in
  take (Z.to_nat (stop - start)) (drop (Z.to_nat start) (messages session)).

(** The answers the iteration loop got, in a log. *)
Fixpoint loop_chats (l : list Entry) : list (exn + LLMResponse) :=
  match l with
  | [] => []
  | LoopChat a :: rest => a :: loop_chats rest
  | _ :: rest => loop_chats rest
  end.

(** The answer asks for tools, so the loop goes on. *)
Definition asks_for_tools (a : exn + LLMResponse) : Prop :=
  ∃ response, a = inr response ∧ has_tool_calls response = true.

(** Every run of the computation takes a state to one related to it by [R]. *)
Definition preserves {A} (R : State → State → Prop) (c : M State A) : Prop :=
∀ st, R st (c st).2.

(** The entries a detached task writes while it runs. *)
Definition from_job (e : Entry) : Prop :=
  match e with
  | Logged _ _ | ConsolidationChat _ => True
  | LoopChat _ | Consolidating _ _ _ => False
  end.

(** The slices task [id] was recorded with, in a log. *)
Fixpoint consolidated_by (id : nat) (l : list Entry) : list (list Message) :=
  match l with
  | [] => []
  | Consolidating t _ old_messages :: rest =>
      if decide (t = id) then old_messages :: consolidated_by id rest
      else consolidated_by id rest
  | _ :: rest => consolidated_by id rest
  end.

(** A computation returns, and the iteration loop calls no provider in it. *)
Definition quiet {A} (c : M State A) : Prop :=
  ∀ st, ∃ a st', c st = (inr a, st') ∧ loop_chats (log st') = loop_chats (log st).

(** What the answer of the provider parses to: the dictionary, when the
    call returned, the text is not empty and [json_repair] made a dict of it. *)
Definition parsed_result (answer : exn + LLMResponse) : option (list (string * Json)) :=
  match answer with
  | inl _ => None
  | inr response =>
      let txt := strip self (default "" (r_content response)) in
      if String.eqb txt "" then None
      else match json_repair_loads self (unfence txt) with
           | inr (JDict d) => Some d
           | _ => None
           end
  end.

(** The archive job [t] of a [/new] still holds exactly the snapshot [ms]:
    it has not started and carries [ms]; or it is suspended at its provider
    call with [ms] as the messages it consolidates, recorded once; or it
    has ended, after at most that one record. [base] is what the log held
    for [t] before. *)
Definition archive_intact (t : nat) (ms : list Message) (base : list (list Message))
           (st : State) : Prop :=
  (t < next_task st)%nat ∧
  match tasks st !! t with
  | Some (ConsolidateAndCleanup _ l) => l = ms ∧ consolidated_by t (log st) = base
  | Some (AwaitingProvider p) =>
      p_old_messages p = ms ∧ p_archive_all p = true ∧
      consolidated_by t (log st) = (base ++ [ms])%list
  | Some (ConsolidateTask _) => False
  | None =>
      consolidated_by t (log st) = base ∨
      consolidated_by t (log st) = (base ++ [ms])%list
  end.

(** The cursor invariant of a session. *)
Definition cursor_in_range (s : Session) : Prop :=
  0 ≤ last_consolidated s ≤ len (messages s).

End Agent.
Arguments ToolWorld : clear implicits.
Arguments AgentLoop : clear implicits.
Arguments State : clear implicits.
End Agent.

(** ** Model identifiers *)

Module Prefix.

Definition slash : ascii := Ascii.ascii_of_nat 47.
Definition nl : string := String (Ascii.ascii_of_nat 10) EmptyString.

(** [s.split(sep)] for a separator of one character. *)
Fixpoint split (sep : ascii) (s : string) : list string :=
  match s with
  | EmptyString => [EmptyString]
  | String c rest =>
      if Ascii.eqb c sep then EmptyString :: split sep rest
      else match split sep rest with
           | piece :: pieces => String c piece :: pieces
           | [] => [String c EmptyString]
           end
  end.

(** [c in s] for one character. *)
Fixpoint occurs (c : ascii) (s : string) : bool :=
  match s with
  | EmptyString => false
  | String x rest => Ascii.eqb x c || occurs c rest
  end.

Definition format_prefix (model_full thinking_level : string) : string :=
  "thinking level: " +:+ thinking_level +:+ nl +:+ nl.

(** [model_full.split("/")[-1]] *)
Definition get_model_short (model_full : string) : string :=
  List.last (split slash model_full) EmptyString.

(** [model_full.split("/")[0]] when there is a slash. *)
Definition get_provider_name (model_full : string) : string :=
  if occurs slash model_full then List.hd EmptyString (split slash model_full)
  else "unknown".

End Prefix.

(** ** A small network, to run the fetch pipeline on *)

Module DemoNet.
Import Web.

Definition digit (c : Ascii.ascii) : option Z :=
  let n := Z.of_nat (Ascii.nat_of_ascii c) in
  if (48 <=? n) && (n <=? 57) then Some (n - 48) else None.

Fixpoint decimal (s : string) (acc : Z) : option Z :=
  match s with
  | EmptyString => Some acc
  | String c s' => match digit c with
                   | Some d => decimal s' (acc * 10 + d)
                   | None => None
                   end
  end.

(** One octet of a dotted quad: one to three digits, no leading zero, at
    most 255. *)
Definition octet (s : string) : option Z :=
  match s with
  | EmptyString => None
  | String c rest =>
      if (3 <? Z.of_nat (String.length s))
         || (Ascii.eqb c "0"%char && negb (String.eqb rest "")) then None
      else match decimal s 0 with
           | Some n => if n <=? 255 then Some n else None
           | None => None
           end
  end.

Fixpoint split_on (sep : Ascii.ascii) (s : string) : list string :=
  match s with
  | EmptyString => [EmptyString]
  | String c s' =>
      if Ascii.eqb c sep then EmptyString :: split_on sep s'
      else match split_on sep s' with
           | piece :: pieces => String c piece :: pieces
           | [] => [String c EmptyString]
           end
  end.

(** IPv4 addresses in dotted-quad form. *)
Definition dotted_quad (s : string) : option ip_addr :=
  match split_on "."%char s with
  | [a; b; c; d] =>
      match octet a, octet b, octet c, octet d with
      | Some a, Some b, Some c, Some d => Some (IPv4Address (v4 a b c d))
      | _, _, _, _ => None
      end
  | _ => None
  end.

Definition after_prefix (p s : string) : option string :=
  if String.prefix p s
  then Some (String.substring (String.length p) (String.length s - String.length p) s)
  else None.

Definition authority (rest : string) : string :=
  match String.index 0 "/" rest with
  | Some i => String.substring 0 i rest
  | None => rest
  end.

Definition parsed (sch rest : string) : ParseResult :=
  {| scheme := sch; netloc := authority rest;
     hostname := if String.eqb (authority rest) "" then None else Some (authority rest) |}.

Definition demo_urlparse (u : string) : exn + ParseResult :=
  match after_prefix "http://" u with
  | Some rest => inr (parsed "http" rest)
  | None =>
      match after_prefix "https://" u with
      | Some rest => inr (parsed "https" rest)
      | None => inr {| scheme := ""; netloc := ""; hostname := None |}
      end
  end.

(** The world counts the lookups and requests made. *)
Definition demo_getaddrinfo (h : string) : M nat (list string) :=
  λ n, (if String.eqb h "example.com" then inr ["93.184.216.34"; "93.184.216.34"]
        else if String.eqb h "loop.example" then inr ["93.184.216.35"]
        else if String.eqb h "hop.example" then inr ["93.184.216.36"]
        else if String.eqb h "intranet.example" then inr ["10.0.0.7"]
        else if String.eqb h "scoped.example" then inr ["fe80::1%eth0"]
        else if String.eqb h "odd.example" then inr ["not-an-address"]
        else inl (Exn KOSError "Name or service not known"),
        S n).

Definition page (status : Z) (loc : option string) (u : string) : Response :=
  {| status_code := status; location := loc; content_type := Some "text/plain";
     text := "ok"; json := inl (Exn KValueError "not JSON"); url := u |}.

Definition demo_client_get (u : string) : M nat Response :=
  λ n, (if String.eqb u "http://example.com/"
        then inr (page 302 (Some "http://intranet.example/admin") u)
        else if String.eqb u "http://loop.example/"
        then inr (page 301 (Some "http://loop.example/") u)
        else if String.eqb u "http://hop.example/"
        then inr (page 307 (Some "http://example.com/") u)
        else inr (page 200 None u),
        S n).

(** [s[:n]] on text of one-byte characters, with Python's reading of a
    negative bound. *)
Definition ascii_upto (s : string) (n : Z) : string :=
  let len := Z.of_nat (String.length s) in
  let stop := if n <? 0 then Z.max 0 (n + len) else Z.min n len in
  String.substring 0 (Z.to_nat stop) s.

(** The address library on the texts of this network: dotted quads, three
    IPv6 addresses and the link-local address with a zone, which
    [ipaddress] reads since Python 3.9; every other text is refused. *)
Definition demo_ip_address (s : string) : option ip_addr :=
  if String.eqb s "::1" then Some (IPv6Address 1)
  else if String.eqb s "fe80::1" then Some (IPv6Address (v6_lead 0xfe80 + 1))
  else if String.eqb s "fe80::1%eth0" then Some (IPv6Address (v6_lead 0xfe80 + 1))
  else if String.eqb s "::ffff:10.0.0.7"
  then Some (IPv6Address (0xffff * 2 ^ 32 + v4 10 0 0 7))
  else dotted_quad s.

#[warnings="-register-all"]
Fixpoint demo_dumps (j : Json) : string :=
  match j with
  | JNull => "null"
  | JBool b => if b then "true" else "false"
  | JNum n => pretty n
  | JStr s => s
  | JList l => "[" +:+ String.concat ", " (List.map demo_dumps l) +:+ "]"
  | JDict d =>
      "{" +:+ String.concat ", "
                (List.map (λ kv, match kv with (k, v) => k +:+ ": " +:+ demo_dumps v end) d)
      +:+ "}"
  end.

Definition demo_net : Net nat :=
  {| urlparse := demo_urlparse;
     lower := λ s, s;
     py_len := λ s, Z.of_nat (String.length s);
     py_upto := ascii_upto;
     ip_address := demo_ip_address;
     getaddrinfo := demo_getaddrinfo;
     client_get := demo_client_get;
     raise_for_status := λ r, if status_code r <? 400 then inr tt
                              else inl (Exn KException "HTTP error");
     readability := λ t, inr (t, "");
     _to_markdown := λ t, t;
     _strip_tags := λ t, t;
     json_dumps := demo_dumps;
     json_dumps_indent := demo_dumps |}.

Definition fresh : St nat := {| world := 0%nat; trace := [] |}.
End DemoNet.

(** ** A small search service and a [strip] for ASCII text *)

Module DemoSearch.
Import Search.

Definition hit (n : Z) : Json :=
  JDict [("title", JStr ("Result " +:+ pretty n));
         ("url", JStr ("http://example.com/" +:+ pretty n));
         ("description", JStr "")].

(** The service answers every query with twelve results. *)
Definition demo_search_get (query : string) (n : Z) (token : string) : M nat Web.Response :=
  λ w, (inr {| Web.status_code := 200; Web.location := None;
               Web.content_type := Some "application/json"; Web.text := "";
               Web.json := inr (JDict [("web", JDict [("results",
                                 JList (List.map hit [1; 2; 3; 4; 5; 6; 7; 8; 9; 10; 11; 12]))])]);
               Web.url := "https://api.search.brave.com/res/v1/web/search" |},
        S w).

Definition demo_api : Api nat :=
  {| search_get := demo_search_get;
     raise_for_status := λ r, if Web.status_code r <? 400 then inr tt
                              else inl (Exn KException "HTTP error");
     py_str := DemoNet.demo_dumps;
     attribute_error := λ _ name,
       Exn KException ("object has no attribute '" +:+ name +:+ "'");
     type_error := λ _, Exn KException "object is not subscriptable" |}.

Definition is_space (c : ascii) : bool :=
  Ascii.eqb c WebText.space || Ascii.eqb c WebText.tab || Ascii.eqb c WebText.newline.

Fixpoint lstrip (s : string) : string :=
  match s with
  | EmptyString => EmptyString
  | String c rest => if is_space c then lstrip rest else s
  end.

Fixpoint rstrip (s : string) : string :=
  match s with
  | EmptyString => EmptyString
  | String c rest =>
      match rstrip rest with
      | EmptyString => if is_space c then EmptyString else String c EmptyString
      | kept => String c kept
      end
  end.

(** [str.strip] on text of spaces, tabs, newlines and printable characters. *)
Definition ascii_strip (s : string) : string := lstrip (rstrip s).
End DemoSearch.

(** ** A small agent, to run the loop on *)

Module DemoAgent.
Import Registry Agent.

(** The world: what the provider will answer, in order; the messages still
    to arrive; the durable memory. *)
Record World : Type := {
  answers : list (exn + LLMResponse);
  inbox : list InboundMessage;
  long_term : string;
  history : list Json;
}.

Definition done : LLMResponse :=
  {| r_content := Some "done"; tool_calls := []; reasoning_content := None;
     has_tool_calls := false |}.

Definition demo_chat (_ : list ChatMessage) (_ : list Json) : M World LLMResponse :=
  λ w, match answers w with
       | [] => (inr done, w)
       | a :: rest => (a, {| answers := rest; inbox := inbox w;
                             long_term := long_term w; history := history w |})
       end.

Definition demo_consume : M World InboundMessage :=
  λ w, match inbox w with
       | [] => (inl (Exn KTimeoutError ""), w)
       | m :: rest => (inr m, {| answers := answers w; inbox := rest;
                                 long_term := long_term w; history := history w |})
       end.

Definition demo_write (update : Json) : M World unit :=
  λ w, match update with
       | JStr s => (inr tt, {| answers := answers w; inbox := inbox w;
                               long_term := s; history := history w |})
       | _ => (inl (Exn KException "write() argument must be str"), w)
       end.

Definition demo_append (entry : Json) : M World unit :=
  λ w, (inr tt, {| answers := answers w; inbox := inbox w; long_term := long_term w;
                   history := (history w ++ [entry])%list |}).

Definition summary_text : string := "{summary}".
Definition summary : Json :=
    JDict [("history_entry", JStr "[2026-01-01 10:00] They talked.");
           ("memory_update", JStr "Likes tea.")].

(** An answer whose memory update is an object, not a text. *)
Definition partial_text : string := "{partial}".
Definition partial : Json :=
    JDict [("history_entry", JStr "[2026-01-01 10:00] They talked.");
           ("memory_update", JDict [("likes", JStr "tea")])].

(** A parser that knows four texts. *)
Definition demo_loads (txt : string) : exn + Json :=
  if String.eqb txt summary_text then inr summary
  else if String.eqb txt partial_text then inr partial
  else if String.eqb txt "[]" then inr (JList [])
  else if String.eqb txt "boom" then inl (Exn KValueError "cannot parse")
  else inr (JStr txt).

Definition echo : Tool (ToolWorld World) :=
  {| tool_name := "echo";
     validate_params := λ params, match dict_get params "text" with
                                  | Some (JStr _) => inr []
                                  | Some _ => inr ["text should be string"]
                                  | None => inr ["missing required text"]
                                  end;
     tool_execute := λ params, match dict_get params "text" with
                               | Some (JStr s) => if String.eqb s "" then raise (Exn KException "nothing to say")
                                                  else ret s
                               | _ => raise (Exn KException "unreachable")
                               end |}.

(** A tool whose parameter schema is an array, not an object: its
    validator refuses the schema by raising. *)
Definition strict : Tool (ToolWorld World) :=
  {| tool_name := "strict";
     validate_params := λ _, inl (Exn KValueError "Schema must be object type, got 'array'");
     tool_execute := λ _, ret "never" |}.

(** The message tool: it publishes its text to the chat [cli:direct]. *)
Definition message : Tool (ToolWorld World) :=
  {| tool_name := "message";
     validate_params := λ params, match dict_get params "content" with
                                  | Some (JStr _) => inr []
                                  | _ => inr ["missing required content"]
                                  end;
     tool_execute := λ params tw,
       match dict_get params "content" with
       | Some (JStr s) =>
           (inr "Message sent to cli:direct",
            (tw.1, (tw.2 ++ [{| o_channel := "cli"; o_chat_id := "direct";
                                o_content := s; o_metadata := [] |}])%list))
       | _ => (inl (Exn KException "unreachable"), tw)
       end |}.

Definition demo_agent (max_it window : Z) : AgentLoop World :=
  {| provider_chat := demo_chat;
     tools := register (register (register Registry.empty echo) strict) message;
     get_definitions := [JStr "echo"; JStr "strict"; JStr "message"];
     max_iterations := max_it;
     memory_window := window;
     build_messages := λ hist current _ _ _ _,
       (List.map (λ m, Plain (role m) (m_content m)) hist ++ [Plain "user" current])%list;
     get_history := λ s n, py_slice (messages s) (- n) (len (messages s));
     set_context := λ _ _ _ w, w;
     clock := λ _, "2026-01-01T10:00:00";
     read_long_term := λ w, (inr (long_term w), w);
     write_long_term := demo_write;
     append_history := demo_append;
     json_repair_loads := demo_loads;
     json_dumps := λ _, "{}";
     strip := λ s, s;
     lower := λ s, s;
     upper := λ s, s;
     py_upto := λ s n, String.substring 0 n s;
     consume_inbound := demo_consume |}.

Definition said (r c : string) : Message :=
  {| role := r; m_content := c; tools_used := None; timestamp := Some "2026-01-01T09:00:00" |}.

Definition from_user (c : string) : InboundMessage :=
  {| channel := "cli"; sender_id := "user"; chat_id := "direct"; content := c;
     media := []; metadata := [] |}.

(** A process whose store holds one saved session, ["cli:direct"]. *)
Definition boot (w : World) (stored : list Message) (cursor : Z)
           (sched : list (list nat)) : @State World :=
  {| world := w; heap := ∅; next_ref := 0;
     cache := ∅;
     disk := {[ "cli:direct" := {| key := "cli:direct"; messages := stored;
                                   last_consolidated := cursor |} ]};
     outbound := []; tasks := ∅; next_task := 0; schedule := sched; log := [];
     _running := false |}.

Definition answer (txt : string) : exn + LLMResponse :=
  inr {| r_content := Some txt; tool_calls := []; reasoning_content := None;
         has_tool_calls := false |}.


(** An answer that calls the tool [nm] with the one argument [k]. *)
Definition call_tool (nm k v : string) : exn + LLMResponse :=
  inr {| r_content := None;
         tool_calls := [{| tc_id := "call_1"; tc_name := nm;
                           tc_arguments := [(k, JStr v)] |}];
         reasoning_content := None; has_tool_calls := true |}.

(** A turn with 51 stored messages and a window of 50 starts a
    consolidation job; the job is suspended at its provider call when
    [/new] arrives, and the provider answers it afterwards. *)
Definition race_world : World :=
  {| answers := [answer "hello"; answer summary_text];
     inbox := [from_user "hi"; from_user "/new"];
     long_term := ""; history := [] |}.

Definition race_schedule : list (list nat) :=
  [ [];      (* waiting for "hi" *)
    [0%nat]; (* the turn awaits the provider: the job starts, and suspends *)
    [];      (* the reply is published *)
    [];      (* waiting for "/new" *)
    [];      (* the reply is published *)
    [0%nat]  (* waiting for a message: the provider answers the job *) ].

Definition race_start : @State World :=
  boot race_world (repeat (said "user" "x") 51) 0 race_schedule.

(** The process once the saved session is loaded: it is object [0]. *)
Definition loaded (w : World) (stored : list Message) (cursor : Z)
           (sched : list (list nat)) : @State World :=
  (get_or_create "cli:direct" (boot w stored cursor sched)).2.

Definition script (l : list (exn + LLMResponse)) (msgs : list InboundMessage) : World :=
  {| answers := l; inbox := msgs; long_term := ""; history := [] |}.


(** The provider is down when a message arrives. *)
Definition outage_start : @State World :=
  boot (script [inl (Exn KException "provider down")] [from_user "hi"]) [] 0 [].

Definition two_messages : list Message := [said "user" "a"; said "assistant" "b"].

(** A job of the loaded session, suspended at its provider call. *)
Definition suspended : Pending :=
  {| p_session := 0; p_archive_all := false; p_keep_count := 25;
     p_old_messages := repeat (said "user" "x") 26; p_current_memory := "";
     p_prompt := "" |}.

(** The session of 51 messages loaded, and a provider whose answer cannot
    be parsed. *)
Definition unparsed_start : @State World :=
  loaded (script [answer "boom"] []) (repeat (said "user" "x") 51) 0 [].

(** The same session, and a provider whose answer is the summary. *)
Definition summary_start : @State World :=
  loaded (script [answer summary_text] []) (repeat (said "user" "x") 51) 0 [].

(** The same session, and a provider that answers twice with a memory update
    that cannot be written. *)
Definition partial_start : @State World :=
  loaded (script [answer partial_text; answer partial_text] [])
         (repeat (said "user" "x") 51) 0 [].

(** The loop is running; the provider is down for the first of two messages. *)
Definition recovery_start : @State World :=
  set_running true
    (boot (script [inl (Exn KException "provider down"); answer "hello"]
                  [from_user "hi"; from_user "again"]) [] 0 []).

(** The provider first sends a note through the message tool, then answers. *)
Definition chatty_start : @State World :=
  boot (script [call_tool "message" "content" "working on it"; answer "hello"]
               [from_user "hi"]) two_messages 0 [].

(** The provider asks for the tool whose validator raises. *)
Definition strict_start : @State World :=
  boot (script [call_tool "strict" "x" "y"; answer "late"] []) [] 0 [].

(** A saved session of two messages, one of them consolidated. *)
Definition short_start : @State World := boot (script [] []) two_messages 1 [].

(** A saved session of two messages, and a provider that answers "hello". *)
Definition hello_start : @State World :=
  boot (script [answer "hello"] []) two_messages 0 [].

(** The same, with the message "hi" waiting on the bus. *)
Definition inbox_start : @State World :=
  boot (script [answer "hello"] [from_user "hi"]) two_messages 0 [].

(** A message of the cron service on the system channel, for the chat [cid]. *)
Definition tick (cid : string) : InboundMessage :=
  {| channel := "system"; sender_id := "cron"; chat_id := cid; content := "tick";
     media := []; metadata := [] |}.
End DemoAgent.

(** * Theorems *)

(** ** ToolRegistry.execute *)

Module RegistryTheory.
Import Registry.
Section RegistryTheory.
Context {W : Type}.
Implicit Types (r : ToolRegistry W) (w : W).

Lemma execute_unregistered r nm params w :
  _tools r !! nm = None → execute r nm params w = (inr (tool_not_found nm), w).
Proof. intros H. unfold execute. now rewrite H. Qed.

Lemma execute_invalid r nm params w tool errors :
  _tools r !! nm = Some tool → validate_params tool params = inr errors → errors ≠ [] →
  execute r nm params w = (inr (invalid_parameters nm errors), w).
Proof.
  intros H Hv Hne. unfold execute. rewrite H, Hv.
  destruct errors; [congruence | reflexivity].
Qed.

Lemma execute_runs r nm params w tool :
  _tools r !! nm = Some tool → validate_params tool params = inr [] →
  execute r nm params w
  = match tool_execute tool params w with
    | (inr txt, w') => (inr txt, w')
    | (inl e, w') => (inr (execution_error nm e), w')
    end.
Proof.
  intros H Hv. unfold execute, try_except. rewrite H, Hv.
  destruct (tool_execute tool params w) as [[e|txt] w']; reflexivity.
Qed.

(** The validator is called before the [try]: what it raises leaves
    [execute], and the tool has not run. *)
Lemma execute_validator_raises r nm params w tool e :
  _tools r !! nm = Some tool → validate_params tool params = inl e →
  execute r nm params w = (inl e, w).
Proof. intros H Hv. unfold execute. now rewrite H, Hv. Qed.

(** [execute] returns a string, or raises what the validator raised. *)
Lemma execute_cases r nm params w :
  (∃ out w', execute r nm params w = (inr out, w')) ∨
  (∃ tool e, _tools r !! nm = Some tool ∧ validate_params tool params = inl e ∧
             execute r nm params w = (inl e, w)).
Proof.
  destruct (_tools r !! nm) as [tool|] eqn:Hget.
  - destruct (validate_params tool params) as [e|[|v vs]] eqn:Hv.
    + right. exists tool, e. split; [reflexivity|]. split; [exact Hv|].
      now apply execute_validator_raises with (tool := tool).
    + left. rewrite (execute_runs _ _ _ _ _ Hget Hv).
      destruct (tool_execute tool params w) as [[e|txt] w1]; eauto.
    + left. rewrite (execute_invalid _ _ _ _ tool (v :: vs) Hget Hv); [eauto | discriminate].
  - left. rewrite (execute_unregistered _ _ _ _ Hget). eauto.
Qed.

(** When the validator returns, [execute] returns one of its four strings. *)
Lemma execute_returns r nm params w :
  (∀ tool, _tools r !! nm = Some tool → ∃ errors, validate_params tool params = inr errors) →
  ∃ (out : string) (w' : W),
    execute r nm params w = (inr out, w') ∧
    match _tools r !! nm with
    | None => out = "Error: Tool '" +:+ nm +:+ "' not found" ∧ w' = w
    | Some tool =>
        match validate_params tool params with
        | inl _ => False
        | inr ((_ :: _) as errors) =>
            out = "Error: Invalid parameters for tool '" +:+ nm +:+ "': "
                  +:+ join "; " errors ∧ w' = w
        | inr [] =>
            match tool_execute tool params w with
            | (inr txt, w1) => out = txt ∧ w' = w1
            | (inl e, w1) =>
                out = "Error executing " +:+ nm +:+ ": " +:+ str e ∧ w' = w1
            end
        end
    end.
Proof.
  intros Hval. destruct (_tools r !! nm) as [tool|] eqn:Hget.
  - destruct (Hval tool eq_refl) as [errors Hv]. rewrite Hv.
    destruct errors as [|v vs].
    + rewrite (execute_runs _ _ _ _ _ Hget Hv).
      destruct (tool_execute tool params w) as [[e|txt] w1]; eauto.
    + rewrite (execute_invalid _ _ _ _ _ _ Hget Hv); [eauto | discriminate].
  - rewrite (execute_unregistered _ _ _ _ Hget). eauto.
Qed.

End RegistryTheory.

(** C2. [ToolRegistry.execute] does raise: the validator of the tool is
    called before the [try] block, so an exception it raises leaves
    [execute], with the tool not run and the world untouched. For the tool
    [strict], whose validator refuses its own schema, the call raises the
    [ValueError]. Whenever the validator returns, the call returns one of
    the four strings of the claim. *)
Theorem validator_exception_escapes :
  execute (register Registry.empty DemoAgent.strict) "strict" [] (DemoAgent.script [] [], [])
  = (inl (Exn KValueError "Schema must be object type, got 'array'"),
     (DemoAgent.script [] [], [])) ∧
  (∀ W (r : ToolRegistry W) nm params w tool e,
      get r nm = Some tool → validate_params tool params = inl e →
      execute r nm params w = (inl e, w)) ∧
  (∀ W (r : ToolRegistry W) nm params w,
      (∀ tool, get r nm = Some tool → ∃ errors, validate_params tool params = inr errors) →
      ∃ out w', execute r nm params w = (inr out, w')).
Proof.
  split; [reflexivity|]. split.
  - intros W r nm params w tool e Hget Hv.
    now apply execute_validator_raises with (tool := tool).
  - intros W r nm params w Hval.
    destruct (execute_returns r nm params w Hval) as (out & w' & Hrun & _). eauto.
Qed.

End RegistryTheory.

(** ** The fetch pipeline *)

Module WebTheory.
Import Web.
Local Open Scope list_scope.
Section WebTheory.
Context {W : Type} (net : Net W).
Implicit Types (w : W) (st : St W) (u : string) (tr : list event).

Ltac run := unfold validate, get, record, on_world, modify, of_result,
                   bind, ret, raise, try_except in *; simpl in *.

(** *** The recursion of the fetch *)

(** The source's equation: [_fetch_with_redirect_validation] is its own
    body, at every depth. *)
Lemma fetch_unfold u c st :
  _fetch_with_redirect_validation net u c st
  = fetch_body net (_fetch_with_redirect_validation net) u c st.
Proof.
  unfold _fetch_with_redirect_validation.
  destruct (Z.gtb_spec c MAX_REDIRECTS) as [Hgt|Hle].
  - destruct (Z.to_nat (MAX_REDIRECTS + 2 - c)) as [|d]; simpl;
      unfold fetch_body; destruct (Z.gtb_spec c MAX_REDIRECTS); try lia; reflexivity.
  - replace (Z.to_nat (MAX_REDIRECTS + 2 - c))
      with (S (Z.to_nat (MAX_REDIRECTS + 2 - (c + 1)))) by lia.
    reflexivity.
Qed.

(** *** Validation *)

Lemma resolve_total h w :
  (∃ ips w', _resolve_hostname net h w = (inr ips, w')) ∨
  (∃ e w', _resolve_hostname net h w = (inl e, w') ∧ kind e ≠ KOSError).
Proof.
  unfold _resolve_hostname. run.
  destruct (getaddrinfo net h w) as [[e|res] w']; [|eauto].
  destruct (decide (kind e = KOSError)); eauto.
Qed.

Lemma validate_url_total u w :
  ∃ ok msg w', _validate_url net u w = (inr (ok, msg), w').
Proof.
  unfold _validate_url. run.
  destruct (urlparse net u) as [e|p]; [eauto|].
  destruct (negb (is_http (scheme p))); [eauto|].
  destruct (String.eqb (netloc p) ""); [eauto|].
  destruct (hostname p) as [h|]; [|eauto].
  destruct (String.eqb h ""); [eauto|].
  destruct (bool_decide _); [eauto|].
  destruct (_resolve_hostname net (lower net h) w) as [[e|ips] w']; [eauto|].
  destruct ips; [eauto|]. destruct (any_private net _); eauto.
Qed.


Lemma any_private_none ips :
  (∀ ip, ip ∈ ips → _is_private_ip net ip = false) → any_private net ips = false.
Proof.
  induction ips as [|x l IH]; intros H; simpl; [reflexivity|].
  rewrite (H x) by constructor. apply IH. intros ip Hin. apply H. now constructor.
Qed.


(** *** Requests and validations in the trace *)





Lemma gets_app tr1 tr2 : gets (tr1 ++ tr2) = (gets tr1 + gets tr2)%nat.
Proof. unfold gets. now rewrite List.filter_app, length_app. Qed.

Local Arguments gets : simpl never.

Lemma fetch_rec_gets d : ∀ u c st,
  (gets (trace (fetch_rec net d u c st).2)
   ≤ gets (trace st) + Z.to_nat (MAX_REDIRECTS + 1 - c))%nat.
Proof.
  induction d as [|d IH]; intros u c st; simpl; [lia|].
  unfold fetch_body.
  destruct (Z.gtb_spec c MAX_REDIRECTS) as [Hgt|Hle]; [simpl; lia|]. run.
  assert (Hg : gets (trace st ++ [EvGet u]) = S (gets (trace st)))
    by (rewrite gets_app; reflexivity || (unfold gets; simpl; lia)).
  assert (Hc : (1 ≤ Z.to_nat (MAX_REDIRECTS + 1 - c))%nat) by lia.
  destruct (client_get net u (world st)) as [[e|r] w1]; simpl; [lia|].
  destruct (is_redirect r); simpl; [|lia].
  destruct (location r) as [target|]; simpl; [|lia].
  destruct (String.eqb target ""); simpl; [lia|].
  destruct (validate_url_total target w1) as (ok & msg & w2 & Hval).
  rewrite Hval. simpl.
  assert (Hg2 : gets ((trace st ++ [EvGet u]) ++ [EvValidate target ok])
                = S (gets (trace st)))
    by (rewrite gets_app, Hg; unfold gets; simpl; lia).
  destruct ok; simpl; [|lia].
  etransitivity; [apply IH|]. simpl. rewrite Hg2. lia.
Qed.

(** *** One fetch *)


(** What is left of [execute] once the initial validation has passed keeps
    the state the fetch left. *)
Lemma execute_after_validation smc u mode maxChars w :
  ∃ ok msg w0,
    _validate_url net u w = (inr (ok, msg), w0) ∧
    let st0 := {| world := w0; trace := [EvValidate u ok] |} in
    if ok then
      ∃ out, execute net smc u mode maxChars {| world := w; trace := [] |}
             = (inr out, (_fetch_with_redirect_validation net u 0 st0).2) ∧
             match _fetch_with_redirect_validation net u 0 st0 with
             | (inl e, _) => out = json_dumps net (error_payload (str e) u)
             | (inr _, _) => True
             end
    else execute net smc u mode maxChars {| world := w; trace := [] |}
         = (inr (json_dumps net (error_payload ("URL validation failed: " +:+ msg) u)), st0).
Proof.
  destruct (validate_url_total u w) as (ok & msg & w0 & Hval).
  exists ok, msg, w0. split; [exact Hval|].
  unfold execute. run. rewrite Hval. simpl.
  destruct ok; simpl; [|reflexivity].
  destruct (_fetch_with_redirect_validation net u 0 _) as [[e|r] st1]; [eauto|].
  destruct (raise_for_status net r); [eauto|].
  unfold extract. run.
  destruct (str_in "application/json" _).
  { destruct (json r); eauto. }
  destruct (_ || _ || _); [|eauto].
  destruct (readability net (text r)); eauto.
Qed.

Lemma chain_fetch n u w last w' :
  redirect_chain net n u w last w' →
  ∀ c tr, c + Z.of_nat n ≤ MAX_REDIRECTS + 1 →
    ∃ hops, _fetch_with_redirect_validation net u c {| world := w; trace := tr |}
            = _fetch_with_redirect_validation net last (c + Z.of_nat n)
                {| world := w'; trace := tr ++ hops |}
            ∧ gets hops = n ∧ (n = 0%nat → hops = []).
Proof.
  induction 1 as [u w|n u w r w1 target w2 last w' Hget Hred Hloc Hne Hval _ IH];
    intros c tr Hc.
  - exists []. rewrite app_nil_r. replace (c + Z.of_nat 0) with c by lia.
    split; [reflexivity|]. split; reflexivity.
  - rewrite fetch_unfold. unfold fetch_body.
    destruct (Z.gtb_spec c MAX_REDIRECTS) as [Hgt|Hle]; [lia|]. run.
    rewrite Hget. simpl. rewrite Hred, Hloc.
    apply String.eqb_neq in Hne. rewrite Hne. simpl. rewrite Hval. simpl.
    destruct (IH (c + 1) ((tr ++ [EvGet u]) ++ [EvValidate target true])) as (hops & Heq & Hg & _);
      [lia|].
    exists ([EvGet u; EvValidate target true] ++ hops). rewrite Heq.
    replace (c + Z.of_nat (S n)) with (c + 1 + Z.of_nat n) by lia.
    split; [now rewrite <- !app_assoc|]. split; [|discriminate].
    rewrite gets_app, Hg. reflexivity.
Qed.


(** C5. A fetch makes at most [MAX_REDIRECTS + 1] requests, so it follows at
    most [MAX_REDIRECTS] redirect hops; and on a chain of
    [MAX_REDIRECTS + 1] redirects it returns the too-many-redirects error
    payload, not content. *)
Theorem redirects_bounded smc u mode maxChars w :
  let run := execute net smc u mode maxChars {| world := w; trace := [] |} in
  (gets (trace run.2) - 1 ≤ Z.to_nat MAX_REDIRECTS)%nat ∧
  (∀ m w0 last w',
      _validate_url net u w = (inr (true, m), w0) →
      redirect_chain net (Z.to_nat (MAX_REDIRECTS + 1)) u w0 last w' →
      ∃ st',
        run = (inr (json_dumps net (error_payload "Too many redirects (max 5)" u)), st') ∧
        world st' = w' ∧
        gets (trace st') = Z.to_nat (MAX_REDIRECTS + 1)).
Proof.
  intros run. subst run.
  destruct (execute_after_validation smc u mode maxChars w)
    as (ok & msg0 & w0 & Hval & Hrun).
  split.
  - destruct ok.
    + destruct Hrun as (out & -> & _). simpl.
      pose proof (fetch_rec_gets (Z.to_nat (MAX_REDIRECTS + 2 - 0)) u 0
                    {| world := w0; trace := [EvValidate u true] |}) as Hb.
      unfold _fetch_with_redirect_validation. simpl in Hb |- *.
      change (gets [EvValidate u true]) with 0%nat in Hb.
      unfold MAX_REDIRECTS in *. simpl in Hb |- *. lia.
    + rewrite Hrun. unfold gets. simpl. lia.
  - intros m w0' last w' Hval' Hchain.
    rewrite Hval in Hval'. injection Hval' as -> -> ->.
    destruct Hrun as (out & Hexec & Hout). rewrite Hexec.
    destruct (chain_fetch _ _ _ _ _ Hchain 0 [EvValidate u true]) as (hops & Heq & Hg & _);
      [unfold MAX_REDIRECTS; lia|].
    rewrite Heq in Hout |- *.
    rewrite fetch_unfold in Hout |- *. unfold fetch_body in *.
    change (0 + Z.of_nat (Z.to_nat (MAX_REDIRECTS + 1)) >? MAX_REDIRECTS) with true in *.
    unfold raise in *. simpl in *. subst out.
    eexists. split; [reflexivity|]. split; [reflexivity|].
    cbn [trace]. change (EvValidate u true :: hops) with ([EvValidate u true] ++ hops).
    rewrite gets_app, Hg. reflexivity.
Qed.

(** C10. A string that [ip_address] refuses is not private for
    [_is_private_ip], which returns [False]; and [_validate_url] accepts a
    URL that passes the earlier checks when each resolved address is either
    refused by [ip_address] or parsed to an address outside every range:
    only parsed addresses are rejected as private. *)
Theorem unparseable_is_not_private :
  (∀ ip_str, ip_address net ip_str = None → _is_private_ip net ip_str = false) ∧
  (∀ u w p h ips w',
      urlparse net u = inr p →
      is_http (scheme p) = true →
      netloc p ≠ "" →
      hostname p = Some h →
      h ≠ "" →
      lower net h ∉ BLOCKED_HOSTNAMES →
      _resolve_hostname net (lower net h) w = (inr ips, w') →
      ips ≠ [] →
      (∀ ip, ip ∈ ips →
             ip_address net ip = None ∨
             ∃ a, ip_address net ip = Some a ∧ in_any PRIVATE_IP_RANGES a = false) →
      _validate_url net u w = (inr (true, ""), w')).
Proof.
  split.
  - intros ip_str H. unfold _is_private_ip. now rewrite H.
  - intros u w p h ips w' Hp Hs Hn Hh Hne Hb Hr Hips Hall.
    unfold _validate_url. run. rewrite Hp, Hs. simpl.
    apply String.eqb_neq in Hn, Hne. rewrite Hn, Hh, Hne.
    rewrite bool_decide_eq_false_2 by exact Hb. rewrite Hr.
    destruct ips as [|x l]; [congruence|].
    rewrite any_private_none; [reflexivity|].
    intros ip Hin. unfold _is_private_ip.
    destruct (Hall ip Hin) as [->|(a & -> & Ha)]; [reflexivity | exact Ha].
Qed.

End WebTheory.

(** *** The theorems at the small network *)

Import DemoNet.



Lemma loop_chain (n : nat) : ∀ w : nat,
  redirect_chain demo_net n "http://loop.example/" w "http://loop.example/" (2 * n + w)%nat.
Proof.
  induction n as [|n IH]; intros w.
  - apply chain_nil.
  - replace (2 * S n + w)%nat with (2 * n + S (S w))%nat by lia.
    eapply chain_hop with (r := page 301 (Some "http://loop.example/") "http://loop.example/");
      [reflexivity | reflexivity | reflexivity | discriminate | reflexivity | apply IH].
Qed.

Lemma redirects_bounded_witness :
  let run := execute demo_net 50000 "http://loop.example/" "markdown" None fresh in
  (gets (trace run.2) - 1 ≤ Z.to_nat MAX_REDIRECTS)%nat ∧
  ∃ st',
    run = (inr (demo_dumps (error_payload "Too many redirects (max 5)" "http://loop.example/")), st') ∧
    world st' = 13%nat ∧ gets (trace st') = 6%nat.
Proof.
  pose proof (redirects_bounded demo_net 50000 "http://loop.example/"
                "markdown" None 0%nat) as [Hb Hc].
  split; [exact Hb|].
  apply (Hc "" 1%nat "http://loop.example/" 13%nat); [reflexivity|].
  apply (loop_chain 6 1).
Defined.

Lemma unparseable_is_not_private_witness :
  _is_private_ip demo_net "not-an-address" = false ∧
  _validate_url demo_net "http://odd.example/x" 0%nat = (inr (true, ""), 1%nat).
Proof.
  pose proof (unparseable_is_not_private demo_net) as [Hip Hurl].
  split; [apply Hip; reflexivity|].
  apply (Hurl "http://odd.example/x" 0%nat (parsed "http" "odd.example/x")
              "odd.example" ["not-an-address"] 1%nat);
    try reflexivity; try discriminate.
  - unfold BLOCKED_HOSTNAMES. simpl. rewrite !elem_of_cons, elem_of_nil.
    intros [H|[H|[H|H]]]; try discriminate; exact H.
  - intros ip Hin. left. apply list_elem_of_singleton in Hin. subst ip. reflexivity.
Defined.

(** The link-local address with a zone is parsed, and refused as private. *)
Example scoped_address_is_private :
  _is_private_ip demo_net "fe80::1%eth0" = true ∧
  _validate_url demo_net "http://scoped.example/x" 0%nat
  = (inr (false, "Access to private/internal addresses is blocked"), 1%nat).
Proof. split; reflexivity. Qed.

End WebTheory.

(** ** The agent loop *)

Module AgentTheory.
Import Registry Agent.
Local Open Scope list_scope.
Section AgentTheory.
Context {W : Type} (self : AgentLoop W).
Abbreviation State := (State W).
Implicit Types (st : State) (w : W).

Ltac run := unfold emit, read, write, alloc, create_task, publish_outbound,
                   save, invalidate, of_result, on_world, modify, get_state,
                   bind, ret, raise, try_except in *; simpl in *.

(** *** Relations every step of a task preserves *)

Section Frame.
Context (R : State → State → Prop).
Hypothesis R_refl : ∀ st, R st st.
Hypothesis R_trans : ∀ st1 st2 st3, R st1 st2 → R st2 st3 → R st1 st3.

Lemma preserves_ret {A} (a : A) : preserves R (ret a).
Proof. intros st. apply R_refl. Qed.

Lemma preserves_raise {A} e : preserves R (raise (A:=A) e).
Proof. intros st. apply R_refl. Qed.

Lemma preserves_bind {A B} (c : M State A) (k : A → M State B) :
  preserves R c → (∀ a, preserves R (k a)) → preserves R (bind c k).
Proof.
  intros Hc Hk st. unfold bind. specialize (Hc st).
  destruct (c st) as [[e|a] st1]; simpl in *; [exact Hc|].
  eapply R_trans; [exact Hc | apply Hk].
Qed.

Lemma preserves_try {A} (c : M State A) (h : exn → M State A) :
  preserves R c → (∀ e, preserves R (h e)) → preserves R (try_except c h).
Proof.
  intros Hc Hh st. unfold try_except. specialize (Hc st).
  destruct (c st) as [[e|a] st1]; simpl in *; [|exact Hc].
  eapply R_trans; [exact Hc | apply Hh].
Qed.

Lemma preserves_read ref : preserves R (read (W:=W) ref).
Proof. intros st. apply R_refl. Qed.

Lemma preserves_get_state : preserves R (get_state (S:=State)).
Proof. intros st. apply R_refl. Qed.

Lemma preserves_of_result {A} (r : exn + A) : preserves R (of_result (W:=W) r).
Proof. intros st. destruct r; apply R_refl. Qed.

Lemma preserves_modify (f : State → State) :
  (∀ st, R st (f st)) → preserves R (modify f).
Proof. intros H st. apply H. Qed.

Hypothesis R_world : ∀ st w, R st (set_world w st).
Hypothesis R_heap : ∀ st h n, R st (set_heap h n st).
Hypothesis R_log : ∀ st e, from_job e → R st (set_log (log st ++ [e]) st).

Lemma preserves_on_world {A} (c : M W A) : preserves R (on_world c).
Proof. intros st. unfold on_world. destruct (c (world st)). apply R_world. Qed.

Lemma preserves_emit e : from_job e → preserves R (emit e).
Proof. intros He st. apply R_log, He. Qed.

Lemma preserves_write ref s : preserves R (write ref s).
Proof. intros st. apply R_heap. Qed.

Lemma preserves_alloc s : preserves R (alloc s).
Proof. intros st. apply R_heap. Qed.

Lemma preserves_consolidate_begin ref archive_all :
  preserves R (consolidate_begin self ref archive_all).
Proof.
  unfold consolidate_begin. apply preserves_bind; [apply preserves_read|]. intros s.
  destruct (select_old_messages self s archive_all) as [[old k]|];
    [|apply preserves_ret].
  apply preserves_bind; [apply preserves_on_world|]. intros m. apply preserves_ret.
Qed.

Lemma preserves_consolidate_end p response :
  preserves R (consolidate_end self p response).
Proof.
  unfold consolidate_end.
  destruct (String.eqb _ ""); [apply preserves_emit; exact I|].
  apply preserves_bind; [apply preserves_of_result|]. intros result.
  destruct result; try (apply preserves_emit; exact I).
  apply preserves_bind.
  { destruct (dict_get d "history_entry") as [entry|]; [|apply preserves_ret].
    destruct (truthy entry); [apply preserves_on_world | apply preserves_ret]. }
  intros _. apply preserves_bind.
  { destruct (dict_get d "memory_update") as [update|]; [|apply preserves_ret].
    destruct (_ && _); [apply preserves_on_world | apply preserves_ret]. }
  intros _. apply preserves_bind; [apply preserves_read|]. intros s. apply preserves_write.
Qed.

Lemma preserves_consolidate_resume p : preserves R (consolidate_resume self p).
Proof.
  unfold consolidate_resume. apply preserves_try; [|intros e; apply preserves_emit; exact I].
  apply preserves_bind; [|intros r; apply preserves_consolidate_end].
  intros st. unfold consolidation_chat.
  destruct (provider_chat self (consolidation_request p) [] (world st)) as [answer w].
  simpl. eapply R_trans; [apply (R_world st w)|].
  apply (R_log (set_world w st)). exact I.
Qed.

Lemma preserves_advance t : preserves R (advance self t).
Proof.
  destruct t as [ref|ref ms|p]; simpl.
  - apply preserves_consolidate_begin.
  - apply preserves_bind; [apply preserves_read|]. intros s.
    apply preserves_bind; [apply preserves_alloc|]. intros r.
    apply preserves_consolidate_begin.
  - apply preserves_bind; [apply preserves_consolidate_resume|]. intros _.
    apply preserves_ret.
Qed.

Hypothesis R_tasks : ∀ st t n, R st (set_tasks t n st).
Hypothesis R_slice : ∀ st id ref l,
    R st (set_log (log st ++ [Consolidating id ref l]) st).
Hypothesis R_schedule : ∀ st s, R st (set_schedule s st).

Lemma step_task_preserves id st : R st (step_task self id st).
Proof.
  unfold step_task. destruct (tasks st !! id) as [t|]; [|apply R_refl].
  pose proof (preserves_advance t st) as Ha.
  destruct (advance self t st) as [[e|[p|]] st1]; simpl in Ha;
    (eapply R_trans; [exact Ha|]); try apply R_tasks.
  eapply R_trans; [apply R_slice | apply R_tasks].
Qed.

Lemma slot_preserves slot : ∀ st, R st (fold_left (λ s id, step_task self id s) slot st).
Proof.
  induction slot as [|id slot IH]; intros st; simpl; [apply R_refl|].
  eapply R_trans; [apply step_task_preserves | apply IH].
Qed.

Lemma preserves_yield_point : preserves R (yield_point self).
Proof.
  intros st. unfold yield_point. destruct (schedule st) as [|slot rest]; [apply R_refl|].
  simpl. eapply R_trans; [apply R_schedule | apply slot_preserves].
Qed.

Lemma preserves_await {A} (c : M State A) : preserves R c → preserves R (await self c).
Proof. intros H. apply preserves_bind; [apply preserves_yield_point | intros _; exact H]. Qed.
End Frame.

(** *** The iteration loop *)

Lemma loop_chats_app l1 l2 : loop_chats (l1 ++ l2) = loop_chats l1 ++ loop_chats l2.
Proof.
  induction l1 as [|e l1 IH]; simpl; [reflexivity|].
  destruct e; simpl; rewrite IH; reflexivity.
Qed.

Lemma loop_chats_from_job l e : from_job e → loop_chats (l ++ [e]) = loop_chats l.
Proof.
  intros He. rewrite loop_chats_app. destruct e; simpl in *; try contradiction;
    apply app_nil_r.
Qed.

Lemma loop_chats_slice l id ref old :
  loop_chats (l ++ [Consolidating id ref old]) = loop_chats l.
Proof. rewrite loop_chats_app. apply app_nil_r. Qed.

(** The source's equation for the [while] loop. *)
Lemma loop_unfold msgs iteration used st :
  while_loop self msgs iteration used st
  = loop_body self (while_loop self) msgs iteration used st.
Proof.
  unfold while_loop. simpl. unfold loop_body.
  destruct (Z.ltb_spec iteration (max_iterations self)) as [Hlt|Hge]; [|reflexivity].
  replace (Z.to_nat (max_iterations self - iteration))
    with (S (Z.to_nat (max_iterations self - (iteration + 1)))) by lia.
  reflexivity.
Qed.


Lemma quiet_bind {A B} (c : M State A) (k : A → M State B) :
  quiet c → (∀ a, quiet (k a)) → quiet (bind c k).
Proof.
  intros Hc Hk st. destruct (Hc st) as (a & st1 & Hr & H1).
  destruct (Hk a st1) as (b & st2 & Hr2 & H2).
  exists b, st2. unfold bind. rewrite Hr, Hr2. split; [reflexivity | congruence].
Qed.

Lemma quiet_modify (f : State → State) :
  (∀ st, loop_chats (log (f st)) = loop_chats (log st)) → quiet (modify f).
Proof. intros H st. exists tt, (f st). split; [reflexivity | apply H]. Qed.

Lemma yield_point_returns st : ∃ st', yield_point self st = (inr tt, st').
Proof. unfold yield_point. destruct (schedule st); eauto. Qed.

Lemma quiet_yield_point : quiet (yield_point self).
Proof.
  intros st. destruct (yield_point_returns st) as (st' & Hr). exists tt, st'.
  split; [exact Hr|].
  pose proof (preserves_yield_point (λ s s', loop_chats (log s') = loop_chats (log s))) as H.
  specialize (H ltac:(reflexivity) ltac:(intros; congruence)
                ltac:(reflexivity) ltac:(reflexivity)
                ltac:(intros s e He; apply loop_chats_from_job, He)
                ltac:(reflexivity)
                ltac:(intros; apply loop_chats_slice)
                ltac:(reflexivity) st).
  now rewrite Hr in H.
Qed.

Lemma quiet_await {A} (c : M State A) : quiet c → quiet (await self c).
Proof. intros H. apply quiet_bind; [apply quiet_yield_point | intros _; exact H]. Qed.

(** A tool call leaves the record of provider calls as it is; it returns,
    or it raises what the validator of the tool raised. *)
Lemma tool_call_spec nm params st :
  let run := await self (on_tools (execute (tools self) nm params)) st in
  loop_chats (log run.2) = loop_chats (log st) ∧
  match run.1 with
  | inr _ => True
  | inl e => ∃ tool, get (tools self) nm = Some tool ∧ validate_params tool params = inl e
  end.
Proof.
  cbv zeta. unfold await, bind.
  destruct (quiet_yield_point st) as ([] & st1 & -> & H1).
  unfold on_tools.
  destruct (RegistryTheory.execute_cases (tools self) nm params (world st1, []))
    as [(out & [w' sent] & ->)|(tool & e & Hget & Hv & ->)]; simpl.
  - split; [exact H1 | exact I].
  - split; [exact H1|]. exists tool. split; assumption.
Qed.

Lemma run_tool_calls_spec calls : ∀ msgs used st,
  let run := run_tool_calls self calls msgs used st in
  loop_chats (log run.2) = loop_chats (log st) ∧
  match run.1 with
  | inr _ => True
  | inl e => validator_raised self e
  end.
Proof.
  induction calls as [|tc calls IH]; intros msgs used st; simpl; [split; [reflexivity | exact I]|].
  unfold bind.
  pose proof (tool_call_spec (tc_name tc) (tc_arguments tc) st) as [H1 Hr]. cbv zeta in H1, Hr.
  destruct (await self (on_tools (execute (tools self) (tc_name tc) (tc_arguments tc))) st)
    as [[e|result] st1]; simpl in *.
  - split; [exact H1|]. destruct Hr as (tool & Hget & Hv).
    exists (tc_name tc), tool, (tc_arguments tc). split; assumption.
  - destruct (IH (add_tool_result msgs (tc_id tc) (tc_name tc) result)
                 (used ++ [tc_name tc]) st1) as [H2 Hr2].
    split; [congruence | exact Hr2].
Qed.



(** What one call of the loop's provider does to the record of calls. *)
Lemma loop_chat_spec msgs st :
  ∃ answer st', loop_chat self msgs st = (answer, st') ∧
                loop_chats (log st') = loop_chats (log st) ++ [answer].
Proof.
  unfold loop_chat, await. unfold bind at 1.
  destruct (quiet_yield_point st) as ([] & st1 & -> & H1).
  destruct (provider_chat self msgs (get_definitions self) (world st1)) as [answer w] eqn:Hc.
  exists answer. eexists. split; [reflexivity|].
  simpl. rewrite loop_chats_app, H1. reflexivity.
Qed.



Lemma quiet_session_add_message ref r c used :
  quiet (session_add_message self ref r c used).
Proof. apply quiet_modify. reflexivity. Qed.




(** *** The run loop *)

Lemma yield_point_outbound st : outbound (yield_point self st).2 = outbound st.
Proof.
  apply (preserves_yield_point (λ s s', outbound s' = outbound s));
    try reflexivity; intros; congruence.
Qed.

Lemma yield_point_log st e : e ∈ log st → e ∈ log (yield_point self st).2.
Proof.
  apply (preserves_yield_point (λ s s', e ∈ log s → e ∈ log s')); try (intros; assumption).
  - intros st1 st2 st3 H12 H23 H. auto.
  - intros s x _ H. simpl. apply elem_of_app. now left.
  - intros s id ref l H. simpl. apply elem_of_app. now left.
Qed.

(** The handler of the inner [try]: it logs and publishes the apology. *)
Lemma apology_published msg e st :
  ∃ st',
    on_failure self msg e st = (inr tt, st') ∧
    outbound st' = outbound st ++ [apology msg] ∧
    Logged ERROR ("Error processing message: " +:+ str e) ∈ log st'.
Proof.
  unfold on_failure, await, bind, emit, publish_outbound, modify. simpl.
  set (st1 := set_log _ st).
  destruct (yield_point_returns st1) as (st2 & Hy).
  pose proof (yield_point_outbound st1) as Ho.
  pose proof (yield_point_log st1 (Logged ERROR ("Error processing message: " +:+ str e))) as Hl.
  rewrite Hy in Ho, Hl |- *. simpl in *.
  eexists. split; [reflexivity|]. simpl. split; [now rewrite Ho|].
  apply Hl. apply elem_of_app. right. constructor.
Qed.

Lemma process_and_publish_cases msg st :
  match _process_message self msg None st with
  | (inl e, st2) => process_and_publish self msg st = (inl e, st2)
  | (inr _, st2) => ∃ st3, process_and_publish self msg st = (inr tt, st3)
  end.
Proof.
  unfold process_and_publish, bind.
  destruct (_process_message self msg None st) as [[e|[out|]] st2]; [reflexivity| |eauto].
  unfold await, bind. destruct (yield_point_returns st2) as (st3 & ->).
  unfold publish_outbound, modify. eauto.
Qed.

(** What an iteration does, by what the bus and the processing do. *)
Lemma run_iteration_cases st :
  let st0 := (yield_point self st).2 in
  match consume_inbound self (world st0) with
  | (inl e, w1) =>
      run_iteration self st
      = (if decide (kind e = KTimeoutError) then inr tt else inl e, set_world w1 st0)
  | (inr msg, w1) =>
      match _process_message self msg None (set_world w1 st0) with
      | (inl e, st2) => run_iteration self st = on_failure self msg e st2
      | (inr _, st2) => ∃ st3, run_iteration self st = (inr tt, st3)
      end
  end.
Proof.
  assert (Heq : run_iteration self st
    = match consume_inbound self (world (yield_point self st).2) with
      | (inl e, w1) =>
          (if decide (kind e = KTimeoutError) then inr tt else inl e,
           set_world w1 (yield_point self st).2)
      | (inr msg, w1) =>
          match process_and_publish self msg (set_world w1 (yield_point self st).2) with
          | (inl e, st2) =>
              match on_failure self msg e st2 with
              | (inl e', st3) =>
                  (if decide (kind e' = KTimeoutError) then inr tt else inl e', st3)
              | (inr a, st3) => (inr a, st3)
              end
          | (inr a, st2) => (inr a, st2)
          end
      end).
  { unfold run_iteration, try_except, await, bind, on_world.
    destruct (yield_point_returns st) as (st0 & Hy). rewrite Hy. simpl.
    destruct (consume_inbound self (world st0)) as [[e|msg] w1].
    - destruct (decide (kind e = KTimeoutError)); reflexivity.
    - destruct (process_and_publish self msg (set_world w1 st0)) as [[e|a] st2];
        [|reflexivity].
      destruct (on_failure self msg e st2) as [[e'|a] st3]; [|reflexivity].
      destruct (decide (kind e' = KTimeoutError)); reflexivity. }
  simpl. rewrite Heq. clear Heq.
  destruct (consume_inbound self (world (yield_point self st).2)) as [[e|msg] w1];
    [reflexivity|].
  pose proof (process_and_publish_cases msg (set_world w1 (yield_point self st).2)) as Hp.
  destruct (_process_message self msg None _) as [[e|r] st2].
  - rewrite Hp. destruct (apology_published msg e st2) as (st3 & Hf & _).
    rewrite Hf. reflexivity.
  - destruct Hp as (st3 & ->). destruct r; eauto.
Qed.

(** An iteration ends by an exception only when the bus raised it. *)
Lemma run_iteration_raises st e st' :
  run_iteration self st = (inl e, st') →
  kind e ≠ KTimeoutError ∧
  ∃ w w', consume_inbound self w = (inl e, w').
Proof.
  pose proof (run_iteration_cases st) as Hc. simpl in Hc.
  destruct (consume_inbound self (world (yield_point self st).2)) as [[e0|msg] w1] eqn:Hbus.
  - rewrite Hc. destruct (decide (kind e0 = KTimeoutError)); [discriminate|].
    intros [= -> <-]. eauto.
  - destruct (_process_message self msg None _) as [[e1|r] st2].
    + rewrite Hc. destruct (apology_published msg e1 st2) as (st3 & -> & _). discriminate.
    + destruct Hc as (st3 & ->). discriminate.
Qed.

(** *** Memory consolidation *)

Lemma consolidate_end_heap p response st :
  let st' := (consolidate_end self p response st).2 in
  let s := deref st (p_session p) in
  heap st' = heap st ∨
  (∃ d, parsed_result self (inr response) = Some d) ∧
  heap st' = <[p_session p :=
                 set_last_consolidated s
                   (if p_archive_all p then 0 else len (messages s) - p_keep_count p)]>
             (heap st).
Proof.
  unfold consolidate_end, parsed_result. simpl.
  destruct (String.eqb _ ""); [left; reflexivity|].
  destruct (json_repair_loads self _) as [e|result]; [left; reflexivity|].
  destruct result; try (left; reflexivity).
  unfold deref. run.
  destruct (dict_get d "history_entry") as [entry|];
    [destruct (truthy entry);
     [destruct (append_history self entry (world st)) as [[e1|[]] wa]|]|];
    simpl; try (left; reflexivity);
    (destruct (dict_get d "memory_update") as [update|];
     [destruct (truthy update && differs update (p_current_memory p));
      [match goal with |- context [write_long_term self update ?w] =>
         destruct (write_long_term self update w) as [[e2|[]] wb] end|]|]);
    simpl; try (left; reflexivity); right; (split; [eauto | reflexivity]).
Qed.

Lemma consolidate_end_failed p response st :
  parsed_result self (inr response) = None →
  heap (consolidate_end self p response st).2 = heap st ∧
  world (consolidate_end self p response st).2 = world st.
Proof.
  unfold consolidate_end, parsed_result.
  destruct (String.eqb _ ""); [intros _; split; reflexivity|].
  destruct (json_repair_loads self _) as [e|result]; [intros _; split; reflexivity|].
  destruct result; try discriminate; intros _; split; reflexivity.
Qed.

Lemma consolidate_resume_heap p st :
  let st' := (consolidate_resume self p st).2 in
  let s := deref st (p_session p) in
  heap st' = heap st ∨
  heap st' = <[p_session p :=
                 set_last_consolidated s
                   (if p_archive_all p then 0 else len (messages s) - p_keep_count p)]>
             (heap st).
Proof.
  simpl. unfold consolidate_resume, try_except, bind, consolidation_chat.
  destruct (provider_chat self (consolidation_request p) [] (world st)) as [answer w1].
  destruct answer as [e|response]; cbv beta iota.
  { left. reflexivity. }
  pose proof (consolidate_end_heap p response
                (set_log (log st ++ [ConsolidationChat (inr response)]) (set_world w1 st)))
    as Hh.
  destruct (consolidate_end self p response _) as [[e|[]] st2];
    unfold emit, modify, deref in *; simpl in *;
    (destruct Hh as [Hh|[_ Hh]]; [left | right]; exact Hh).
Qed.

Lemma consolidate_begin_heap ref archive_all st :
  heap (consolidate_begin self ref archive_all st).2 = heap st.
Proof.
  apply (preserves_consolidate_begin (λ s s', heap s' = heap s)); try reflexivity.
  intros; congruence.
Qed.

(** What a reactive run selects lies strictly after the cursor and before
    the messages it keeps. *)
Lemma select_reactive s old keep :
  0 ≤ memory_window self →
  0 ≤ last_consolidated s →
  select_old_messages self s false = Some (old, keep) →
  keep = memory_window self / 2 ∧ 1 ≤ keep ∧
  last_consolidated s < len (messages s) - keep.
Proof.
  intros Hw Hlc. unfold select_old_messages.
  assert (Hk : 0 ≤ memory_window self / 2) by (apply Z.div_pos; lia).
  destruct (Z.leb_spec (len (messages s)) (memory_window self / 2)); [discriminate|].
  destruct (Z.leb_spec (len (messages s) - last_consolidated s) 0); [discriminate|].
  destruct (py_slice (messages s) (last_consolidated s) (- (memory_window self / 2)))
    as [|m l] eqn:Hs; [discriminate|].
  intros [= <- <-]. split; [reflexivity|].
  unfold py_slice, slice_bound, len in *.
  destruct (Z.ltb_spec (last_consolidated s) 0); [lia|].
  destruct (Z.ltb_spec (- (memory_window self / 2)) 0) as [Hneg|Hpos].
  - split; [lia|].
    destruct (Z.lt_ge_cases (last_consolidated s)
                (Z.of_nat (length (messages s)) - memory_window self / 2)); [assumption|].
    exfalso. replace (Z.to_nat _) with 0%nat in Hs by lia. discriminate.
  - exfalso. replace (Z.to_nat _) with 0%nat in Hs by lia. discriminate.
Qed.

(** With a window of two or more the slice of the code is the slice the
    specification names. *)
Lemma select_agrees_with_spec s :
  1 ≤ memory_window self / 2 →
  0 ≤ last_consolidated s →
  select_old_messages self s false
  = match spec_slice s (memory_window self / 2) with
    | [] => None
    | old => Some (old, memory_window self / 2)
    end.
Proof.
  intros Hk Hlc. unfold select_old_messages, spec_slice, py_slice, slice_bound, len.
  destruct (Z.leb_spec (Z.of_nat (length (messages s))) (memory_window self / 2)).
  { now replace (Z.to_nat _) with 0%nat by lia. }
  destruct (Z.leb_spec (Z.of_nat (length (messages s)) - last_consolidated s) 0).
  { now replace (Z.to_nat (_ - _)) with 0%nat by lia. }
  destruct (Z.ltb_spec (last_consolidated s) 0); [lia|].
  destruct (Z.ltb_spec (- (memory_window self / 2)) 0); [|lia].
  rewrite (Z.max_r 0 (last_consolidated s)) by lia.
  rewrite (Z.min_l (last_consolidated s)) by lia.
  rewrite (Z.max_r 0 (_ - _)) by lia.
  rewrite (Z.max_r 0 (_ + _)) by lia.
  replace (- (memory_window self / 2) + Z.of_nat (length (messages s)))
    with (Z.of_nat (length (messages s)) - memory_window self / 2) by lia.
  reflexivity.
Qed.

(** A run with nothing else in between keeps the cursor in range, and does
    not move it back. *)
Lemma consolidation_alone_keeps_range ref st :
  0 ≤ memory_window self →
  cursor_in_range (deref st ref) →
  let st' := (_consolidate_memory self ref false st).2 in
  cursor_in_range (deref st' ref) ∧
  last_consolidated (deref st ref) ≤ last_consolidated (deref st' ref).
Proof.
  intros Hw Hr. simpl. unfold _consolidate_memory, bind.
  pose proof (consolidate_begin_heap ref false st) as Hb.
  assert (Hsel : ∀ p st1, consolidate_begin self ref false st = (inr (Some p), st1) →
                 p_session p = ref ∧ p_archive_all p = false ∧
                 select_old_messages self (deref st ref) false
                 = Some (p_old_messages p, p_keep_count p)).
  { intros p st1. unfold consolidate_begin, bind, read, on_world, ret.
    destruct (select_old_messages self (deref st ref) false) as [[old keep]|];
      [|discriminate].
    destruct (read_long_term self (world st)) as [[e|m] w]; [discriminate|].
    intros [= <- <-]. auto. }
  destruct (consolidate_begin self ref false st) as [[e|[p|]] st1]; simpl in Hb;
    try (unfold deref; simpl; rewrite Hb; split; [exact Hr | lia]).
  destruct (Hsel p st1 eq_refl) as (Hp & Ha & Hs).
  destruct (select_reactive _ _ _ Hw (proj1 Hr) Hs) as (Hk & Hk1 & Hlt).
  pose proof (consolidate_resume_heap p st1) as Hres. simpl in Hres.
  assert (Hd : deref st1 ref = deref st ref) by (unfold deref; now rewrite Hb).
  rewrite Hp, Ha, Hd in Hres. unfold deref at 1 3.
  destruct Hres as [-> | ->].
  - fold (deref st1 ref). rewrite Hd. split; [exact Hr | lia].
  - rewrite lookup_insert_eq. unfold cursor_in_range, len in *. simpl. split; lia.
Qed.

Local Ltac reduce_world :=
  cbn beta iota; cbn [fst snd world set_world set_log set_heap heap log].

(** C7, as amended. A consolidation run that resumes with the provider's
    answer ends without raising. When the call raised, or the answer is
    empty, cannot be parsed or is not a dict, the sessions are as they were
    and the durable memory as the call left it, so the cursor is unchanged
    and the same slice is selected again. When the answer parsed to a dict,
    the history entry is appended, then the memory update written; when both
    return, the cursor of the job's session is set to
    [len(messages) - keep_count], or to zero for an archive-all run, and this
    is the only change of the sessions; when one of them raises, the error is
    logged, the sessions are as they were, and the durable memory is as the
    raising write left it, with what was appended before. *)
Theorem failed_consolidation_keeps_cursor p st answer w1 :
  provider_chat self (consolidation_request p) [] (world st) = (answer, w1) →
  let st' := (consolidate_resume self p st).2 in
  let s := deref st (p_session p) in
  (consolidate_resume self p st).1 = inr tt ∧
  (parsed_result self answer = None →
   heap st' = heap st ∧ world st' = w1 ∧
   last_consolidated (deref st' (p_session p)) = last_consolidated s ∧
   ∀ archive_all,
     select_old_messages self (deref st' (p_session p)) archive_all
     = select_old_messages self s archive_all) ∧
  (∀ d, parsed_result self answer = Some d →
     let history_step : M W unit :=
       match dict_get d "history_entry" with
       | Some entry => if truthy entry then append_history self entry else ret tt
       | None => ret tt
       end in
     let memory_step : M W unit :=
       match dict_get d "memory_update" with
       | Some update =>
           if truthy update && differs update (p_current_memory p)
           then write_long_term self update else ret tt
       | None => ret tt
       end in
     let failed e w :=
       world st' = w ∧ heap st' = heap st ∧
       Logged ERROR ("Memory consolidation failed: " +:+ str e) ∈ log st' in
     match history_step w1 with
     | (inl e, wa) => failed e wa
     | (inr _, wa) =>
         match memory_step wa with
         | (inl e, wb) => failed e wb
         | (inr _, wb) =>
             world st' = wb ∧
             heap st' = <[p_session p := deref st' (p_session p)]> (heap st) ∧
             last_consolidated (deref st' (p_session p))
             = (if p_archive_all p then 0 else len (messages s) - p_keep_count p) ∧
             messages (deref st' (p_session p)) = messages s ∧
             key (deref st' (p_session p)) = key s
         end
     end).
Proof.
  intros Hchat. cbv zeta.
  unfold consolidate_resume, try_except, bind, consolidation_chat. rewrite Hchat.
  destruct answer as [e|response]; cbv beta iota.
  { simpl. split; [reflexivity|]. split; [|discriminate].
    intros _. repeat split; reflexivity. }
  unfold consolidate_end, parsed_result.
  destruct (String.eqb _ "").
  { simpl. split; [reflexivity|]. split; [|discriminate].
    intros _. repeat split; reflexivity. }
  destruct (json_repair_loads self _) as [e|result].
  { simpl. split; [reflexivity|]. split; [|discriminate].
    intros _. repeat split; reflexivity. }
  destruct result;
    try (simpl; split; [reflexivity|]; split; [|discriminate];
         intros _; repeat split; reflexivity).
  unfold bind, of_result, ret, on_world, read, write, modify, get_state, emit.
  cbn [fst snd world set_world set_log].
  split; [|split; [discriminate|]].
  - destruct (dict_get d "history_entry") as [entry|]; [destruct (truthy entry)|];
      reduce_world;
      try match goal with |- context [append_history self ?x ?w] =>
            destruct (append_history self x w) as [[e1|[]] wa] end;
      reduce_world; try reflexivity;
      (destruct (dict_get d "memory_update") as [update|];
       [destruct (truthy update && differs update (p_current_memory p))|];
       reduce_world;
       try match goal with |- context [write_long_term self ?x ?w] =>
             destruct (write_long_term self x w) as [[e2|[]] wb] end);
      reflexivity.
  - intros d' [= <-].
    destruct (dict_get d "history_entry") as [entry|]; [destruct (truthy entry)|];
      reduce_world;
      try match goal with |- context [append_history self ?x ?w] =>
            destruct (append_history self x w) as [[e1|[]] wa] end;
      reduce_world;
      try (split; [reflexivity|]; split; [reflexivity|];
           apply elem_of_app; right; constructor);
      (destruct (dict_get d "memory_update") as [update|];
       [destruct (truthy update && differs update (p_current_memory p))|];
       reduce_world;
       try match goal with |- context [write_long_term self ?x ?w] =>
             destruct (write_long_term self x w) as [[e2|[]] wb] end);
      reduce_world;
      try (split; [reflexivity|]; split; [reflexivity|];
           apply elem_of_app; right; constructor);
      (split; [reflexivity|]; unfold deref; cbn [heap set_heap set_world set_log];
       rewrite lookup_insert_eq; cbn [default from_option set_last_consolidated
                                       last_consolidated messages key];
       repeat split; reflexivity).
Qed.

(** *** Relations every step of a turn preserves *)

Section Turn.
Context (R : State → State → Prop).
Hypothesis R_refl : ∀ st, R st st.
Hypothesis R_trans : ∀ st1 st2 st3, R st1 st2 → R st2 st3 → R st1 st3.
Hypothesis R_world : ∀ st w, R st (set_world w st).
Hypothesis R_heap : ∀ st h n, R st (set_heap h n st).
Hypothesis R_cache : ∀ st c, R st (set_cache c st).
Hypothesis R_disk : ∀ st d, R st (set_disk d st).
Hypothesis R_schedule : ∀ st s, R st (set_schedule s st).
Hypothesis R_chat : ∀ st a, R st (set_log (log st ++ [LoopChat a]) st).
Hypothesis R_spawn : ∀ st t,
    R st (set_tasks (<[next_task st := t]> (tasks st)) (S (next_task st)) st).
Hypothesis R_step : ∀ st id, R st (step_task self id st).
Hypothesis R_sent : ∀ st sent, R st (set_outbound (outbound st ++ sent) st).

Local Ltac seq := apply (preserves_bind R R_trans); [|intros ?].
Local Ltac stop := apply (preserves_ret R R_refl).

Lemma turn_slot slot : ∀ st, R st (fold_left (λ s id, step_task self id s) slot st).
Proof.
  induction slot as [|id slot IH]; intros st; simpl; [apply R_refl|].
  eapply R_trans; [apply R_step | apply IH].
Qed.

Lemma turn_yield_point : preserves R (yield_point self).
Proof.
  intros st. unfold yield_point. destruct (schedule st) as [|slot rest]; [apply R_refl|].
  simpl. eapply R_trans; [apply R_schedule | apply turn_slot].
Qed.

Lemma turn_await {A} (c : M State A) : preserves R c → preserves R (await self c).
Proof. intros H. unfold await. seq; [apply turn_yield_point | exact H]. Qed.

Lemma turn_on_world {A} (c : M W A) : preserves R (on_world c).
Proof. intros st. unfold on_world. destruct (c (world st)). apply R_world. Qed.

Lemma turn_on_tools {A} (c : M (ToolWorld W) A) : preserves R (on_tools c).
Proof.
  intros st. unfold on_tools. destruct (c (world st, [])) as [r [w sent]]. simpl.
  eapply R_trans; [apply (R_world st w) | apply (R_sent (set_world w st))].
Qed.

Lemma turn_loop_chat msgs : preserves R (loop_chat self msgs).
Proof.
  unfold loop_chat. apply turn_await. intros st.
  destruct (provider_chat self msgs (get_definitions self) (world st)) as [a w]. simpl.
  eapply R_trans; [apply (R_world st w) | apply (R_chat (set_world w st))].
Qed.

Lemma turn_run_tool_calls calls : ∀ msgs used,
  preserves R (run_tool_calls self calls msgs used).
Proof.
  induction calls as [|tc calls IH]; intros msgs used; simpl; [stop|].
  seq; [apply turn_await, turn_on_tools | apply IH].
Qed.

Lemma turn_loop_rec n : ∀ msgs iteration used,
  preserves R (loop_rec self n msgs iteration used).
Proof.
  induction n as [|n IH]; intros msgs iteration used; simpl; [stop|].
  unfold loop_body. destruct (iteration <? max_iterations self); [|stop].
  seq; [apply turn_loop_chat|].
  destruct (has_tool_calls _); [|stop].
  seq; [apply turn_run_tool_calls | apply IH].
Qed.

Lemma turn_get_or_create k : preserves R (get_or_create (W:=W) k).
Proof.
  unfold get_or_create. seq; [apply (preserves_get_state R R_refl)|].
  destruct (cache _ !! k); [stop|].
  seq; [intros st; apply R_heap|].
  seq; [intros st; apply R_cache | stop].
Qed.

Lemma turn_set_tool_context ch cid : preserves R (_set_tool_context self ch cid).
Proof.
  intros st. unfold _set_tool_context, modify. simpl.
  repeat (destruct (has (tools self) _));
    repeat first [apply R_refl | eapply R_trans; [apply R_world|]].
Qed.

Lemma turn_session_add_message ref r c used :
  preserves R (session_add_message self ref r c used).
Proof. intros st. apply R_heap. Qed.

Lemma turn_process_system_message msg : preserves R (_process_system_message self msg).
Proof.
  unfold _process_system_message.
  destruct (match colon_split (chat_id msg) with
            | Some parts => parts
            | None => ("cli", chat_id msg)
            end) as [origin_channel origin_chat_id].
  seq; [apply turn_get_or_create|].
  seq; [apply turn_set_tool_context|].
  seq; [apply (preserves_read R R_refl)|].
  seq; [apply (preserves_get_state R R_refl)|].
  seq; [apply turn_loop_rec|].
  seq; [apply turn_session_add_message|].
  seq; [apply turn_session_add_message|].
  seq; [intros st; apply R_disk | stop].
Qed.

Lemma turn_process_message msg session_key_arg :
  preserves R (_process_message self msg session_key_arg).
Proof.
  unfold _process_message.
  destruct (String.eqb (channel msg) "system"); [apply turn_process_system_message|].
  seq; [apply turn_get_or_create|].
  destruct (String.eqb _ "/new").
  { seq; [apply (preserves_read R R_refl)|].
    seq; [intros st; apply R_heap|].
    seq; [intros st; apply R_disk|].
    seq; [intros st; apply R_cache|].
    seq; [intros st; apply R_spawn | stop]. }
  destruct (String.eqb _ "/help"); [stop|].
  seq; [apply (preserves_read R R_refl)|].
  seq; [destruct (_ >? _); [intros st; apply R_spawn | stop]|].
  seq; [apply turn_set_tool_context|].
  seq; [apply (preserves_read R R_refl)|].
  seq; [apply (preserves_get_state R R_refl)|].
  seq; [apply turn_loop_rec|].
  seq; [apply turn_session_add_message|].
  seq; [apply turn_session_add_message|].
  seq; [intros st; apply R_disk | stop].
Qed.
End Turn.

(** *** The run loop goes on *)

Local Abbreviation flag_kept := (λ s s' : State, _running s' = _running s).

Lemma flag_trans st1 st2 st3 : flag_kept st1 st2 → flag_kept st2 st3 → flag_kept st1 st3.
Proof. simpl. congruence. Qed.

Lemma step_task_running id st : _running (step_task self id st) = _running st.
Proof.
  apply (step_task_preserves flag_kept); first [reflexivity | intros; congruence].
Qed.

Lemma process_message_running msg session_key_arg st :
  _running (_process_message self msg session_key_arg st).2 = _running st.
Proof.
  apply (turn_process_message flag_kept);
    first [reflexivity | intros; apply step_task_running | intros; congruence].
Qed.

Lemma yield_point_running st : _running (yield_point self st).2 = _running st.
Proof.
  apply (turn_yield_point flag_kept);
    first [reflexivity | intros; apply step_task_running | intros; congruence].
Qed.

Lemma await_running {A} (c : M State A) :
  preserves flag_kept c → preserves flag_kept (await self c).
Proof.
  intros Hc. unfold await. apply (preserves_bind _ flag_trans); [|intros _; exact Hc].
  intros st. apply yield_point_running.
Qed.

(** No iteration touches the flag of the loop. *)
Lemma run_iteration_running st : _running (run_iteration self st).2 = _running st.
Proof.
  revert st. change (preserves flag_kept (run_iteration self)).
  unfold run_iteration. apply (preserves_try _ flag_trans).
  2:{ intros e st. destruct (decide _); reflexivity. }
  apply (preserves_bind _ flag_trans).
  { apply await_running. intros st. unfold on_world.
    destruct (consume_inbound self (world st)); reflexivity. }
  intros msg. apply (preserves_try _ flag_trans).
  - unfold process_and_publish. apply (preserves_bind _ flag_trans).
    + intros st. apply process_message_running.
    + intros [out|] st; [|reflexivity].
      apply await_running. intros st'. reflexivity.
  - intros e. unfold on_failure. apply (preserves_bind _ flag_trans).
    + intros st. reflexivity.
    + intros _. apply await_running. intros st. reflexivity.
Qed.

(** While the bus raises nothing but timeouts the loop makes every test it
    is given, and is running after them when it was running before. *)
Lemma run_loop_goes_on n : ∀ st,
  (∀ w e w', consume_inbound self w = (inl e, w') → kind e = KTimeoutError) →
  ∃ st', run_loop self n st = (inr (_running st), st') ∧ _running st' = _running st.
Proof.
  induction n as [|n IH]; intros st Hbus; simpl; unfold bind, get_state, ret.
  - eauto.
  - destruct (_running st) eqn:Hflag; [|eauto].
    pose proof (run_iteration_running st) as Hk.
    destruct (run_iteration self st) as [[e|[]] st1] eqn:Hit.
    + destruct (run_iteration_raises _ _ _ Hit) as (Hne & w & w' & Hc).
      exfalso. apply Hne. eapply Hbus, Hc.
    + cbn [snd] in Hk. destruct (IH st1 Hbus) as (st' & Hr & Hf).
      exists st'. rewrite Hr. split; congruence.
Qed.

(** C4. When processing an inbound message raises, the iteration of the run
    loop catches the exception, logs it, publishes the apology to the
    channel and chat id of that message after what the turn had queued, and
    leaves the flag of the loop as it was, so the loop goes on to its next
    test; and as long as the bus itself raises nothing but timeouts, a loop
    that is running makes every one of its tests and is still running after
    them, whatever the messages do. *)
Theorem failure_is_answered_with_apology :
  (∀ st msg w1 e st2,
      let st0 := (yield_point self st).2 in
      consume_inbound self (world st0) = (inr msg, w1) →
      _process_message self msg None (set_world w1 st0) = (inl e, st2) →
      ∃ st3,
        run_iteration self st = (inr tt, st3) ∧
        outbound st3
        = outbound st2 ++
          [{| o_channel := channel msg; o_chat_id := chat_id msg;
              o_content := "Sorry, I encountered an internal error. Please try again.";
              o_metadata := [] |}] ∧
        Logged ERROR ("Error processing message: " +:+ str e) ∈ log st3 ∧
        _running st3 = _running st) ∧
  (∀ n st,
      (∀ w e w', consume_inbound self w = (inl e, w') → kind e = KTimeoutError) →
      ∃ st', run_loop self n st = (inr (_running st), st') ∧ _running st' = _running st) ∧
  (∀ n st st1,
      _running st = true → run_iteration self st = (inr tt, st1) →
      run_loop self (S n) st = run_loop self n st1).
Proof.
  split; [|split].
  - intros st msg w1 e st2 st0 Hc Hp. subst st0.
    pose proof (run_iteration_cases st) as Hr. simpl in Hr. rewrite Hc, Hp in Hr.
    destruct (apology_published msg e st2) as (st3 & Hf & Ho & Hl).
    pose proof (run_iteration_running st) as Hk.
    exists st3. split; [congruence|]. split; [exact Ho|]. split; [exact Hl|].
    rewrite Hr, Hf in Hk. exact Hk.
  - intros n st Hbus. apply run_loop_goes_on, Hbus.
  - intros n st st1 Hflag Hit. simpl. unfold bind, get_state, ret.
    rewrite Hflag, Hit. reflexivity.
Qed.

(** *** The archive job of [/new] *)

Lemma consolidated_by_app t l1 l2 :
  consolidated_by t (l1 ++ l2) = consolidated_by t l1 ++ consolidated_by t l2.
Proof.
  induction l1 as [|e l1 IH]; simpl; [reflexivity|].
  destruct e; simpl; try exact IH.
  destruct (decide (task = t)); simpl; now rewrite IH.
Qed.

Lemma consolidated_by_other t l e :
  (∀ ref old, e ≠ Consolidating t ref old) →
  consolidated_by t (l ++ [e]) = consolidated_by t l.
Proof.
  intros He. rewrite consolidated_by_app.
  destruct e; simpl; try apply app_nil_r.
  destruct (decide (task = t)) as [->|]; [|apply app_nil_r].
  exfalso. eapply He. reflexivity.
Qed.

(** A task that runs touches neither the set of tasks nor the record of
    the slices. *)
Lemma advance_frame t task st :
  let st' := (advance self task st).2 in
  tasks st' = tasks st ∧ next_task st' = next_task st ∧
  consolidated_by t (log st') = consolidated_by t (log st).
Proof.
  apply (preserves_advance
           (λ s s', tasks s' = tasks s ∧ next_task s' = next_task s ∧
                    consolidated_by t (log s') = consolidated_by t (log s))).
  - intros; repeat split.
  - intros s1 s2 s3 (? & ? & ?) (? & ? & ?). repeat split; congruence.
  - intros; repeat split.
  - intros; repeat split.
  - intros s e He. simpl. repeat split.
    apply consolidated_by_other. intros ref old ->. exact He.
Qed.

(** Whenever the archive job starts, it consolidates the messages it was
    created with, all of them and in their order. *)
Lemma cleanup_takes_snapshot ref ms st p st' :
  advance self (ConsolidateAndCleanup ref ms) st = (inr (Some p), st') →
  p_old_messages p = ms ∧ p_archive_all p = true ∧
  p_prompt p = consolidation_prompt (p_current_memory p) (join nl (transcript_lines self ms)).
Proof.
  unfold advance, consolidate_begin, bind, read, alloc, on_world, ret. simpl.
  unfold deref at 2. simpl. rewrite lookup_insert_eq. simpl.
  destruct (read_long_term self (world st)) as [[e|m] w]; [discriminate|].
  intros [= <- <-]. simpl. unfold deref. simpl. rewrite lookup_insert_eq. auto.
Qed.

Lemma awaiting_ends p st : ∃ r st', advance self (AwaitingProvider p) st = (r, st') ∧
                                    r ≠ inr (Some p) ∧ ∀ q, r ≠ inr (Some q).
Proof.
  simpl. unfold bind, ret.
  destruct (consolidate_resume self p st) as [[e|[]] st']; eexists _, _;
    (split; [reflexivity|]); split; try discriminate; intros q; discriminate.
Qed.

Lemma archive_step t ms base st id :
  archive_intact t ms base st → archive_intact t ms base (step_task self id st).
Proof.
  intros [Hlt Hst]. unfold step_task.
  destruct (tasks st !! id) as [task|] eqn:Hid; [|split; assumption].
  destruct (advance_frame t task st) as (Ht & Hn & Hc). cbv zeta in Ht, Hn, Hc.
  unfold archive_intact.
  destruct (decide (id = t)) as [->|Hne].
  - rewrite Hid in Hst.
    destruct task as [ref|ref l|p]; [contradiction| |].
    + destruct Hst as [-> Hb].
      destruct (advance self (ConsolidateAndCleanup ref ms) st) as [[e|[p|]] st1] eqn:Ha;
        cbn [fst snd set_tasks set_log tasks next_task log] in *.
      * split; [lia|]. rewrite lookup_delete_eq. left. congruence.
      * destruct (cleanup_takes_snapshot _ _ _ _ _ Ha) as (Ho & Hall & _).
        split; [lia|]. rewrite lookup_insert_eq. split; [exact Ho|]. split; [exact Hall|].
        rewrite consolidated_by_app, Hc, Hb, Ho. simpl.
        destruct (decide (t = t)); [reflexivity | contradiction].
      * split; [lia|]. rewrite lookup_delete_eq. left. congruence.
    + destruct Hst as (Ho & Hall & Hb).
      destruct (awaiting_ends p st) as (r & st1 & Ha & _ & Hr). rewrite Ha in *.
      cbn [fst snd] in *.
      destruct r as [e|[q|]]; [|exfalso; apply (Hr q); reflexivity|];
        cbn [fst snd set_tasks set_log tasks next_task log];
        (split; [lia|]); rewrite lookup_delete_eq; right; congruence.
  - assert (Hkeep : match tasks st !! t with
               | Some (ConsolidateAndCleanup _ l) =>
                   l = ms ∧ consolidated_by t (log (advance self task st).2) = base
               | Some (AwaitingProvider p) =>
                   p_old_messages p = ms ∧ p_archive_all p = true ∧
                   consolidated_by t (log (advance self task st).2) = base ++ [ms]
               | Some (ConsolidateTask _) => False
               | None =>
                   consolidated_by t (log (advance self task st).2) = base ∨
                   consolidated_by t (log (advance self task st).2) = base ++ [ms]
               end).
    { rewrite Hc. exact Hst. }
    destruct (advance self task st) as [[e|[p|]] st1];
      cbn [fst snd set_tasks set_log tasks next_task log] in *.
    + split; [lia|]. rewrite lookup_delete_ne, Ht by exact Hne. exact Hkeep.
    + split; [lia|]. rewrite lookup_insert_ne, Ht by exact Hne.
      rewrite consolidated_by_other by (intros ref old [= ? _ _]; congruence).
      exact Hkeep.
    + split; [lia|]. rewrite lookup_delete_ne, Ht by exact Hne. exact Hkeep.
Qed.

(** A turn, for any message and with any schedule, leaves the archive job
    with its snapshot. *)
Lemma archive_turn t ms base msg session_key_arg st :
  archive_intact t ms base st →
  archive_intact t ms base (_process_message self msg session_key_arg st).2.
Proof.
  apply (turn_process_message (λ s s', archive_intact t ms base s → archive_intact t ms base s'));
    try (intros; assumption).
  - intros s1 s2 s3 H12 H23 H. auto.
  - intros s a [Hlt H]. split; [exact Hlt|]. simpl.
    rewrite consolidated_by_other by (intros; discriminate). exact H.
  - intros s task [Hlt H]. split; [simpl; lia|]. simpl.
    rewrite lookup_insert_ne by lia. exact H.
  - intros s id. apply archive_step.
Qed.

Lemma get_or_create_frame k st :
  let st' := (get_or_create (W:=W) k st).2 in
  world st' = world st ∧ log st' = log st ∧ tasks st' = tasks st ∧
  next_task st' = next_task st.
Proof.
  unfold get_or_create. run. destruct (cache st !! k); simpl; auto.
Qed.

(** C8. On [/new] the messages of the session are taken before the live
    session is cleared, saved and invalidated; the turn answers at once and
    calls no provider; the detached archive job carries that snapshot, and
    whenever it starts it consolidates exactly these messages; and a message
    processed right after, under any schedule, leaves the job with the
    snapshot, recorded at most once. *)
Theorem new_archives_snapshot msg session_key_arg st ref st0 :
  channel msg ≠ "system" →
  lower self (strip self (content msg)) = "/new" →
  get_or_create (turn_key msg session_key_arg) st = (inr ref, st0) →
  let s := deref st0 ref in
  let t := next_task st in
  let job := ConsolidateAndCleanup ref (messages s) in
  ∃ st1,
    _process_message self msg session_key_arg st
    = (inr (Some {| o_channel := channel msg; o_chat_id := chat_id msg;
                    o_content := "New session started. Memory consolidation in progress.";
                    o_metadata := [] |}), st1) ∧
    log st1 = log st ∧ world st1 = world st ∧
    deref st1 ref = {| key := key s; messages := []; last_consolidated := 0 |} ∧
    cache st1 !! key s = None ∧
    disk st1 !! key s = Some {| key := key s; messages := []; last_consolidated := 0 |} ∧
    tasks st1 = <[t := job]> (tasks st) ∧
    (∀ st' p st'',
        advance self job st' = (inr (Some p), st'') →
        p_old_messages p = messages s ∧
        p_prompt p = consolidation_prompt (p_current_memory p)
                       (join nl (transcript_lines self (messages s)))) ∧
    (∀ msg2 key2 sched,
        archive_intact t (messages s) (consolidated_by t (log st))
          (_process_message self msg2 key2 (set_schedule sched st1)).2).
Proof.
  intros Hsys Hcmd Hg s t job.
  destruct (get_or_create_frame (turn_key msg session_key_arg) st) as (Hw & Hl & Ht & Hn).
  rewrite Hg in Hw, Hl, Ht, Hn. simpl in Hw, Hl, Ht, Hn.
  unfold _process_message. apply String.eqb_neq in Hsys. rewrite Hsys.
  cbv zeta. unfold bind at 1. rewrite Hg. rewrite Hcmd. simpl String.eqb.
  cbv iota. run.
  assert (Hd : deref (set_heap (<[ref := clear (deref st0 ref)]> (heap st0))
                               (next_ref st0) st0) ref
               = clear (deref st0 ref))
    by (unfold deref at 1; simpl; now rewrite lookup_insert_eq).
  rewrite !Hd. simpl.
  eexists. split; [reflexivity|]. simpl.
  split; [exact Hl|]. split; [exact Hw|].
  split; [exact Hd|].
  split; [apply lookup_delete_eq|].
  split; [apply lookup_insert_eq|].
  split; [unfold job, t, s; now rewrite Ht, Hn|].
  split.
  - intros st' p st'' Ha.
    destruct (cleanup_takes_snapshot _ _ _ _ _ Ha) as (Ho & _ & Hp). auto.
  - intros msg2 key2 sched. apply archive_turn.
    split; simpl; [unfold t; lia|].
    rewrite Hn. fold t. rewrite lookup_insert_eq. split; [reflexivity|].
    now rewrite Hl.
Qed.

End AgentTheory.

(** *** The theorems at the small agent *)

Import DemoAgent.


Lemma demo_bus_times_out w e w' :
  demo_consume w = (inl e, w') → kind e = KTimeoutError.
Proof. unfold demo_consume. destruct (inbox w); intros [= <- _]; reflexivity. Qed.

Lemma failure_is_answered_with_apology_witness :
  (∃ st3,
      run_iteration (demo_agent 20 50) recovery_start = (inr tt, st3) ∧
      outbound st3
      = [{| o_channel := "cli"; o_chat_id := "direct";
            o_content := "Sorry, I encountered an internal error. Please try again.";
            o_metadata := [] |}] ∧
      Logged ERROR "Error processing message: provider down" ∈ log st3 ∧
      _running st3 = true ∧
      run_loop (demo_agent 20 50) 2 recovery_start = run_loop (demo_agent 20 50) 1 st3) ∧
  ∃ st', run_loop (demo_agent 20 50) 2 recovery_start = (inr true, st') ∧
         _running st' = true.
Proof.
  destruct (failure_is_answered_with_apology (demo_agent 20 50)) as (Hap & Hloop & Hnext).
  split.
  - edestruct (Hap recovery_start) as (st3 & Hr & Ho & Hlog & Hflag);
      [vm_compute; reflexivity | vm_compute; reflexivity |].
    exists st3. split; [exact Hr|]. split; [exact Ho|]. split; [exact Hlog|].
    split; [exact Hflag|]. apply Hnext; [reflexivity | exact Hr].
  - apply (Hloop 2%nat recovery_start). exact demo_bus_times_out.
Defined.

(** The loop after an outage: the first message is answered with the
    apology, the second with the answer of the provider. *)
Example next_message_is_processed :
  let run := run (demo_agent 20 50) 2 (boot (world recovery_start) [] 0 []) in
  run.1 = inr true ∧
  List.map o_content (outbound run.2)
  = ["Sorry, I encountered an internal error. Please try again."; "hello"] ∧
  inbox (world run.2) = [].
Proof. vm_compute. repeat split; reflexivity. Qed.

Lemma failed_consolidation_keeps_cursor_witness :
  (consolidate_resume (demo_agent 20 50) suspended unparsed_start).1 = inr tt ∧
  last_consolidated
    (deref (consolidate_resume (demo_agent 20 50) suspended unparsed_start).2 0) = 0 ∧
  heap (consolidate_resume (demo_agent 20 50) suspended unparsed_start).2
  = heap unparsed_start ∧
  (consolidate_resume (demo_agent 20 50) suspended summary_start).1 = inr tt ∧
  last_consolidated
    (deref (consolidate_resume (demo_agent 20 50) suspended summary_start).2 0) = 26 ∧
  messages (deref (consolidate_resume (demo_agent 20 50) suspended summary_start).2 0)
  = repeat (said "user" "x") 51.
Proof.
  destruct (failed_consolidation_keeps_cursor (demo_agent 20 50) suspended unparsed_start
              (answer "boom") (script [] []) eq_refl) as (Hr & Hfail & _).
  destruct (Hfail eq_refl) as (Hh & _ & Hc & _).
  split; [exact Hr|]. split; [exact Hc|]. split; [exact Hh|].
  destruct (failed_consolidation_keeps_cursor (demo_agent 20 50) suspended summary_start
              (answer summary_text) (script [] []) eq_refl) as (Hr2 & _ & Hdict).
  specialize (Hdict _ eq_refl). cbv zeta in Hdict.
  destruct Hdict as (_ & _ & Hcur & Hmsgs & _).
  split; [exact Hr2|]. split; [exact Hcur | exact Hmsgs].
Defined.

(** C7, as stated, fails. The provider answers a dict whose history entry
    is a text and whose memory update is an object: the entry is appended,
    then writing the update raises. The run ends with the error logged and
    the cursor where it was, the same slice is selected again, and yet the
    history entry of the failed run is in the durable memory; a second run
    on the same answer appends it again. *)
Lemma partial_progress_is_committed :
  let self := demo_agent 20 50 in
  let st' := (consolidate_resume self suspended partial_start).2 in
  let st'' := (consolidate_resume self suspended st').2 in
  history (world partial_start) = [] ∧
  parsed_result self (answer partial_text)
  = Some [("history_entry", JStr "[2026-01-01 10:00] They talked.");
          ("memory_update", JDict [("likes", JStr "tea")])] ∧
  (consolidate_resume self suspended partial_start).1 = inr tt ∧
  log st' = [ConsolidationChat (answer partial_text);
             Logged ERROR "Memory consolidation failed: write() argument must be str"] ∧
  last_consolidated (deref st' 0) = last_consolidated (deref partial_start 0) ∧
  select_old_messages self (deref st' 0) false
  = select_old_messages self (deref partial_start 0) false ∧
  long_term (world st') = long_term (world partial_start) ∧
  history (world st') = [JStr "[2026-01-01 10:00] They talked."] ∧
  history (world st'')
  = [JStr "[2026-01-01 10:00] They talked."; JStr "[2026-01-01 10:00] They talked."].
Proof. vm_compute. repeat split; reflexivity. Qed.

Lemma new_archives_snapshot_witness :
  ∃ st1,
    _process_message (demo_agent 20 50) (from_user "/new") None short_start
    = (inr (Some {| o_channel := "cli"; o_chat_id := "direct";
                    o_content := "New session started. Memory consolidation in progress.";
                    o_metadata := [] |}), st1) ∧
    messages (deref st1 0) = [] ∧
    tasks st1 !! 0%nat = Some (ConsolidateAndCleanup 0 two_messages) ∧
    archive_intact 0 two_messages []
      (_process_message (demo_agent 20 50) (from_user "hi") None
         (set_schedule [[0%nat]] st1)).2.
Proof.
  destruct (new_archives_snapshot (demo_agent 20 50) (from_user "/new") None short_start
              0%nat (loaded (script [] []) two_messages 1 []))
    as (st1 & Hrun & _ & _ & Hd & _ & _ & Ht & _ & Hnext);
    [discriminate | reflexivity | reflexivity |].
  exists st1. split; [exact Hrun|].
  split; [now rewrite Hd|]. split; [rewrite Ht; reflexivity|].
  apply (Hnext (from_user "hi") None [[0%nat]]).
Defined.

(** The run of one message with 51 stored messages and a window of 50: one
    job is started, over the first 26 messages, [messages[0:-25]]. *)
Example fifty_one_messages :
  let st := boot (script [answer "hello"] []) (repeat (said "user" "x") 51) 0 [[0%nat]] in
  let st' := (_process_message (demo_agent 20 50) (from_user "hi") None st).2 in
  select_old_messages (demo_agent 20 50) (deref (loaded (script [] []) (repeat (said "user" "x") 51) 0 []) 0) false
  = Some (py_slice (repeat (said "user" "x") 51) 0 (-25), 25) ∧
  py_slice (repeat (said "user" "x") 51) 0 (-25) = repeat (said "user" "x") 26 ∧
  consolidated_by 0 (log st') = [repeat (said "user" "x") 26] ∧
  next_task st' = 1%nat.
Proof. vm_compute. repeat split; reflexivity. Qed.

(** C6, at a window of one. [keep_count] is zero, the session has two
    unconsolidated messages and the slice the specification names,
    [messages[0 : len - 0]], holds both; the slice of the code,
    [messages[0:-0]], is empty, and the run returns at once with the state
    as it was. *)
Theorem window_of_one_never_consolidates :
  let self := demo_agent 20 1 in
  let st := loaded (script [answer summary_text] []) two_messages 0 [] in
  let s := deref st 0 in
  memory_window self / 2 = 0 ∧
  spec_slice s (memory_window self / 2) = two_messages ∧
  py_slice (messages s) (last_consolidated s) (- (memory_window self / 2)) = [] ∧
  select_old_messages self s false = None ∧
  _consolidate_memory self 0 false st = (inr tt, st).
Proof. vm_compute. repeat split; reflexivity. Qed.

(** C9, on a schedule of the event loop. A turn with 51 stored messages
    starts a job, which suspends at its provider call; [/new] then clears the
    session, whose cursor is 0 and in range; when the provider answers, the
    job sets the cursor of that session to [len(messages) - keep_count], which
    is [0 - 25]: below zero, and lower than before, with no reset. *)
Theorem cursor_goes_negative :
  let before := (run (demo_agent 20 50) 2 race_start).2 in
  let after := (run (demo_agent 20 50) 3 race_start).2 in
  deref before 0 = {| key := "cli:direct"; messages := []; last_consolidated := 0 |} ∧
  (∃ p, tasks before !! 0%nat = Some (AwaitingProvider p) ∧
        p_session p = 0%nat ∧ p_archive_all p = false ∧ p_keep_count p = 25 ∧
        p_old_messages p = repeat (said "user" "x") 26) ∧
  deref after 0 = {| key := "cli:direct"; messages := []; last_consolidated := -25 |} ∧
  ¬ cursor_in_range (deref after 0).
Proof.
  vm_compute. split; [reflexivity|]. split; [|split; [reflexivity|]].
  - eexists. split; [reflexivity|]. repeat split; reflexivity.
  - intros [H _]. apply H. reflexivity.
Qed.

End AgentTheory.

(** ** The registry as a dictionary *)

Module RegistryFacts.
Import Registry.
Section RegistryFacts.
Context {W : Type}.
Implicit Types (r : ToolRegistry W) (tool : Tool W) (w : W).

(** X1. A call by name goes to the tool registered last under that name:
    after [register(tool)], [execute] of the tool's name validates with the
    tool and runs the tool, whatever was registered under the name before,
    and every other name is dispatched as before. What the validator raises
    leaves [execute], with the world untouched; what the tool raises is
    turned into the execution-error text. *)
Theorem register_then_execute r tool nm params w :
  execute (register r tool) nm params w
  = if decide (nm = tool_name tool)
    then match validate_params tool params with
         | inl e => (inl e, w)
         | inr ((_ :: _) as errors) => (inr (invalid_parameters nm errors), w)
         | inr [] => match tool_execute tool params w with
                     | (inr out, w') => (inr out, w')
                     | (inl e, w') => (inr (execution_error nm e), w')
                     end
         end
    else execute r nm params w.
Proof.
  unfold execute, register. simpl.
  destruct (decide (nm = tool_name tool)) as [->|Hne].
  - rewrite lookup_insert_eq.
    destruct (validate_params tool params) as [e|[|err errors]]; reflexivity.
  - rewrite lookup_insert_ne by congruence. reflexivity.
Qed.

(** X2. After [unregister(name)] a call of the name is answered with the
    not-found text and the world is not touched, the name is no longer in
    the registry, and every other name is dispatched as before. *)
Theorem unregister_then_execute r nm nm' params w :
  execute (unregister r nm) nm params w = (inr (tool_not_found nm), w) ∧
  has (unregister r nm) nm = false ∧
  __contains__ (unregister r nm) nm = false ∧
  (nm' ≠ nm →
   execute (unregister r nm) nm' params w = execute r nm' params w ∧
   get (unregister r nm) nm' = get r nm').
Proof.
  unfold execute, unregister, has, __contains__, get. simpl.
  rewrite lookup_delete_eq.
  split; [reflexivity|].
  split; [apply bool_decide_eq_false; intros [x Hx]; discriminate|].
  split; [apply bool_decide_eq_false; intros [x Hx]; discriminate|].
  intros Hne. rewrite lookup_delete_ne by congruence. split; reflexivity.
Qed.

(** X3. [len(registry)] counts names, not registrations: registering
    under a name already taken leaves it as it is, a new name adds one;
    unregistering a name that is there takes one off, and a name that is
    not there changes nothing. *)
Theorem len_counts_names r tool nm :
  __len__ (register r tool)
  = (if has r (tool_name tool) then __len__ r else S (__len__ r)) ∧
  __len__ (unregister r nm)
  = (if has r nm then pred (__len__ r) else __len__ r) ∧
  (has r nm = false → unregister r nm = r).
Proof.
  unfold __len__, register, unregister, has. simpl. split; [|split].
  - destruct (_tools r !! tool_name tool) as [old|] eqn:Hl.
    + rewrite bool_decide_eq_true_2 by eauto.
      rewrite <- (insert_delete_id (_tools r) (tool_name tool) old Hl) at 2.
      rewrite <- insert_delete_eq.
      rewrite !map_size_insert_None by apply lookup_delete_eq. reflexivity.
    + rewrite bool_decide_eq_false_2 by (intros [x Hx]; discriminate).
      apply map_size_insert_None, Hl.
  - destruct (_tools r !! nm) as [old|] eqn:Hl.
    + rewrite bool_decide_eq_true_2 by eauto.
      rewrite map_size_delete, Hl. reflexivity.
    + rewrite bool_decide_eq_false_2 by (intros [x Hx]; discriminate).
      rewrite map_size_delete, Hl. reflexivity.
  - intros Hn. apply bool_decide_eq_false in Hn.
    destruct r as [m]. simpl in *. f_equal. apply delete_id.
    destruct (m !! nm) eqn:Hl; [|reflexivity]. exfalso. apply Hn. eauto.
Qed.

End RegistryFacts.

(** *** The theorems at the registry of the small agent *)

Lemma unregister_then_execute_witness :
  let r := register Registry.empty DemoAgent.echo in
  execute (unregister r "echo") "echo" [("text", JStr "a")] (DemoAgent.script [] [], [])
  = (inr "Error: Tool 'echo' not found", (DemoAgent.script [] [], [])) ∧
  get (unregister r "echo") "other" = get r "other".
Proof.
  destruct (unregister_then_execute (register Registry.empty DemoAgent.echo)
              "echo" "other" [("text", JStr "a")] (DemoAgent.script [] [], []))
    as (Hrun & _ & _ & Hother).
  split; [exact Hrun|]. apply Hother. discriminate.
Defined.

Lemma len_counts_names_witness :
  let r := register Registry.empty DemoAgent.echo in
  __len__ (register r DemoAgent.echo) = 1%nat ∧ unregister r "other" = r.
Proof.
  destruct (len_counts_names (register Registry.empty DemoAgent.echo) DemoAgent.echo "other")
    as (Hreg & _ & Hun).
  split; [rewrite Hreg; reflexivity|]. apply Hun. reflexivity.
Defined.

End RegistryFacts.

(** ** Address classes, resolution and validation *)

Module WebFacts.
Import Web.
Local Open Scope list_scope.

(** *** The private ranges, as intervals *)

(** Masking with a netmask clears the host bits. *)
Lemma high_mask bits p n :
  0 ≤ p ≤ bits → 0 ≤ n < 2 ^ bits →
  Z.land n (netmask bits p) = (n / 2 ^ (bits - p)) * 2 ^ (bits - p).
Proof.
  intros Hp Hn. unfold netmask.
  rewrite <- Z.shiftr_div_pow2, <- Z.shiftl_mul_pow2 by lia.
  apply Z.bits_inj'. intros i Hi.
  rewrite Z.land_spec.
  destruct (Z.lt_ge_cases i (bits - p)) as [Hlo|Hhi].
  - rewrite (Z.shiftl_spec_low _ _ i) by lia.
    rewrite (Z.shiftl_spec_low _ _ i) by lia. apply andb_false_r.
  - rewrite !Z.shiftl_spec by lia. rewrite Z.shiftr_spec by lia.
    replace (i - (bits - p) + (bits - p)) with i by lia.
    destruct (Z.lt_ge_cases i bits) as [Hin|Hout].
    + rewrite Z.ones_spec_low by lia. apply andb_true_r.
    + rewrite Z.ones_spec_high by lia. rewrite andb_false_r.
      symmetry. rewrite <- (Z.mod_small n (2 ^ bits)) by lia.
      apply Z.mod_pow2_bits_high. lia.
Qed.

(** A network whose address is aligned holds an interval of addresses. *)
Lemma contains_range bits p base n :
  0 ≤ p ≤ bits → 0 ≤ n < 2 ^ bits → base mod 2 ^ (bits - p) = 0 →
  (Z.land n (netmask bits p) =? base) = true ↔ base ≤ n < base + 2 ^ (bits - p).
Proof.
  intros Hp Hn Hb. rewrite high_mask by assumption. rewrite Z.eqb_eq.
  assert (Hk : 0 < 2 ^ (bits - p)) by (apply Z.pow_pos_nonneg; lia).
  pose proof (Z.div_mod n (2 ^ (bits - p)) ltac:(lia)) as Hd.
  pose proof (Z.mod_pos_bound n (2 ^ (bits - p)) Hk) as Hm.
  pose proof (Z.div_mod base (2 ^ (bits - p)) ltac:(lia)) as Hd'.
  rewrite Hb in Hd'.
  split; [lia|]. intros Hr.
  assert (n / 2 ^ (bits - p) = base / 2 ^ (bits - p)); [|nia].
  symmetry. apply Z.div_unique with (r := n - base); lia.
Qed.

Lemma v4_ranges n :
  0 ≤ n < 2 ^ 32 →
  in_any PRIVATE_IP_RANGES (IPv4Address n) = true ↔
  n ≤ v4 0 255 255 255 ∨
  v4 10 0 0 0 ≤ n ≤ v4 10 255 255 255 ∨
  v4 100 64 0 0 ≤ n ≤ v4 100 127 255 255 ∨
  v4 127 0 0 0 ≤ n ≤ v4 127 255 255 255 ∨
  v4 169 254 0 0 ≤ n ≤ v4 169 254 255 255 ∨
  v4 172 16 0 0 ≤ n ≤ v4 172 31 255 255 ∨
  v4 192 168 0 0 ≤ n ≤ v4 192 168 255 255.
Proof.
  intros Hn. unfold PRIVATE_IP_RANGES, in_any, contains.
  pose proof (contains_range 32 8 (v4 0 0 0 0) n ltac:(lia) Hn eq_refl) as H0.
  pose proof (contains_range 32 8 (v4 127 0 0 0) n ltac:(lia) Hn eq_refl) as H1.
  pose proof (contains_range 32 8 (v4 10 0 0 0) n ltac:(lia) Hn eq_refl) as H2.
  pose proof (contains_range 32 10 (v4 100 64 0 0) n ltac:(lia) Hn eq_refl) as H3.
  pose proof (contains_range 32 12 (v4 172 16 0 0) n ltac:(lia) Hn eq_refl) as H4.
  pose proof (contains_range 32 16 (v4 192 168 0 0) n ltac:(lia) Hn eq_refl) as H5.
  pose proof (contains_range 32 16 (v4 169 254 0 0) n ltac:(lia) Hn eq_refl) as H6.
  change (2 ^ (32 - 8)) with 16777216 in *.
  change (2 ^ (32 - 10)) with 4194304 in *.
  change (2 ^ (32 - 12)) with 1048576 in *.
  change (2 ^ (32 - 16)) with 65536 in *.
  unfold v4 in *. simpl Z.add in *. simpl Z.mul in *.
  repeat match goal with
  | |- context [Z.land n ?m =? ?b] => destruct (Z.land n m =? b) eqn:?
  end; intuition lia.
Qed.

Lemma v6_ranges n :
  0 ≤ n < 2 ^ 128 →
  in_any PRIVATE_IP_RANGES (IPv6Address n) = true ↔
  n = 0 ∨ n = 1 ∨
  v6_lead 0xfc00 ≤ n < v6_lead 0xfe00 ∨
  v6_lead 0xfe80 ≤ n < v6_lead 0xfec0.
Proof.
  intros Hn. unfold PRIVATE_IP_RANGES, in_any, contains.
  pose proof (contains_range 128 128 0 n ltac:(lia) Hn eq_refl) as H0.
  pose proof (contains_range 128 128 1 n ltac:(lia) Hn eq_refl) as H1.
  pose proof (contains_range 128 7 (v6_lead 0xfc00) n ltac:(lia) Hn eq_refl) as H2.
  pose proof (contains_range 128 10 (v6_lead 0xfe80) n ltac:(lia) Hn eq_refl) as H3.
  change (2 ^ (128 - 128)) with 1 in *.
  change (v6_lead 0xfc00 + 2 ^ (128 - 7)) with (v6_lead 0xfe00) in *.
  change (v6_lead 0xfe80 + 2 ^ (128 - 10)) with (v6_lead 0xfec0) in *.
  assert (Hord : 1 < v6_lead 0xfc00 ∧ v6_lead 0xfe00 < v6_lead 0xfe80) by (split; reflexivity).
  generalize dependent (v6_lead 0xfc00). generalize dependent (v6_lead 0xfe00).
  generalize dependent (v6_lead 0xfe80). generalize dependent (v6_lead 0xfec0).
  intros a b c d. intros.
  repeat match goal with
  | |- context [Z.land n ?m =? ?b] => destruct (Z.land n m =? b) eqn:?
  end; intuition lia.
Qed.

Section WebFacts.
Context {W : Type} (net : Net W).
Implicit Types (w : W) (st : St W).

(** X4. An IPv4 address [a.b.c.d] is classified as private exactly when it
    is in 0.0.0.0/8, 10.0.0.0/8, 127.0.0.0/8, 100.64.0.0/10,
    169.254.0.0/16, 172.16.0.0/12 or 192.168.0.0/16, read off the first two
    octets. *)
Theorem private_ipv4_by_octets ip_str a b c d :
  ip_address net ip_str = Some (IPv4Address (v4 a b c d)) →
  0 ≤ a < 256 → 0 ≤ b < 256 → 0 ≤ c < 256 → 0 ≤ d < 256 →
  _is_private_ip net ip_str = true ↔
  a = 0 ∨ a = 10 ∨ a = 127 ∨ (a = 100 ∧ 64 ≤ b ≤ 127) ∨
  (a = 169 ∧ b = 254) ∨ (a = 172 ∧ 16 ≤ b ≤ 31) ∨ (a = 192 ∧ b = 168).
Proof.
  intros Hip Ha Hb Hc Hd. unfold _is_private_ip. rewrite Hip.
  rewrite v4_ranges by (unfold v4; lia).
  unfold v4. lia.
Qed.

(** X5. An IPv6 address is classified as private exactly when it is [::],
    [::1], or in fc00::/7 or fe80::/10. *)
Theorem private_ipv6_by_range ip_str n :
  ip_address net ip_str = Some (IPv6Address n) →
  0 ≤ n < 2 ^ 128 →
  _is_private_ip net ip_str = true ↔
  n = 0 ∨ n = 1 ∨
  v6_lead 0xfc00 ≤ n < v6_lead 0xfe00 ∨
  v6_lead 0xfe80 ≤ n < v6_lead 0xfec0.
Proof.
  intros Hip Hn. unfold _is_private_ip. rewrite Hip. apply v6_ranges, Hn.
Qed.

(** X6. The membership test is by address family: the IPv4-mapped IPv6
    form [::ffff:a.b.c.d] of an address is never classified as private,
    also when [a.b.c.d] itself is. *)
Theorem mapped_ipv4_is_not_private ip_str a b c d :
  ip_address net ip_str = Some (IPv6Address (0xffff * 2 ^ 32 + v4 a b c d)) →
  0 ≤ a < 256 → 0 ≤ b < 256 → 0 ≤ c < 256 → 0 ≤ d < 256 →
  _is_private_ip net ip_str = false.
Proof.
  intros Hip Ha Hb Hc Hd. unfold _is_private_ip. rewrite Hip.
  assert (Hv : 0 ≤ v4 a b c d < 4294967296) by (unfold v4; lia).
  assert (H1 : 0xffff * 2 ^ 32 + 4294967296 < v6_lead 0xfc00) by reflexivity.
  assert (H2 : v6_lead 0xfc00 < v6_lead 0xfe80) by reflexivity.
  assert (H3 : v6_lead 0xfc00 < 2 ^ 128) by reflexivity.
  assert (H4 : 1 < 0xffff * 2 ^ 32) by reflexivity.
  apply not_true_is_false. rewrite v6_ranges; lia.
Qed.

(** *** Resolution *)

Lemma unique_ips_acc (result : list string) : ∀ acc : list string,
  NoDup acc →
  let out := fold_left (λ (ips : list string) ip, if bool_decide (ip ∈ ips) then ips else ips ++ [ip])
                       result acc in
  NoDup out ∧ ∀ ip, ip ∈ out ↔ ip ∈ acc ∨ ip ∈ result.
Proof.
  induction result as [|x result IH]; intros acc Hacc; simpl.
  { split; [exact Hacc|]. intros ip. rewrite elem_of_nil. tauto. }
  destruct (bool_decide_reflect (x ∈ acc)) as [Hin|Hnin].
  - destruct (IH acc Hacc) as [Hn He]. split; [exact Hn|].
    intros ip. rewrite He, elem_of_cons. split; [tauto|].
    intros [H|[->|H]]; tauto.
  - assert (Hacc' : NoDup (acc ++ [x])).
    { apply NoDup_app. split; [exact Hacc|]. split.
      - intros y Hy Hx. apply list_elem_of_singleton in Hx. subst. contradiction.
      - apply NoDup_singleton. }
    destruct (IH _ Hacc') as [Hn He]. split; [exact Hn|].
    intros ip. rewrite He, elem_of_app, list_elem_of_singleton, elem_of_cons. tauto.
Qed.

(** X7. [_resolve_hostname] returns each address the resolver gave once:
    the list has no duplicates and the same elements; when the resolver
    raises an [OSError] the list is empty, and any other exception goes on
    to the caller. In each case the world is the one the resolver left. *)
Theorem resolved_addresses_are_unique host w :
  match getaddrinfo net host w with
  | (inr result, w') =>
      ∃ ips, _resolve_hostname net host w = (inr ips, w') ∧
             NoDup ips ∧ ∀ ip, ip ∈ ips ↔ ip ∈ result
  | (inl e, w') =>
      _resolve_hostname net host w
      = (if decide (kind e = KOSError) then inr [] else inl e, w')
  end.
Proof.
  unfold _resolve_hostname, try_except, bind, ret, raise.
  destruct (getaddrinfo net host w) as [[e|result] w'].
  - destruct (decide (kind e = KOSError)); reflexivity.
  - exists (unique_ips result). split; [reflexivity|].
    destruct (unique_ips_acc result [] (NoDup_nil_2)) as [Hn He].
    split; [exact Hn|]. intros ip. unfold unique_ips. rewrite He, elem_of_nil. tauto.
Qed.

(** *** Validation *)

Lemma any_private_false ips :
  any_private net ips = false → ∀ ip, ip ∈ ips → _is_private_ip net ip = false.
Proof.
  induction ips as [|x l IH]; simpl; intros H ip Hin.
  - now apply elem_of_nil in Hin.
  - destruct (_is_private_ip net x) eqn:Hx; [discriminate|].
    apply elem_of_cons in Hin as [->|Hin]; [exact Hx | now apply IH].
Qed.

(** X8. A URL that passes [_validate_url] is an http or https URL with a
    domain and a host name that is not blocked, whose lower-cased host
    resolved, in this very validation, to at least one address, none of
    them classified as private; and the message is empty. *)
Theorem validated_url_is_public u w msg w' :
  _validate_url net u w = (inr (true, msg), w') →
  msg = "" ∧
  ∃ p h ips,
    urlparse net u = inr p ∧
    (scheme p = "http" ∨ scheme p = "https") ∧
    netloc p ≠ "" ∧
    hostname p = Some h ∧ h ≠ "" ∧
    (lower net h ∉ BLOCKED_HOSTNAMES) ∧
    _resolve_hostname net (lower net h) w = (inr ips, w') ∧
    ips ≠ [] ∧
    ∀ ip, ip ∈ ips → _is_private_ip net ip = false.
Proof.
  unfold _validate_url, try_except, bind, ret, raise.
  destruct (urlparse net u) as [e|p]; [discriminate|].
  destruct (is_http (scheme p)) eqn:Hs; simpl; [|discriminate].
  destruct (String.eqb_spec (netloc p) "") as [|Hnl]; [discriminate|].
  destruct (hostname p) as [h|] eqn:Hh; [|discriminate].
  destruct (String.eqb_spec h "") as [|Hne]; [discriminate|].
  destruct (bool_decide_reflect (lower net h ∈ BLOCKED_HOSTNAMES)) as [|Hb]; [discriminate|].
  destruct (_resolve_hostname net (lower net h) w) as [[e|ips] w1] eqn:Hr; [discriminate|].
  destruct ips as [|ip0 ips]; [discriminate|].
  destruct (any_private net (ip0 :: ips)) eqn:Hany; [discriminate|].
  intros [= <- <-]. split; [reflexivity|].
  exists p, h, (ip0 :: ips). repeat split; try assumption; try discriminate.
  - unfold is_http in Hs. apply orb_true_iff in Hs as [H|H];
      apply String.eqb_eq in H; auto.
  - apply any_private_false, Hany.
Qed.

(** X9. The only thing a validation does to the world is one look-up of
    the lower-cased host, and only for an http or https URL whose host is
    not blocked: a URL refused for its scheme, its missing host or a
    blocked host name is refused without any look-up. *)
Theorem validation_looks_up_open_hosts_only u w :
  (_validate_url net u w).2 = w ∨
  ∃ p h,
    urlparse net u = inr p ∧
    (scheme p = "http" ∨ scheme p = "https") ∧
    hostname p = Some h ∧
    (lower net h ∉ BLOCKED_HOSTNAMES) ∧
    (_validate_url net u w).2 = (getaddrinfo net (lower net h) w).2.
Proof.
  unfold _validate_url, try_except, bind, ret, raise.
  destruct (urlparse net u) as [e|p] eqn:Hp; [now left|].
  destruct (is_http (scheme p)) eqn:Hs; simpl; [|now left].
  destruct (String.eqb (netloc p) ""); [now left|].
  destruct (hostname p) as [h|] eqn:Hh; [|now left].
  destruct (String.eqb h ""); [now left|].
  destruct (bool_decide_reflect (lower net h ∈ BLOCKED_HOSTNAMES)) as [|Hb]; [now left|].
  right. exists p, h. split; [reflexivity|]. split.
  { unfold is_http in Hs. apply orb_true_iff in Hs as [H|H];
      apply String.eqb_eq in H; auto. }
  split; [exact Hh|]. split; [exact Hb|].
  unfold _resolve_hostname, try_except, bind, ret, raise.
  destruct (getaddrinfo net (lower net h) w) as [[e|result] w1]; simpl.
  - destruct (decide (kind e = KOSError)); reflexivity.
  - destruct (unique_ips result); [reflexivity|].
    destruct (any_private net _); reflexivity.
Qed.

End WebFacts.

(** *** The theorems at the small network *)

Lemma private_ipv4_by_octets_witness :
  _is_private_ip DemoNet.demo_net "10.0.0.7" = true ∧
  _is_private_ip DemoNet.demo_net "93.184.216.34" ≠ true.
Proof.
  split.
  - apply (private_ipv4_by_octets DemoNet.demo_net "10.0.0.7" 10 0 0 7);
      [reflexivity | lia | lia | lia | lia |]. right. left. reflexivity.
  - intros H.
    apply (private_ipv4_by_octets DemoNet.demo_net "93.184.216.34" 93 184 216 34) in H;
      [lia | reflexivity | lia | lia | lia | lia].
Defined.

Lemma private_ipv6_by_range_witness :
  _is_private_ip DemoNet.demo_net "fe80::1" = true.
Proof.
  apply (private_ipv6_by_range DemoNet.demo_net "fe80::1" (v6_lead 0xfe80 + 1));
    [reflexivity | split; [discriminate | reflexivity] |].
  right. right. right. split; [discriminate | reflexivity].
Defined.

Lemma mapped_ipv4_is_not_private_witness :
  _is_private_ip DemoNet.demo_net "10.0.0.7" = true ∧
  _is_private_ip DemoNet.demo_net "::ffff:10.0.0.7" = false.
Proof.
  split; [reflexivity|].
  apply (mapped_ipv4_is_not_private DemoNet.demo_net "::ffff:10.0.0.7" 10 0 0 7);
    [reflexivity | lia | lia | lia | lia].
Defined.

Lemma validated_url_is_public_witness :
  ∃ ips, _resolve_hostname DemoNet.demo_net "loop.example" 0%nat = (inr ips, 1%nat) ∧
         ips ≠ [] ∧ ∀ ip, ip ∈ ips → _is_private_ip DemoNet.demo_net ip = false.
Proof.
  destruct (validated_url_is_public DemoNet.demo_net "http://loop.example/" 0%nat "" 1%nat)
    as (_ & p & h & ips & Hp & _ & _ & Hh & _ & _ & Hr & Hne & Hpub); [reflexivity|].
  injection Hp as <-. injection Hh as <-. exists ips. auto.
Defined.

End WebFacts.

(** ** The fetch tool *)

Module FetchFacts.
Import Web.
Local Open Scope list_scope.



Section FetchFacts.
Context {W : Type} (net : Net W).
Implicit Types (w : W) (st : St W).



Lemma fetch_rec_final d : ∀ u c st r st',
  fetch_rec net d u c st = (inr r, st') → is_redirect r = false.
Proof.
  induction d as [|d IH]; intros u c st r st'; simpl; [discriminate|].
  unfold fetch_body. destruct (c >? MAX_REDIRECTS); [discriminate|].
  unfold bind at 1. destruct (get net u st) as [[e|r0] st1]; [discriminate|].
  destruct (is_redirect r0) eqn:Hred.
  - destruct (location r0) as [target|]; [|discriminate].
    destruct (String.eqb target ""); [discriminate|].
    unfold bind. destruct (validate net target st1) as [[e|v] st2]; [discriminate|].
    destruct (negb v.1); [discriminate|]. apply IH.
  - intros [= <- _]. exact Hred.
Qed.

(** X29. The response [_fetch_with_redirect_validation] returns is never
    one of the redirects it follows (301, 302, 303, 307, 308): a redirect
    is followed, or the fetch raises. *)
Theorem fetch_returns_no_redirect u redirect_count st r st' :
  _fetch_with_redirect_validation net u redirect_count st = (inr r, st') →
  status_code r ∉ [301; 302; 303; 307; 308].
Proof.
  unfold _fetch_with_redirect_validation. intros H. apply fetch_rec_final in H.
  unfold is_redirect in H. now apply bool_decide_eq_false in H.
Qed.

End FetchFacts.

(** *** The theorems at the small network *)


Lemma fetch_returns_no_redirect_witness :
  ∃ r st',
    _fetch_with_redirect_validation DemoNet.demo_net "http://loop.example/page" 0 DemoNet.fresh
    = (inr r, st') ∧ status_code r = 200 ∧ status_code r ∉ [301; 302; 303; 307; 308].
Proof.
  eexists _, _. split; [reflexivity|]. split; [reflexivity|].
  eapply (fetch_returns_no_redirect DemoNet.demo_net "http://loop.example/page" 0
            DemoNet.fresh). reflexivity.
Defined.

End FetchFacts.

(** ** The search tool *)

Module SearchFacts.
Import Search.
Local Open Scope list_scope.

Lemma py_slice_from_0 {A} (l : list A) n :
  0 ≤ n → py_slice l 0 n = take (Z.to_nat n) l.
Proof.
  intros Hn. unfold py_slice, slice_bound.
  change (0 <? 0) with false. cbv iota.
  destruct (Z.ltb_spec n 0) as [|_]; [lia|].
  rewrite (Z.min_l 0) by lia. rewrite Z.sub_0_r. change (Z.to_nat 0) with 0%nat.
  rewrite drop_0.
  destruct (Z.le_gt_cases n (Z.of_nat (length l))) as [Hle|Hgt].
  - now rewrite Z.min_l by lia.
  - rewrite Z.min_r by lia. rewrite Nat2Z.id.
    rewrite !take_ge by lia. reflexivity.
Qed.

Lemma requested_range max_results count : 1 ≤ requested max_results count ≤ 10.
Proof. unfold requested. lia. Qed.

Section SearchFacts.
Context {W : Type} (api : Api W).
Implicit Types (w : W).

(** X12. [WebSearchTool.execute] never raises: a failure of the request or
    an answer of an unexpected shape comes back as a text. *)
Theorem search_never_raises api_key max_results query count w :
  ∃ out w', execute api api_key max_results query count w = (inr out, w').
Proof.
  unfold execute. destruct (String.eqb api_key ""); [unfold ret; eauto|].
  unfold try_except.
  match goal with |- context [match ?c w with _ => _ end] =>
    destruct (c w) as [[e|out] w'] end; unfold ret; eauto.
Qed.

(** X13. The count sent to the search API is always between 1 and 10,
    whatever count the caller asks for and whatever the tool's setting:
    behind a service that refuses any other count the tool does the same. *)
Theorem search_count_is_in_range api_key max_results query count w :
  execute (checked api) api_key max_results query count w
  = execute api api_key max_results query count w.
Proof.
  unfold execute. destruct (String.eqb api_key ""); [reflexivity|].
  unfold try_except, bind. simpl.
  pose proof (requested_range max_results count) as Hr.
  destruct (Z.leb_spec 1 (requested max_results count)); [|lia].
  destruct (Z.leb_spec (requested max_results count) 10); [|lia].
  reflexivity.
Qed.

(** X14. At most ten results are listed, however many the API returns and
    whatever count was asked for. When the API answers with a list of
    results that is not empty, what [WebSearchTool.execute] returns is the
    header and the lines of the first results of that list, as many as were
    requested: at most ten, and no more than the count asked for when that
    is positive; or the error text, when formatting one of these raises. *)
Theorem at_most_ten_results_listed api_key max_results query count w r w1 answer web l :
  api_key ≠ "" →
  search_get api query (requested max_results count) api_key w = (inr r, w1) →
  raise_for_status api r = inr tt →
  Web.json r = inr answer →
  py_get api answer "web" (JDict []) = inr web →
  py_get api web "results" (JList []) = inr (JList l) →
  l ≠ [] →
  ∃ items,
    items `prefix_of` l ∧ (length items ≤ 10)%nat ∧
    length items = Nat.min (length l) (Z.to_nat (requested max_results count)) ∧
    (∀ n, count = Some n → 0 < n → len items ≤ n) ∧
    execute api api_key max_results query count w
    = (inr match result_lines api 1 items ["Results for: " +:+ query +:+ Web.nl] with
           | inr lines => join Web.nl lines
           | inl e => "Error: " +:+ str e
           end, w1).
Proof.
  intros Hkey Hget Hstatus Hjson Hweb Hresults Hl.
  pose proof (requested_range max_results count) as Hr.
  exists (take (Z.to_nat (requested max_results count)) l).
  split; [apply prefix_take|]. rewrite length_take.
  split; [lia|]. split; [lia|]. split.
  { intros n -> Hn. unfold len. rewrite length_take. unfold requested in *.
    destruct (Z.eqb_spec n 0); lia. }
  unfold execute. apply String.eqb_neq in Hkey. rewrite Hkey.
  unfold try_except, bind. rewrite Hget. rewrite Hstatus. cbn [of_result ret].
  rewrite Hjson. cbn [of_result ret]. rewrite Hweb. cbn [of_result ret].
  rewrite Hresults. cbn [of_result ret].
  destruct l as [|item l]; [contradiction|]. cbn [truthy negb sliced of_result ret].
  rewrite py_slice_from_0 by lia.
  destruct (result_lines api 1 _ _) as [e|lines]; reflexivity.
Qed.

End SearchFacts.

(** *** The theorems at the small search service *)

Lemma at_most_ten_results_listed_witness :
  let twelve := List.map DemoSearch.hit [1; 2; 3; 4; 5; 6; 7; 8; 9; 10; 11; 12] in
  ∃ items,
    items `prefix_of` twelve ∧ length items = 10%nat ∧
    execute DemoSearch.demo_api "key" 5 "tea" (Some 50) 0%nat
    = (inr match result_lines DemoSearch.demo_api 1 items
                   ["Results for: " +:+ "tea" +:+ Web.nl] with
           | inr lines => join Web.nl lines
           | inl e => "Error: " +:+ str e
           end, 1%nat).
Proof.
  cbv zeta.
  edestruct (at_most_ten_results_listed DemoSearch.demo_api "key" 5 "tea" (Some 50) 0%nat)
    as (items & Hp & _ & Hlen & _ & Hrun);
    [discriminate | reflexivity | reflexivity | reflexivity | reflexivity | reflexivity
    | discriminate |].
  exists items. split; [exact Hp|]. split; [exact Hlen | exact Hrun].
Defined.

(** The twelve results of the small service, asked for fifty: the first
    ten are listed. *)
Example ten_of_twelve :
  result_lines DemoSearch.demo_api 1
    (List.map DemoSearch.hit [1; 2; 3; 4; 5; 6; 7; 8; 9; 10])
    ["Results for: " +:+ "tea" +:+ Web.nl]
  = inr (["Results for: " +:+ "tea" +:+ Web.nl] ++
         List.map (λ n, pretty n +:+ ". Result " +:+ pretty n +:+ Web.nl +:+
                        "   http://example.com/" +:+ pretty n)
                  [1; 2; 3; 4; 5; 6; 7; 8; 9; 10]) ∧
  (execute DemoSearch.demo_api "key" 5 "tea" (Some 50) 0%nat).1
  = inr (join Web.nl
           (["Results for: " +:+ "tea" +:+ Web.nl] ++
            List.map (λ n, pretty n +:+ ". Result " +:+ pretty n +:+ Web.nl +:+
                           "   http://example.com/" +:+ pretty n)
                     [1; 2; 3; 4; 5; 6; 7; 8; 9; 10])).
Proof. split; vm_compute; reflexivity. Qed.

End SearchFacts.

(** ** Whitespace normalisation *)

Module TextFacts.
Import WebText.

Lemma blank_cases c :
  is_blank c = false → c ≠ space ∧ c ≠ tab.
Proof.
  unfold is_blank. intros H. apply orb_false_iff in H as [H1 H2].
  apply Ascii.eqb_neq in H1, H2. split; assumption.
Qed.

Lemma blanks_collapsed s : ∀ b,
  let o := collapse_blanks b s in
  (∀ i, String.get i o ≠ Some tab) ∧
  (∀ i, ¬ (String.get i o = Some space ∧ String.get (S i) o = Some space)) ∧
  (b = true → String.get 0 o ≠ Some space).
Proof.
  induction s as [|c rest IH]; intros b; simpl.
  { split; [|split]; intros; try discriminate. intros [? _]. discriminate. }
  destruct (is_blank c) eqn:Hc.
  - destruct b.
    + apply IH.
    + destruct (IH true) as (Ht & Hs & H0). split; [|split]; [| |discriminate].
      * intros [|i]; simpl; [discriminate | apply Ht].
      * intros [|i]; simpl; [|apply Hs]. intros [_ H]. now apply H0.
  - destruct (blank_cases c Hc) as [Hsp Htab].
    destruct (IH false) as (Ht & Hs & _). split; [|split].
    + intros [|i]; simpl; [congruence | apply Ht].
    + intros [|i]; simpl; [|apply Hs]. intros [H _]. congruence.
    + intros _. simpl. congruence.
Qed.

Lemma newlines_keep_first s : String.get 0 (collapse_newlines 0 s) = String.get 0 s.
Proof. destruct s as [|c rest]; simpl; [reflexivity|]. destruct (Ascii.eqb c newline); reflexivity. Qed.

(** What [collapse_newlines] keeps was there, and what it drops is a newline
    after a newline. *)
Lemma newlines_subsequence s : ∀ seen i c,
  String.get i (collapse_newlines seen s) = Some c → ∃ j, String.get j s = Some c.
Proof.
  induction s as [|x rest IH]; intros seen i c; simpl; [discriminate|].
  destruct (Ascii.eqb x newline).
  - destruct (seen <? 2)%nat.
    + destruct i as [|i]; simpl; [intros H; now exists 0%nat|].
      intros H. destruct (IH _ _ _ H) as [j Hj]. now exists (S j).
    + intros H. destruct (IH _ _ _ H) as [j Hj]. now exists (S j).
  - destruct i as [|i]; simpl; [intros H; now exists 0%nat|].
    intros H. destruct (IH _ _ _ H) as [j Hj]. now exists (S j).
Qed.

Lemma newlines_keep_pairs s : ∀ seen i,
  String.get i (collapse_newlines seen s) = Some space →
  String.get (S i) (collapse_newlines seen s) = Some space →
  ∃ j, String.get j s = Some space ∧ String.get (S j) s = Some space.
Proof.
  induction s as [|x rest IH]; intros seen i; simpl; [discriminate|].
  destruct (Ascii.eqb_spec x newline) as [->|Hx].
  - destruct (seen <? 2)%nat.
    + destruct i as [|i]; simpl; [discriminate|].
      intros H1 H2. destruct (IH _ _ H1 H2) as (j & Hj1 & Hj2). now exists (S j).
    + intros H1 H2. destruct (IH _ _ H1 H2) as (j & Hj1 & Hj2). now exists (S j).
  - destruct i as [|i]; simpl.
    + rewrite newlines_keep_first. intros H1 H2. now exists 0%nat.
    + intros H1 H2. destruct (IH _ _ H1 H2) as (j & Hj1 & Hj2). now exists (S j).
Qed.

Lemma newlines_collapsed s : ∀ seen,
  let o := collapse_newlines seen s in
  (∀ i, ¬ (String.get i o = Some newline ∧ String.get (S i) o = Some newline ∧
           String.get (S (S i)) o = Some newline)) ∧
  ((1 ≤ seen)%nat → ¬ (String.get 0 o = Some newline ∧ String.get 1 o = Some newline)) ∧
  ((2 ≤ seen)%nat → String.get 0 o ≠ Some newline).
Proof.
  induction s as [|x rest IH]; intros seen; simpl.
  { split; [|split]; intros; try discriminate; intros [? _]; discriminate. }
  destruct (Ascii.eqb_spec x newline) as [->|Hx].
  - destruct (Nat.ltb_spec seen 2) as [Hlt|Hge].
    + destruct (IH (S seen)) as (H3 & H2 & H1). split; [|split].
      * intros [|i]; simpl; [|apply H3]. intros (_ & Ha & Hb). apply H2; [lia | now split].
      * intros Hs. simpl. intros [_ Ha]. apply H1; [lia | exact Ha].
      * lia.
    + destruct (IH (S seen)) as (H3 & H2 & H1). split; [exact H3|]. split.
      * intros _. apply H2. lia.
      * intros _. apply H1. lia.
  - destruct (IH 0%nat) as (H3 & _ & _). split; [|split].
    + intros [|i]; simpl; [|apply H3]. intros [H _]. congruence.
    + intros _. simpl. intros [H _]. congruence.
    + intros _. simpl. congruence.
Qed.

Lemma collapse_normalized txt : normalized (collapse txt).
Proof.
  unfold collapse. intros i.
  destruct (blanks_collapsed txt false) as (Ht & Hs & _).
  destruct (newlines_collapsed (collapse_blanks false txt) 0) as (H3 & _ & _).
  split; [|split].
  - intros H. destruct (newlines_subsequence _ _ _ _ H) as [j Hj]. now apply (Ht j).
  - intros [H1 H2]. destruct (newlines_keep_pairs _ _ _ H1 H2) as (j & Hj). now apply (Hs j).
  - apply H3.
Qed.

Lemma get_some_lt s : ∀ i c, String.get i s = Some c → (i < String.length s)%nat.
Proof.
  induction s as [|x rest IH]; intros i c; simpl; [discriminate|].
  destruct i as [|i]; [lia|]. intros H. apply IH in H. lia.
Qed.

Lemma normalized_infix part s :
  Web.str_in part s = true → normalized s → normalized part.
Proof.
  intros Hin Hs i.
  assert (Hm : ∃ m, ∀ k x, String.get k part = Some x → String.get (k + m) s = Some x).
  { unfold Web.str_in in Hin.
    destruct (String.index 0 part s) as [m|] eqn:Hi; [|discriminate].
    exists m. intros k x Hk. apply String.index_correct1 in Hi.
    rewrite <- (String.substring_correct1 s m (String.length part) k).
    - now rewrite Hi.
    - eapply get_some_lt, Hk. }
  destruct Hm as [m Hm]. destruct (Hs (i + m)%nat) as (Ht & Hp & H3).
  split; [|split].
  - intros H. apply Ht. now apply Hm.
  - intros [H1 H2]. apply Hp. split; [now apply Hm|]. now apply (Hm (S i)).
  - intros (H1 & H2 & H4). apply H3. split; [now apply Hm|].
    split; [now apply (Hm (S i)) | now apply (Hm (S (S i)))].
Qed.

(** X15. The text [_normalize] returns has no tab, no two spaces in a row
    and no three newlines in a row, as long as [strip] returns a part of
    the text it is given. *)
Theorem normalize_is_normalized strip txt :
  Web.str_in (_normalize strip txt) (collapse txt) = true →
  normalized (_normalize strip txt).
Proof.
  intros Hin. eapply normalized_infix; [exact Hin | apply collapse_normalized].
Qed.

Lemma normalize_is_normalized_witness :
  _normalize DemoSearch.ascii_strip
     (String tab (" a  " +:+ String tab (String tab ("b" +:+ String newline
        (String newline (String newline (String newline "c  ")))))))
  = "a b" +:+ String newline (String newline "c") ∧
  normalized (_normalize DemoSearch.ascii_strip
     (String tab (" a  " +:+ String tab (String tab ("b" +:+ String newline
        (String newline (String newline (String newline "c  "))))))))
.
Proof.
  split; [reflexivity|].
  apply normalize_is_normalized. reflexivity.
Defined.

End TextFacts.

(** ** Model identifiers *)

Module PrefixFacts.
Import Prefix.
Local Open Scope list_scope.

Lemma split_first sep s :
  ∃ h t, split sep s = h :: t ∧ occurs sep h = false ∧
         if occurs sep s
         then ∃ rest, s = h +:+ String sep rest ∧ t = split sep rest
         else t = [] ∧ h = s.
Proof.
  induction s as [|c r IH]; simpl.
  { exists "", []. auto. }
  destruct IH as (h & t & Hs & Hh & Hr).
  destruct (Ascii.eqb_spec c sep) as [->|Hc]; simpl.
  - exists "", (split sep r). split; [reflexivity|]. split; [reflexivity|].
    exists r. split; reflexivity.
  - rewrite Hs. exists (String c h), t. split; [reflexivity|]. simpl.
    apply Ascii.eqb_neq in Hc. rewrite Hc. simpl. split; [exact Hh|].
    destruct (occurs sep r).
    + destruct Hr as (rest & -> & ->). exists rest. split; reflexivity.
    + destruct Hr as [-> ->]. split; reflexivity.
Qed.

Lemma split_last sep s : ∀ h t,
  split sep s = h :: t →
  ∃ pre, s = pre +:+ List.last (h :: t) "" ∧
         occurs sep (List.last (h :: t) "") = false ∧
         (t = [] → pre = "") ∧
         (t ≠ [] → ∃ p, pre = p +:+ String sep "").
Proof.
  induction s as [|c r IH]; intros h t; simpl.
  { intros [= <- <-]. exists "". simpl. repeat split; congruence. }
  destruct (Ascii.eqb_spec c sep) as [->|Hc].
  - intros [= <- <-].
    destruct (split sep r) as [|h' t'] eqn:Hs.
    { destruct (split_first sep r) as (? & ? & ? & _). congruence. }
    destruct (IH h' t' eq_refl) as (pre' & Hr & Hl & Hnil & Hcons).
    exists (String sep pre'). split; [|split; [|split]].
    + change (List.last ("" :: h' :: t') "") with (List.last (h' :: t') "").
      rewrite Hr at 1. reflexivity.
    + exact Hl.
    + discriminate.
    + intros _. destruct t' as [|x t''].
      * rewrite Hnil by reflexivity. now exists "".
      * destruct Hcons as [p ->]; [discriminate|]. now exists (String sep p).
  - destruct (split sep r) as [|h' t'] eqn:Hs.
    { destruct (split_first sep r) as (? & ? & ? & _). congruence. }
    intros [= <- <-].
    destruct (IH h' t' eq_refl) as (pre' & Hr & Hl & Hnil & Hcons).
    apply Ascii.eqb_neq in Hc.
    destruct t' as [|x t''].
    + rewrite Hnil in Hr by reflexivity. simpl in Hr, Hl |- *. exists "".
      split; [now rewrite Hr|]. rewrite Hc. simpl. split; [exact Hl|].
      split; [reflexivity | congruence].
    + destruct Hcons as [p Hp]; [discriminate|].
      exists (String c pre'). split; [|split; [|split]].
      * change (List.last (String c h' :: x :: t'') "") with (List.last (h' :: x :: t'') "").
        rewrite Hr at 1. reflexivity.
      * exact Hl.
      * discriminate.
      * intros _. exists (String c p). now rewrite Hp.
Qed.

Lemma split_plain sep a : occurs sep a = false → split sep a = [a].
Proof.
  intros Ha. destruct (split_first sep a) as (h & t & Hs & _ & Hr).
  rewrite Ha in Hr. destruct Hr as [-> ->]. exact Hs.
Qed.

Lemma split_app sep a b :
  occurs sep a = false → split sep (a +:+ String sep b) = a :: split sep b.
Proof.
  induction a as [|c a IH]; simpl; intros Ha.
  - now rewrite Ascii.eqb_refl.
  - apply orb_false_iff in Ha as [Hc Ha]. rewrite Hc, (IH Ha). reflexivity.
Qed.

Lemma occurs_app sep a b : occurs sep (a +:+ String sep b) = true.
Proof.
  induction a as [|c a IH]; simpl.
  - now rewrite Ascii.eqb_refl.
  - rewrite IH. apply orb_true_r.
Qed.

(** X16. The short name of a model identifier is what follows its last
    slash, or all of it when there is none: it holds no slash and the
    identifier ends with it. The provider name is what comes before the
    first slash, and ["unknown"] for an identifier without a slash, whose
    short name is then the identifier itself. *)
Theorem model_id_parts model_full :
  (∃ pre, model_full = pre +:+ get_model_short model_full ∧
          (pre = "" ∨ ∃ p, pre = p +:+ "/")) ∧
  occurs slash (get_model_short model_full) = false ∧
  if occurs slash model_full
  then occurs slash (get_provider_name model_full) = false ∧
       ∃ rest, model_full = get_provider_name model_full +:+ "/" +:+ rest
  else get_provider_name model_full = "unknown" ∧
       get_model_short model_full = model_full.
Proof.
  unfold get_model_short, get_provider_name.
  destruct (split_first slash model_full) as (h & t & Hs & Hh & Hr).
  destruct (split_last slash model_full h t Hs) as (pre & Hm & Hl & Hnil & Hcons).
  rewrite Hs. split; [|split].
  - exists pre. split; [exact Hm|].
    destruct t as [|x t]; [left; now apply Hnil | right; apply Hcons; discriminate].
  - exact Hl.
  - destruct (occurs slash model_full).
    + destruct Hr as (rest & Hrest & _). simpl. split; [exact Hh|]. now exists rest.
    + destruct Hr as [-> ->]. split; reflexivity.
Qed.

(** X17. An identifier put together as provider, slash, model is taken
    apart into the same two names, when neither holds a slash. *)
Theorem provider_and_model_round_trip provider model :
  occurs slash provider = false → occurs slash model = false →
  get_provider_name (provider +:+ "/" +:+ model) = provider ∧
  get_model_short (provider +:+ "/" +:+ model) = model.
Proof.
  intros Hp Hm. unfold get_provider_name, get_model_short.
  change (provider +:+ "/" +:+ model) with (provider +:+ String slash model).
  rewrite occurs_app, split_app, split_plain by assumption. split; reflexivity.
Qed.

Lemma provider_and_model_round_trip_witness :
  get_provider_name "anthropic/claude-opus-4-5" = "anthropic" ∧
  get_model_short "anthropic/claude-opus-4-5" = "claude-opus-4-5".
Proof.
  apply (provider_and_model_round_trip "anthropic" "claude-opus-4-5"); reflexivity.
Defined.

End PrefixFacts.

(** ** Sessions, turns and replies *)

Module AgentFacts.
Import Registry Agent AgentTheory.
Local Open Scope list_scope.
Section AgentFacts.
Context {W : Type} (self : AgentLoop W).
Abbreviation State := (State W).
Implicit Types (st : State) (w : W).

(** *** What the detached jobs leave alone *)

Lemma same_history_refl st : same_history st st.
Proof. split; [lia | auto]. Qed.

Lemma same_history_trans st1 st2 st3 :
  same_history st1 st2 → same_history st2 st3 → same_history st1 st3.
Proof.
  intros [Hn1 H1] [Hn2 H2]. split; [lia|]. intros ref Hr.
  destruct (H1 ref Hr) as [Hk1 Hm1]. destruct (H2 ref ltac:(lia)) as [Hk2 Hm2].
  split; congruence.
Qed.

Lemma kept_refl st : kept st st.
Proof. split; [apply same_history_refl | auto]. Qed.

Lemma kept_trans st1 st2 st3 : kept st1 st2 → kept st2 st3 → kept st1 st3.
Proof.
  intros (H1 & Hc1 & Hd1 & Ho1) (H2 & Hc2 & Hd2 & Ho2).
  split; [eapply same_history_trans; eassumption|]. repeat split; congruence.
Qed.

(** A change that leaves the sessions and the queues as they are. *)
Lemma kept_same st st' :
  heap st' = heap st → next_ref st' = next_ref st → cache st' = cache st →
  disk st' = disk st → outbound st' = outbound st → kept st st'.
Proof.
  intros Hh Hn Hc Hd Ho. split; [|auto]. split; [lia|].
  intros ref _. unfold deref. rewrite Hh. auto.
Qed.

Lemma kept_world st w : kept st (set_world w st).
Proof. now apply kept_same. Qed.

Lemma kept_log st l : kept st (set_log l st).
Proof. now apply kept_same. Qed.

Lemma kept_tasks st t n : kept st (set_tasks t n st).
Proof. now apply kept_same. Qed.

Lemma kept_schedule st s : kept st (set_schedule s st).
Proof. now apply kept_same. Qed.

(** A new object is none of the old ones. *)
Lemma kept_alloc s : preserves kept (alloc (W:=W) s).
Proof.
  intros st. unfold alloc. simpl. split; [|auto]. split; [simpl; lia|].
  intros ref Hr. unfold deref. simpl. rewrite lookup_insert_ne by lia. auto.
Qed.

(** Moving the cursor of an object. *)
Lemma kept_cursor ref n :
  preserves kept (session <- read (W:=W) ref ;; write ref (set_last_consolidated session n))%m.
Proof.
  intros st. unfold bind, read, write, modify. simpl. split; [|auto]. split; [simpl; lia|].
  intros r _. unfold deref. simpl.
  destruct (decide (r = ref)) as [->|Hne].
  - rewrite lookup_insert_eq. simpl. auto.
  - rewrite lookup_insert_ne by congruence. auto.
Qed.

Lemma kept_bind {A B} (c : M State A) (k : A → M State B) :
  preserves kept c → (∀ a, preserves kept (k a)) → preserves kept (bind c k).
Proof. apply (preserves_bind kept kept_trans). Qed.

Lemma kept_emit e : preserves kept (emit (W:=W) e).
Proof. intros st. apply kept_log. Qed.

Lemma kept_on_world {A} (c : M W A) : preserves kept (on_world c).
Proof. apply (preserves_on_world kept kept_world). Qed.

Lemma kept_ret {A} (a : A) : preserves kept (ret (S:=State) a).
Proof. intros st. apply kept_refl. Qed.

Lemma kept_consolidate_begin ref archive_all :
  preserves kept (consolidate_begin self ref archive_all).
Proof. apply (preserves_consolidate_begin self kept kept_refl kept_trans kept_world). Qed.

Lemma kept_consolidate_end p response :
  preserves kept (consolidate_end self p response).
Proof.
  unfold consolidate_end.
  destruct (String.eqb _ ""); [apply kept_emit|].
  apply kept_bind; [intros st; destruct (json_repair_loads self _); apply kept_refl|].
  intros result. destruct result; try apply kept_emit.
  apply kept_bind.
  { destruct (dict_get d "history_entry") as [entry|]; [|apply kept_ret].
    destruct (truthy entry); [apply kept_on_world | apply kept_ret]. }
  intros _. apply kept_bind.
  { destruct (dict_get d "memory_update") as [update|]; [|apply kept_ret].
    destruct (_ && _); [apply kept_on_world | apply kept_ret]. }
  intros _. intros st. unfold bind, read, write, modify. simpl.
  apply (kept_cursor (p_session p) _ st).
Qed.

Lemma kept_consolidate_resume p : preserves kept (consolidate_resume self p).
Proof.
  unfold consolidate_resume.
  apply (preserves_try kept kept_trans); [|intros e; apply kept_emit].
  apply kept_bind; [|intros r; apply kept_consolidate_end].
  intros st. unfold consolidation_chat.
  destruct (provider_chat self (consolidation_request p) [] (world st)) as [answer w].
  simpl. now apply kept_same.
Qed.

Lemma kept_advance t : preserves kept (advance self t).
Proof.
  destruct t as [ref|ref ms|p]; simpl.
  - apply kept_consolidate_begin.
  - apply kept_bind; [intros st; apply kept_refl|]. intros s.
    apply kept_bind; [apply kept_alloc|]. intros r. apply kept_consolidate_begin.
  - apply kept_bind; [apply kept_consolidate_resume|]. intros _. apply kept_ret.
Qed.

Lemma kept_step_task st id : kept st (step_task self id st).
Proof.
  unfold step_task. destruct (tasks st !! id) as [t|]; [|apply kept_refl].
  pose proof (kept_advance t st) as Ha.
  destruct (advance self t st) as [[e|[p|]] st1]; simpl in Ha;
    (eapply kept_trans; [exact Ha|]); try apply kept_tasks.
  eapply kept_trans; [apply kept_log | apply kept_tasks].
Qed.

(** X18. Whatever detached jobs the event loop runs at a suspension, in
    whatever order, no session object is lost and each keeps its key and
    its messages; the cache of the store, the saved sessions and the
    outbound queue are as before. A job only moves cursors, and a session
    it makes is a new object. *)
Theorem jobs_keep_sessions st : kept st (yield_point self st).2.
Proof.
  apply (turn_yield_point self kept kept_refl kept_trans kept_schedule kept_step_task).
Qed.

(** *** What a turn leaves alone *)

Lemma sent_refl st : kept_but_sent st st.
Proof. split; [apply same_history_refl | auto]. Qed.

Lemma sent_trans st1 st2 st3 :
  kept_but_sent st1 st2 → kept_but_sent st2 st3 → kept_but_sent st1 st3.
Proof.
  intros (H1 & Hc1 & Hd1 & Ho1) (H2 & Hc2 & Hd2 & Ho2).
  split; [eapply same_history_trans; eassumption|].
  split; [congruence|]. split; [congruence|]. etrans; eassumption.
Qed.

Lemma kept_sent st st' : kept st st' → kept_but_sent st st'.
Proof.
  intros (H & Hc & Hd & Ho). split; [exact H|]. split; [exact Hc|]. split; [exact Hd|].
  now rewrite Ho.
Qed.

(** What a tool sends is queued after what was there. *)
Lemma sent_queued st sent : kept_but_sent st (set_outbound (outbound st ++ sent) st).
Proof.
  split; [split; [simpl; lia | intros ref _; split; reflexivity]|].
  split; [reflexivity|]. split; [reflexivity|].
  simpl. now apply prefix_app_r.
Qed.

Lemma sent_loop_rec n msgs iteration used :
  preserves kept_but_sent (loop_rec self n msgs iteration used).
Proof.
  apply (turn_loop_rec self kept_but_sent sent_refl sent_trans).
  - intros st w. apply kept_sent, kept_world.
  - intros st s. apply kept_sent, kept_schedule.
  - intros st a. apply kept_sent, kept_log.
  - intros st id. apply kept_sent, kept_step_task.
  - apply sent_queued.
Qed.

Lemma sent_run_agent_loop msgs st : kept_but_sent st (_run_agent_loop self msgs st).2.
Proof. apply sent_loop_rec. Qed.

(** X19. The iteration loop, with the provider calls, the tool calls and
    the detached jobs that run while it waits, leaves every session with
    the key and the messages it had and the store as it was: a turn writes
    its two records only after the loop. The outbound queue holds what it
    held, in front of whatever the tools have sent through the bus. *)
Theorem loop_keeps_sessions msgs st : kept_but_sent st (_run_agent_loop self msgs st).2.
Proof. apply sent_loop_rec. Qed.

(** *** The iteration loop *)

Lemma await_runs {A} (c : M State A) st : await self c st = c (yield_point self st).2.
Proof.
  unfold await, bind. destruct (yield_point_returns self st) as (st0 & ->). reflexivity.
Qed.

(** A tool call raises only what the validator of the tool raised. *)
Lemma on_tools_raises nm params st e st' :
  on_tools (execute (tools self) nm params) st = (inl e, st') →
  ∃ tool, get (tools self) nm = Some tool ∧ validate_params tool params = inl e.
Proof.
  unfold on_tools.
  destruct (RegistryTheory.execute_cases (tools self) nm params (world st, []))
    as [(out & [w' sent] & ->)|(tool & e' & Hget & Hv & ->)]; [discriminate|].
  intros [= <- _]. eauto.
Qed.

Lemma ran_length calls st results st' :
  ran self calls st results st' → length results = length calls.
Proof. induction 1; simpl; congruence. Qed.

Lemma run_tool_calls_run calls : ∀ msgs used st,
  match run_tool_calls self calls msgs used st with
  | (inr (msgs', used'), st') =>
      ∃ results,
        ran self calls st results st' ∧
        msgs' = msgs ++ tool_results calls results ∧
        used' = used ++ List.map tc_name calls
  | (inl e, st') =>
      ∃ front tc rest results st1,
        calls = front ++ tc :: rest ∧
        ran self front st results st1 ∧
        on_tools (execute (tools self) (tc_name tc) (tc_arguments tc)) (yield_point self st1).2
        = (inl e, st') ∧
        ∃ tool, get (tools self) (tc_name tc) = Some tool ∧
                validate_params tool (tc_arguments tc) = inl e
  end.
Proof.
  induction calls as [|tc calls IH]; intros msgs used st; simpl.
  { exists []. rewrite !app_nil_r. split; [constructor | auto]. }
  unfold bind. rewrite await_runs.
  destruct (on_tools (execute (tools self) (tc_name tc) (tc_arguments tc))
                     (yield_point self st).2) as [[e|result] st1] eqn:Hcall.
  { exists [], tc, calls, [], st. split; [reflexivity|]. split; [constructor|].
    split; [exact Hcall|]. eapply on_tools_raises, Hcall. }
  specialize (IH (add_tool_result msgs (tc_id tc) (tc_name tc) result)
                 (used ++ [tc_name tc]) st1).
  destruct (run_tool_calls self calls _ _ st1) as [[e|[msgs' used']] st2].
  - destruct IH as (front & tc' & rest & results & st3 & -> & Hran & Hraise & Hv).
    exists (tc :: front), tc', rest, (result :: results), st3.
    split; [reflexivity|]. split; [|split; assumption].
    econstructor; eassumption.
  - destruct IH as (results & Hran & -> & ->).
    exists (result :: results). split; [econstructor; eassumption|].
    unfold add_tool_result. simpl. rewrite <- !app_assoc. auto.
Qed.

(** X20. The tool calls of an answer are run in their order, each at a
    suspension of the loop and through [ToolRegistry.execute]. When all
    return, each has added one tool-result turn with the id and the name of
    its call and the text [execute] returned for it, after the turns that
    were there, and the names of the calls are added, in order, to the
    tools used. The calls raise only when [execute] raises on one of them,
    which is when the validator of its tool raises; the calls before it
    were run, the ones after it are not. *)
Theorem tool_results_follow_calls calls msgs used st :
  match run_tool_calls self calls msgs used st with
  | (inr (msgs', used'), st') =>
      ∃ results,
        ran self calls st results st' ∧
        length results = length calls ∧
        msgs' = msgs ++ tool_results calls results ∧
        used' = used ++ List.map tc_name calls
  | (inl e, st') =>
      ∃ front tc rest results st1,
        calls = front ++ tc :: rest ∧
        ran self front st results st1 ∧
        on_tools (execute (tools self) (tc_name tc) (tc_arguments tc)) (yield_point self st1).2
        = (inl e, st') ∧
        ∃ tool, get (tools self) (tc_name tc) = Some tool ∧
                validate_params tool (tc_arguments tc) = inl e
  end.
Proof.
  pose proof (run_tool_calls_run calls msgs used st) as H.
  destruct (run_tool_calls self calls msgs used st) as [[e|[msgs' used']] st']; [exact H|].
  destruct H as (results & Hran & Hm & Hu). exists results.
  split; [exact Hran|]. split; [eapply ran_length, Hran | auto].
Qed.

Lemma ran_chats calls st results st' :
  ran self calls st results st' → loop_chats (log st') = loop_chats (log st).
Proof.
  induction 1 as [|tc calls st result st1 results st2 Hcall _ IH]; [reflexivity|].
  rewrite IH. unfold on_tools in Hcall.
  destruct (execute _ _ _ _) as [r [w sent]]. injection Hcall as _ <-. simpl.
  destruct (quiet_yield_point self st) as ([] & st0 & Hy & H0). now rewrite Hy.
Qed.

Lemma loop_rec_result n : ∀ msgs iteration used st,
  ∃ added,
    loop_chats (log (loop_rec self n msgs iteration used st).2)
    = loop_chats (log st) ++ added ∧
    match (loop_rec self n msgs iteration used st).1 with
    | inr (c, used') =>
        used' = used ++ concat (List.map called added) ∧
        ((Forall asks_for_tools added ∧ c = None) ∨
         ∃ front response,
           added = front ++ [inr response] ∧ Forall asks_for_tools front ∧
           has_tool_calls response = false ∧ c = r_content response)
    | inl e =>
        (∃ front, added = front ++ [inl e] ∧ Forall asks_for_tools front) ∨
        (Forall asks_for_tools added ∧ added ≠ [] ∧ validator_raised self e)
    end.
Proof.
  induction n as [|n IH]; intros msgs iteration used st; simpl.
  { exists []. rewrite !app_nil_r. split; [reflexivity|]. split; [reflexivity|].
    left. split; [constructor | reflexivity]. }
  unfold loop_body.
  destruct (iteration <? max_iterations self).
  2:{ exists []. simpl. rewrite !app_nil_r. split; [reflexivity|]. split; [reflexivity|].
      left. split; [constructor | reflexivity]. }
  unfold bind.
  destruct (loop_chat_spec self msgs st) as (answer & st1 & Hchat & H1). rewrite Hchat.
  destruct answer as [e|response].
  { exists [inl e]. simpl. split; [exact H1|]. left. exists [].
    split; [reflexivity | constructor]. }
  destruct (has_tool_calls response) eqn:Htc.
  2:{ exists [inr response]. simpl. split; [exact H1|]. rewrite Htc. simpl.
      rewrite app_nil_r. split; [reflexivity|]. right. exists [], response.
      split; [reflexivity|]. split; [constructor|]. split; [exact Htc | reflexivity]. }
  assert (Hask : asks_for_tools (inr response)) by (exists response; auto).
  pose proof (run_tool_calls_spec self (tool_calls response)
                (add_assistant_message msgs (r_content response)
                   (List.map (tool_call_dict self) (tool_calls response))
                   (reasoning_content response)) used st1) as [H2 Hraise].
  pose proof (run_tool_calls_run (tool_calls response)
                (add_assistant_message msgs (r_content response)
                   (List.map (tool_call_dict self) (tool_calls response))
                   (reasoning_content response)) used st1) as Htools.
  cbv zeta in H2, Hraise.
  destruct (run_tool_calls self (tool_calls response) _ used st1)
    as [[e|[msgs' used']] st2]; cbn [fst snd] in *.
  { exists [inr response]. split; [now rewrite H2|]. right.
    split; [now constructor|]. split; [discriminate | exact Hraise]. }
  destruct Htools as (results & _ & _ & ->).
  match goal with |- context [loop_rec self n ?m ?i ?u st2] =>
    destruct (IH m i u st2) as (added & Ha & Hres);
    destruct (loop_rec self n m i u st2) as [r st3]
  end. cbn [fst snd] in *.
  exists (inr response :: added). split.
  { rewrite Ha, H2, H1, <- app_assoc. reflexivity. }
  destruct r as [e|[c used']].
  - destruct Hres as [(front & -> & HF)|(HF & _ & Hv)].
    + left. exists (inr response :: front). split; [reflexivity | now constructor].
    + right. split; [now constructor|]. split; [discriminate | exact Hv].
  - destruct Hres as [-> Hc]. split.
    + simpl. rewrite Htc. now rewrite app_assoc.
    + destruct Hc as [[HF ->]|(front & r' & -> & HF & Hh & ->)].
      * left. split; [now constructor | reflexivity].
      * right. exists (inr response :: front), r'.
        split; [reflexivity|]. split; [now constructor|]. auto.
Qed.

(** X21. What the iteration loop returns, by the answers of the provider
    in this run: the tools used are the names of all tool calls of the
    answers, in order; the content is that of the first answer that asks
    for no tool, which is the last call made, or nothing when every answer
    asked for tools. The loop raises what the provider raised, at its last
    call, or what the validator of a tool raised, after an answer that
    asked for tools; nothing else. *)
Theorem loop_result msgs st :
  ∃ added,
    loop_chats (log (_run_agent_loop self msgs st).2) = loop_chats (log st) ++ added ∧
    match (_run_agent_loop self msgs st).1 with
    | inr (c, used) =>
        used = concat (List.map called added) ∧
        ((Forall asks_for_tools added ∧ c = None) ∨
         ∃ front response,
           added = front ++ [inr response] ∧ Forall asks_for_tools front ∧
           has_tool_calls response = false ∧ c = r_content response)
    | inl e =>
        (∃ front, added = front ++ [inl e] ∧ Forall asks_for_tools front) ∨
        (Forall asks_for_tools added ∧ added ≠ [] ∧ validator_raised self e)
    end.
Proof.
  unfold _run_agent_loop, while_loop.
  apply (loop_rec_result _ msgs 0 [] st).
Qed.

(** *** Turns *)

Lemma deref_written st h n ref s :
  deref (set_heap (<[ref := s]> h) n st) ref = s.
Proof. unfold deref. simpl. now rewrite lookup_insert_eq. Qed.

(** What the store answers with is the session [stored] names, as an
    object that exists. *)
Lemma get_or_create_stored k st :
  cache_ok st →
  ∃ ref st1,
    get_or_create k st = (inr ref, st1) ∧
    cache st1 !! k = Some ref ∧ (ref < next_ref st1)%nat ∧
    deref st1 ref = stored st k ∧ outbound st1 = outbound st.
Proof.
  intros Hok. unfold get_or_create, stored, bind, get_state, alloc, modify, ret.
  destruct (cache st !! k) as [ref|] eqn:Hc.
  - exists ref, st. repeat split; try assumption. eapply Hok, Hc.
  - eexists _, _. split; [reflexivity|]. simpl. rewrite lookup_insert_eq.
    split; [reflexivity|]. split; [lia|]. split; [|reflexivity].
    unfold deref. simpl. now rewrite lookup_insert_eq.
Qed.

(** The end of a turn: the two records are added to the session, which is
    then saved. *)
Lemma records_written ref ucontent final tu (out : OutboundMessage) st :
  ∃ st' u a,
    (session_add_message self ref "user" ucontent None ;;;
     session_add_message self ref "assistant" final tu ;;;
     save ref ;;; ret (Some out))%m st = (inr (Some out), st') ∧
    messages (deref st' ref) = messages (deref st ref) ++ [u; a] ∧
    said_by u = ("user", ucontent, None) ∧
    said_by a = ("assistant", final, tu) ∧
    key (deref st' ref) = key (deref st ref) ∧
    disk st' !! key (deref st' ref) = Some (deref st' ref) ∧
    cache st' = cache st ∧ outbound st' = outbound st.
Proof.
  set (st1 := set_heap (<[ref := say self (deref st ref) "user" ucontent None st]> (heap st))
                       (next_ref st) st).
  set (st2 := set_heap (<[ref := say self (deref st1 ref) "assistant" final tu st1]> (heap st1))
                       (next_ref st1) st1).
  set (st3 := set_disk (<[key (deref st2 ref) := deref st2 ref]> (disk st2)) st2).
  assert (H1 : deref st1 ref = say self (deref st ref) "user" ucontent None st)
    by apply deref_written.
  assert (H2 : deref st2 ref = say self (deref st1 ref) "assistant" final tu st1)
    by apply deref_written.
  assert (H3 : deref st3 ref = deref st2 ref) by reflexivity.
  exists st3, {| role := "user"; m_content := ucontent; tools_used := None;
                 timestamp := Some (clock self (world st)) |},
         {| role := "assistant"; m_content := final; tools_used := tu;
            timestamp := Some (clock self (world st1)) |}.
  split; [reflexivity|].
  split; [rewrite H3, H2, H1; unfold say, add_message; cbn [messages];
          now rewrite <- app_assoc|].
  split; [reflexivity|]. split; [reflexivity|].
  split; [now rewrite H3, H2, H1|].
  split; [|split; reflexivity].
  rewrite H3. apply lookup_insert_eq.
Qed.

Lemma set_tool_context_heap ch cid st :
  ∃ st', _set_tool_context self ch cid st = (inr tt, st') ∧
         heap st' = heap st ∧ next_ref st' = next_ref st ∧ cache st' = cache st ∧
         disk st' = disk st ∧ outbound st' = outbound st.
Proof.
  unfold _set_tool_context, modify. simpl. eexists. split; [reflexivity|].
  repeat (destruct (has (tools self) _)); simpl; auto.
Qed.

(** A turn that is neither a command nor a system message. *)
Lemma normal_turn msg session_key_arg st :
  channel msg ≠ "system" →
  lower self (strip self (content msg)) ≠ "/new" →
  lower self (strip self (content msg)) ≠ "/help" →
  cache_ok st →
  ∃ r st',
    _process_message self msg session_key_arg st = (r, st') ∧
    ∀ reply, r = inr reply →
      ∃ out ref u a,
        reply = Some out ∧
        o_channel out = channel msg ∧ o_chat_id out = chat_id msg ∧
        o_metadata out = metadata msg ∧
        cache st' !! turn_key msg session_key_arg = Some ref ∧
        messages (deref st' ref)
        = messages (stored st (turn_key msg session_key_arg)) ++ [u; a] ∧
        said_by u = ("user", content msg, None) ∧
        role a = "assistant" ∧ m_content a = o_content out ∧
        key (deref st' ref) = key (stored st (turn_key msg session_key_arg)) ∧
        disk st' !! key (deref st' ref) = Some (deref st' ref).
Proof.
  intros Hsys Hnew Hhelp Hok. unfold _process_message.
  destruct (String.eqb_spec (channel msg) "system") as [|_]; [contradiction|].
  destruct (String.eqb_spec (lower self (strip self (content msg))) "/new") as [|_];
    [contradiction|].
  destruct (String.eqb_spec (lower self (strip self (content msg))) "/help") as [|_];
    [contradiction|].
  cbv zeta. unfold bind at 1.
  destruct (get_or_create_stored (turn_key msg session_key_arg) st Hok)
    as (ref & st1 & -> & Hc1 & Hr1 & Hd1 & Ho1).
  unfold bind at 1. unfold read at 1.
  unfold bind at 1.
  assert (Hspawn : ∃ st2,
             (if len (messages (deref st1 ref)) >? memory_window self
              then create_task (W:=W) (ConsolidateTask ref) else ret tt) st1 = (inr tt, st2) ∧
             heap st2 = heap st1 ∧ next_ref st2 = next_ref st1 ∧ cache st2 = cache st1 ∧
             disk st2 = disk st1 ∧ outbound st2 = outbound st1).
  { destruct (_ >? _); eexists; (split; [reflexivity|]); simpl; auto. }
  destruct Hspawn as (st2 & -> & Hh2 & Hn2 & Hc2 & Hd2 & Ho2).
  unfold bind at 1.
  destruct (set_tool_context_heap (channel msg) (chat_id msg) st2)
    as (st3 & -> & Hh3 & Hn3 & Hc3 & Hd3 & Ho3).
  unfold bind at 1. unfold read at 1. unfold bind at 1. unfold get_state at 1.
  unfold bind at 1.
  match goal with |- context [_run_agent_loop self ?m st3] =>
    pose proof (sent_run_agent_loop m st3) as Hk;
    destruct (_run_agent_loop self m st3) as [[e|fu] st4]
  end; cbn [snd] in Hk; destruct Hk as ([Hn4 Hs4] & Hc4 & Hd4 & Ho4).
  { eexists _, _. split; [reflexivity|]. discriminate. }
  match goal with |- context [(session_add_message self ref "user" ?uc None ;;; session_add_message self ref "assistant" ?fin ?tu ;;; save ref ;;; ret (Some ?out))%m st4] =>
    destruct (records_written ref uc fin tu out st4)
      as (st5 & u & a & Hrun & Hm5 & Hu & Ha & Hk5 & Hdisk5 & Hc5 & Ho5)
  end.
  rewrite Hrun. eexists _, _. split; [reflexivity|].
  intros reply [= <-]. eexists _, ref, u, a. split; [reflexivity|]. simpl.
  assert (Href : (ref < next_ref st3)%nat) by lia.
  destruct (Hs4 ref Href) as [Hkey Hmsg].
  assert (Hd3' : deref st3 ref = stored st (turn_key msg session_key_arg)).
  { rewrite <- Hd1. unfold deref. now rewrite Hh3, Hh2. }
  split; [reflexivity|]. split; [reflexivity|]. split; [reflexivity|].
  split; [congruence|].
  split; [now rewrite Hm5, Hmsg, Hd3'|].
  split; [exact Hu|].
  injection Ha as Hrole Hcontent _.
  split; [exact Hrole|]. split; [exact Hcontent|].
  split; [now rewrite Hk5, Hkey, Hd3' | exact Hdisk5].
Qed.

Lemma stored_cached st k ref : cache st !! k = Some ref → stored st k = deref st ref.
Proof. intros H. unfold stored. now rewrite H. Qed.

(** X22. A turn that is neither a command nor a system message, when it
    returns, has added exactly two records to the session of its key,
    after the ones that were there: the user's text and then the reply it
    returns; and the session is saved as it then is. No job running in
    between changes that. *)
Theorem turn_records_request_and_reply msg session_key_arg st reply st' :
  channel msg ≠ "system" →
  lower self (strip self (content msg)) ≠ "/new" →
  lower self (strip self (content msg)) ≠ "/help" →
  cache_ok st →
  _process_message self msg session_key_arg st = (inr reply, st') →
  let k := turn_key msg session_key_arg in
  ∃ out u a,
    reply = Some out ∧
    messages (stored st' k) = messages (stored st k) ++ [u; a] ∧
    said_by u = ("user", content msg, None) ∧
    role a = "assistant" ∧ m_content a = o_content out ∧
    key (stored st' k) = key (stored st k) ∧
    disk st' !! key (stored st' k) = Some (stored st' k).
Proof.
  intros Hsys Hnew Hhelp Hok Hrun k.
  destruct (normal_turn msg session_key_arg st Hsys Hnew Hhelp Hok)
    as (r & st1 & Hr & Hres).
  rewrite Hrun in Hr. injection Hr as <- <-.
  destruct (Hres reply eq_refl)
    as (out & ref & u & a & -> & _ & _ & _ & Hc & Hm & Hu & Hrole & Hcont & Hk & Hd).
  exists out, u, a. subst k. rewrite (stored_cached _ _ _ Hc). auto 10.
Qed.

(** X23. [process_direct] returns the text it has recorded: outside the
    commands and the system channel, when it returns, the session of its
    key has two more records, the text given and the text returned. The
    session is the one of [session_key], or of the channel and chat id when
    the key is empty. *)
Theorem direct_reply_is_recorded text session_key_arg ch cid st answer st' :
  ch ≠ "system" →
  lower self (strip self text) ≠ "/new" →
  lower self (strip self text) ≠ "/help" →
  cache_ok st →
  process_direct self text session_key_arg ch cid st = (inr answer, st') →
  let k := if String.eqb session_key_arg "" then ch +:+ ":" +:+ cid else session_key_arg in
  ∃ u a,
    messages (stored st' k) = messages (stored st k) ++ [u; a] ∧
    said_by u = ("user", text, None) ∧
    role a = "assistant" ∧ m_content a = answer.
Proof.
  intros Hsys Hnew Hhelp Hok Hrun k. unfold process_direct, bind in Hrun.
  match type of Hrun with context [_process_message self ?m ?ka st] =>
    destruct (normal_turn m ka st Hsys Hnew Hhelp Hok) as (r & st1 & Hr & Hres)
  end.
  rewrite Hr in Hrun. destruct r as [e|reply]; [discriminate|].
  destruct (Hres reply eq_refl)
    as (out & ref & u & a & -> & _ & _ & _ & Hc & Hm & Hu & Hrole & Hcont & _).
  injection Hrun as <- <-. exists u, a.
  unfold turn_key, session_key in Hc, Hm. simpl in Hc, Hm. fold k in Hc, Hm.
  rewrite (stored_cached _ _ _ Hc). auto.
Qed.

(** *** Replies *)

Lemma bind_returns {A B} (P : B → Prop) (c : M State A) (k : A → M State B) :
  (∀ a st r st', k a st = (inr r, st') → P r) →
  ∀ st r st', bind c k st = (inr r, st') → P r.
Proof.
  intros Hk st r st'. unfold bind. destruct (c st) as [[e|a] st1]; [discriminate|].
  apply Hk.
Qed.

Lemma ret_returns {A} (P : A → Prop) (a : A) :
  P a → ∀ st r st', ret a st = (inr r, st') → P r.
Proof. intros Ha st r st' [= <- _]. exact Ha. Qed.

(** Every path of [_process_message] that returns, returns a reply; outside
    the system channel it is addressed to where the message came from. *)
Lemma process_message_replies msg session_key_arg st reply st' :
  _process_message self msg session_key_arg st = (inr reply, st') →
  ∃ out, reply = Some out ∧
         (channel msg ≠ "system" →
          o_channel out = channel msg ∧ o_chat_id out = chat_id msg).
Proof.
  revert st reply st'. unfold _process_message.
  destruct (String.eqb_spec (channel msg) "system") as [Hsys|Hsys].
  - unfold _process_system_message.
    destruct (match colon_split (chat_id msg) with
              | Some parts => parts
              | None => ("cli", chat_id msg)
              end) as [origin_channel origin_chat_id].
    repeat (apply bind_returns; intros ?).
    apply ret_returns. eexists. split; [reflexivity|]. intros; contradiction.
  - cbv zeta. apply bind_returns. intros ref.
    destruct (String.eqb _ "/new").
    { repeat (apply bind_returns; intros ?).
      apply ret_returns. eexists. split; [reflexivity|]. auto. }
    destruct (String.eqb _ "/help").
    { apply ret_returns. eexists. split; [reflexivity|]. auto. }
    repeat (apply bind_returns; intros ?).
    apply ret_returns. eexists. split; [reflexivity|]. auto.
Qed.

(** A turn queues nothing but what its tools send. *)
Lemma process_message_outbound msg session_key_arg st :
  outbound st `prefix_of` outbound (_process_message self msg session_key_arg st).2.
Proof.
  apply (turn_process_message self (λ s s', outbound s `prefix_of` outbound s'));
    try reflexivity.
  - intros s1 s2 s3 H12 H23. etrans; eassumption.
  - intros s id. destruct (kept_step_task s id) as (_ & _ & _ & ->). reflexivity.
  - intros s sent. simpl. now apply prefix_app_r.
Qed.

(** X24. Every message the run loop takes from the bus is answered with
    exactly one outbound message, whatever the processing does: the reply
    the turn returned, or the apology when the turn raised. It is queued
    last, after what the queue held and what the tools of the turn sent
    through the bus; the jobs that run meanwhile queue nothing. Outside the
    system channel the message goes to the channel and chat it came from. *)
Theorem every_message_gets_one_reply st msg w1 :
  consume_inbound self (world (yield_point self st).2) = (inr msg, w1) →
  let turn := _process_message self msg None (set_world w1 (yield_point self st).2) in
  ∃ out st3,
    run_iteration self st = (inr tt, st3) ∧
    outbound st `prefix_of` outbound turn.2 ∧
    outbound st3 = outbound turn.2 ++ [out] ∧
    match turn.1 with
    | inr reply => reply = Some out
    | inl e =>
        out = {| o_channel := channel msg; o_chat_id := chat_id msg;
                 o_content := "Sorry, I encountered an internal error. Please try again.";
                 o_metadata := [] |}
    end ∧
    (channel msg ≠ "system" →
     o_channel out = channel msg ∧ o_chat_id out = chat_id msg).
Proof.
  intros Hbus. cbv zeta.
  unfold run_iteration, try_except, await. unfold bind at 1 2. unfold on_world.
  pose proof (yield_point_outbound self st) as Ho0.
  destruct (yield_point_returns self st) as (st0 & Hy). rewrite Hy in Hbus, Ho0 |- *.
  cbn [snd] in Hbus, Ho0 |- *. rewrite Hbus.
  unfold process_and_publish, bind.
  pose proof (process_message_outbound msg None (set_world w1 st0)) as Ho2.
  pose proof (process_message_replies msg None (set_world w1 st0)) as Hshape.
  change (outbound (set_world w1 st0)) with (outbound st0) in Ho2. rewrite Ho0 in Ho2.
  destruct (_process_message self msg None (set_world w1 st0)) as [[e|reply] st2];
    cbn [fst snd] in Ho2 |- *.
  - destruct (apology_published self msg e st2) as (st3 & -> & Ho3 & _).
    exists (apology msg), st3. split; [reflexivity|].
    split; [exact Ho2|]. split; [exact Ho3|]. split; [reflexivity | auto].
  - destruct (Hshape reply st2 eq_refl) as (out & -> & Haddr).
    pose proof (yield_point_outbound self st2) as Ho3.
    unfold await, bind.
    destruct (yield_point_returns self st2) as (st3 & Hy3). rewrite Hy3 in Ho3 |- *.
    cbn [snd] in Ho3. unfold publish_outbound, modify.
    eexists out, _. split; [reflexivity|]. simpl.
    split; [exact Ho2|]. split; [now rewrite Ho3|]. split; [reflexivity | exact Haddr].
Qed.

(** *** System messages *)

Lemma index_colon_cons c rest :
  String.index 0 ":" (String c rest)
  = if Ascii.eqb c ":" then Some 0%nat
    else match String.index 0 ":" rest with Some n => Some (S n) | None => None end.
Proof.
  cbn [String.index String.prefix].
  destruct (Ascii.ascii_dec ":" c) as [<-|Hc].
  - rewrite Ascii.eqb_refl. destruct rest; reflexivity.
  - destruct (Ascii.eqb_spec c ":") as [->|_]; [contradiction | reflexivity].
Qed.

Lemma index_colon a b :
  String.index 0 ":" a = None →
  String.index 0 ":" (a +:+ ":" +:+ b) = Some (String.length a).
Proof.
  induction a as [|c a IH].
  - intros _. change ("" +:+ ":" +:+ b) with (String ":" b).
    rewrite index_colon_cons. reflexivity.
  - change (String c a +:+ ":" +:+ b) with (String c (a +:+ ":" +:+ b)).
    rewrite !index_colon_cons. destruct (Ascii.eqb c ":"); [discriminate|].
    destruct (String.index 0 ":" a); [discriminate|]. intros _.
    now rewrite IH.
Qed.

Lemma substring_whole s : String.substring 0 (String.length s) s = s.
Proof. induction s as [|c s IH]; simpl; [reflexivity | now rewrite IH]. Qed.

Lemma substring_app_head a s : String.substring 0 (String.length a) (a +:+ s) = a.
Proof.
  induction a as [|c a IH]; simpl; [destruct s; reflexivity | now rewrite IH].
Qed.

Lemma substring_after_colon a b :
  String.substring (S (String.length a))
                   (String.length (a +:+ ":" +:+ b) - S (String.length a))
                   (a +:+ ":" +:+ b) = b.
Proof.
  induction a as [|c a IH].
  - change ("" +:+ ":" +:+ b) with (String ":" b). cbn [String.length String.substring].
    rewrite Nat.sub_succ, Nat.sub_0_r. apply substring_whole.
  - change (String c a +:+ ":" +:+ b) with (String c (a +:+ ":" +:+ b)).
    cbn [String.length String.substring]. rewrite Nat.sub_succ. exact IH.
Qed.

(** The split is at the first colon. *)
Lemma colon_split_first a b :
  Web.str_in ":" a = false → colon_split (a +:+ ":" +:+ b) = Some (a, b).
Proof.
  unfold Web.str_in, colon_split. intros Ha.
  rewrite index_colon by (destruct (String.index 0 ":" a); [discriminate | reflexivity]).
  now rewrite substring_app_head, substring_after_colon.
Qed.

(** A system message, by the origin read from its chat id. *)
Lemma system_turn msg origin_channel origin_chat_id st :
  match colon_split (chat_id msg) with
  | Some parts => parts
  | None => ("cli", chat_id msg)
  end = (origin_channel, origin_chat_id) →
  cache_ok st →
  ∃ r st',
    _process_system_message self msg st = (r, st') ∧
    ∀ reply, r = inr reply →
      ∃ out u a,
        reply = Some out ∧
        o_channel out = origin_channel ∧ o_chat_id out = origin_chat_id ∧
        let k := origin_channel +:+ ":" +:+ origin_chat_id in
        messages (stored st' k) = messages (stored st k) ++ [u; a] ∧
        said_by u = ("user", "[System: " +:+ sender_id msg +:+ "] " +:+ content msg, None) ∧
        said_by a = ("assistant", o_content out, None).
Proof.
  intros Horigin Hok. unfold _process_system_message. rewrite Horigin.
  unfold bind at 1.
  destruct (get_or_create_stored (origin_channel +:+ ":" +:+ origin_chat_id) st Hok)
    as (ref & st1 & -> & Hc1 & Hr1 & Hd1 & Ho1).
  unfold bind at 1.
  destruct (set_tool_context_heap origin_channel origin_chat_id st1)
    as (st3 & -> & Hh3 & Hn3 & Hc3 & Hd3 & Ho3).
  unfold bind at 1. unfold read at 1. unfold bind at 1. unfold get_state at 1.
  unfold bind at 1.
  match goal with |- context [_run_agent_loop self ?m st3] =>
    pose proof (sent_run_agent_loop m st3) as Hk;
    destruct (_run_agent_loop self m st3) as [[e|fu] st4]
  end; cbn [snd] in Hk; destruct Hk as ([Hn4 Hs4] & Hc4 & Hd4 & Ho4).
  { eexists _, _. split; [reflexivity|]. discriminate. }
  match goal with |- context [(session_add_message self ref "user" ?uc None ;;; session_add_message self ref "assistant" ?fin ?tu ;;; save ref ;;; ret (Some ?out))%m st4] =>
    destruct (records_written ref uc fin tu out st4)
      as (st5 & u & a & Hrun & Hm5 & Hu & Ha & Hk5 & Hdisk5 & Hc5 & Ho5)
  end.
  rewrite Hrun. eexists _, _. split; [reflexivity|].
  intros reply [= <-]. eexists _, u, a. split; [reflexivity|]. simpl.
  assert (Href : (ref < next_ref st3)%nat) by lia.
  destruct (Hs4 ref Href) as [Hkey Hmsg].
  assert (Hd3' : deref st3 ref = stored st (origin_channel +:+ ":" +:+ origin_chat_id)).
  { rewrite <- Hd1. unfold deref. now rewrite Hh3. }
  split; [reflexivity|]. split; [reflexivity|].
  rewrite (stored_cached st5 _ ref) by congruence.
  split; [now rewrite Hm5, Hmsg, Hd3'|]. split; [exact Hu | exact Ha].
Qed.

(** X25. A system message whose chat id is [a:b], with no colon in [a], is
    answered to channel [a] and chat [b], and its two records, the text
    marked with its sender and the reply, are added to the session of the
    key [a:b], the one of the user's messages from that chat. *)
Theorem system_reply_goes_to_origin msg a b st reply st' :
  chat_id msg = a +:+ ":" +:+ b → Web.str_in ":" a = false →
  cache_ok st →
  _process_system_message self msg st = (inr reply, st') →
  ∃ out u v,
    reply = Some out ∧ o_channel out = a ∧ o_chat_id out = b ∧
    messages (stored st' (chat_id msg)) = messages (stored st (chat_id msg)) ++ [u; v] ∧
    said_by u = ("user", "[System: " +:+ sender_id msg +:+ "] " +:+ content msg, None) ∧
    said_by v = ("assistant", o_content out, None).
Proof.
  intros Hid Ha Hok Hrun.
  destruct (system_turn msg a b st) as (r & st1 & Hr & Hres); [|exact Hok|].
  { now rewrite Hid, colon_split_first. }
  rewrite Hrun in Hr. injection Hr as <- <-.
  destruct (Hres reply eq_refl) as (out & u & v & -> & Hc & Hi & Hm & Hu & Hv).
  exists out, u, v. rewrite Hid. auto 10.
Qed.

(** X26. A system message whose chat id holds no colon is answered to the
    channel ["cli"] and the chat id as it is, and recorded in the session
    of that key. *)
Theorem system_reply_falls_back_to_cli msg st reply st' :
  Web.str_in ":" (chat_id msg) = false →
  cache_ok st →
  _process_system_message self msg st = (inr reply, st') →
  let k := "cli:" +:+ chat_id msg in
  ∃ out u v,
    reply = Some out ∧ o_channel out = "cli" ∧ o_chat_id out = chat_id msg ∧
    messages (stored st' k) = messages (stored st k) ++ [u; v] ∧
    said_by u = ("user", "[System: " +:+ sender_id msg +:+ "] " +:+ content msg, None) ∧
    said_by v = ("assistant", o_content out, None).
Proof.
  intros Hid Hok Hrun k.
  destruct (system_turn msg "cli" (chat_id msg) st) as (r & st1 & Hr & Hres); [|exact Hok|].
  { unfold colon_split. unfold Web.str_in in Hid.
    destruct (String.index 0 ":" (chat_id msg)); [discriminate | reflexivity]. }
  rewrite Hrun in Hr. injection Hr as <- <-.
  destruct (Hres reply eq_refl) as (out & u & v & -> & Hc & Hi & Hm & Hu & Hv).
  exists out, u, v. auto 10.
Qed.

(** *** Jobs and the sessions they work on *)

Lemma consolidate_begin_session ref archive_all st p st' :
  consolidate_begin self ref archive_all st = (inr (Some p), st') → p_session p = ref.
Proof.
  unfold consolidate_begin, bind, read, on_world, ret.
  destruct (select_old_messages self (deref st ref) archive_all) as [[old k]|];
    [|discriminate].
  destruct (read_long_term self (world st)) as [[e|m] w]; [discriminate|].
  now intros [= <- _].
Qed.

(** X27. The archive job of [/new] works on a copy: when it starts, the
    session it consolidates is a new object, and every session that was
    there is left exactly as it was, cursor included; and when the
    provider has answered, in whatever state that is, the job changes no
    object but its own. *)
Theorem archive_job_works_on_a_copy ref ms st :
  let run := advance self (ConsolidateAndCleanup ref ms) st in
  (∀ x, (x < next_ref st)%nat → deref run.2 x = deref st x) ∧
  ∀ p, run.1 = inr (Some p) →
       p_session p = next_ref st ∧
       ∀ st2 x, x ≠ next_ref st →
                deref (consolidate_resume self p st2).2 x = deref st2 x.
Proof.
  cbv zeta. unfold advance, bind, read, alloc.
  set (st1 := set_heap _ _ st).
  pose proof (consolidate_begin_heap self (next_ref st) true st1) as Hh.
  pose proof (consolidate_begin_session (next_ref st) true st1) as Hs.
  destruct (consolidate_begin self (next_ref st) true st1) as [r st2]. cbn [fst snd] in *.
  split.
  - intros x Hx. unfold deref. rewrite Hh. subst st1. simpl.
    now rewrite lookup_insert_ne by lia.
  - intros p ->. rewrite (Hs p st2 eq_refl). split; [reflexivity|].
    intros st3 x Hx.
    pose proof (consolidate_resume_heap self p st3) as Hr. cbv zeta in Hr.
    rewrite (Hs p st2 eq_refl) in Hr. unfold deref.
    destruct Hr as [-> | ->]; [reflexivity|]. now rewrite lookup_insert_ne by congruence.
Qed.

Lemma set_tool_context_next_task ch cid st :
  ∃ st', _set_tool_context self ch cid st = (inr tt, st') ∧ next_task st' = next_task st.
Proof.
  unfold _set_tool_context, modify. simpl. eexists. split; [reflexivity|].
  repeat (destruct (has (tools self) _)); reflexivity.
Qed.

Lemma step_task_next_task st id : next_task (step_task self id st) = next_task st.
Proof.
  unfold step_task. destruct (tasks st !! id) as [t|]; [|reflexivity].
  destruct (advance_frame self 0%nat t st) as (_ & Hn & _).
  destruct (advance self t st) as [[e|[p|]] st1]; simpl in *; exact Hn.
Qed.

Lemma run_agent_loop_next_task msgs st :
  next_task (_run_agent_loop self msgs st).2 = next_task st.
Proof.
  apply (turn_loop_rec self (λ s s', next_task s' = next_task s));
    try reflexivity; try (intros; congruence).
  intros s id. apply step_task_next_task.
Qed.

Lemma get_or_create_session k st :
  ∃ ref st1,
    get_or_create k st = (inr ref, st1) ∧
    deref st1 ref = stored st k ∧ next_task st1 = next_task st.
Proof.
  unfold get_or_create, stored, bind, get_state, alloc, modify, ret.
  destruct (cache st !! k) as [ref|] eqn:Hc.
  - exists ref, st. auto.
  - eexists _, _. split; [reflexivity|]. split; [|reflexivity].
    unfold deref. simpl. now rewrite lookup_insert_eq.
Qed.

(** X28. A message starts at most one detached job: [/new] starts its
    archive job; a turn starts a consolidation job exactly when the
    session of its key holds more than [memory_window] messages as the
    turn begins; [/help] and a system message start none. The jobs that
    run meanwhile start none either. *)
Theorem message_starts_at_most_one_job msg session_key_arg st :
  next_task (_process_message self msg session_key_arg st).2
  = if String.eqb (channel msg) "system" then next_task st
    else if String.eqb (lower self (strip self (content msg))) "/new" then S (next_task st)
    else if String.eqb (lower self (strip self (content msg))) "/help" then next_task st
    else if len (messages (stored st (turn_key msg session_key_arg))) >? memory_window self
    then S (next_task st)
    else next_task st.
Proof.
  unfold _process_message.
  destruct (String.eqb (channel msg) "system").
  { unfold _process_system_message.
    destruct (match colon_split (chat_id msg) with
              | Some parts => parts
              | None => ("cli", chat_id msg)
              end) as [origin_channel origin_chat_id].
    unfold bind at 1.
    destruct (get_or_create_session (origin_channel +:+ ":" +:+ origin_chat_id) st)
      as (ref & st1 & -> & _ & Hn1).
    unfold bind at 1.
    destruct (set_tool_context_next_task origin_channel origin_chat_id st1)
      as (st3 & -> & Hn3).
    unfold bind at 1. unfold read at 1. unfold bind at 1. unfold get_state at 1.
    unfold bind at 1.
    match goal with |- context [_run_agent_loop self ?m st3] =>
      pose proof (run_agent_loop_next_task m st3) as Hk;
      destruct (_run_agent_loop self m st3) as [[e|fu] st4]
    end; cbn [snd] in Hk; [simpl; congruence|].
    unfold bind, session_add_message, save, modify, ret. simpl. congruence. }
  cbv zeta. unfold bind at 1.
  destruct (get_or_create_session (turn_key msg session_key_arg) st)
    as (ref & st1 & -> & Hd1 & Hn1).
  destruct (String.eqb _ "/new").
  { unfold bind, read, write, save, invalidate, create_task, modify, ret. simpl.
    now rewrite Hn1. }
  destruct (String.eqb _ "/help"); [simpl; exact Hn1|].
  unfold bind at 1. unfold read at 1. unfold bind at 1.
  rewrite Hd1.
  assert (Hspawn : ∃ st2,
             (if len (messages (stored st (turn_key msg session_key_arg))) >? memory_window self
              then create_task (W:=W) (ConsolidateTask ref) else ret tt) st1 = (inr tt, st2) ∧
             next_task st2
             = if len (messages (stored st (turn_key msg session_key_arg))) >? memory_window self
               then S (next_task st) else next_task st).
  { destruct (_ >? _); eexists; (split; [reflexivity|]); simpl; congruence. }
  destruct Hspawn as (st2 & -> & Hn2). rewrite <- Hn2. clear Hn2.
  unfold bind at 1.
  destruct (set_tool_context_next_task (channel msg) (chat_id msg) st2) as (st3 & -> & Hn3).
  unfold bind at 1. unfold read at 1. unfold bind at 1. unfold get_state at 1.
  unfold bind at 1.
  match goal with |- context [_run_agent_loop self ?m st3] =>
    pose proof (run_agent_loop_next_task m st3) as Hk;
    destruct (_run_agent_loop self m st3) as [[e|fu] st4]
  end; cbn [snd] in Hk; [simpl; congruence|].
  unfold bind, session_add_message, save, modify, ret. simpl. congruence.
Qed.

End AgentFacts.

(** *** The theorems at the small agent *)

Import DemoAgent.

Lemma boot_cache_ok w stored cursor sched : cache_ok (boot w stored cursor sched).
Proof. intros k ref H. simpl in H. now rewrite lookup_empty in H. Qed.

Lemma turn_records_request_and_reply_witness :
  let st' := (_process_message (demo_agent 20 50) (from_user "hi") None hello_start).2 in
  ∃ u a,
    messages (stored st' "cli:direct") = two_messages ++ [u; a] ∧
    m_content u = "hi" ∧ m_content a = "hello" ∧
    disk st' !! "cli:direct" = Some (stored st' "cli:direct").
Proof.
  cbv zeta.
  destruct (turn_records_request_and_reply (demo_agent 20 50) (from_user "hi") None hello_start
              (Some {| o_channel := "cli"; o_chat_id := "direct"; o_content := "hello";
                       o_metadata := [] |})
              (_process_message (demo_agent 20 50) (from_user "hi") None hello_start).2)
    as (out & u & a & Hout & Hm & Hu & _ & Ha & Hk & Hd);
    [discriminate | discriminate | discriminate | apply boot_cache_ok
     | vm_compute; reflexivity |].
  injection Hout as <-. injection Hu as _ Hu _. exists u, a.
  split; [exact Hm|]. split; [exact Hu|]. split; [exact Ha|].
  rewrite Hk in Hd. exact Hd.
Defined.

Lemma direct_reply_is_recorded_witness :
  ∃ st' u a,
    process_direct (demo_agent 20 50) "hi" "cli:direct" "cli" "direct" hello_start
    = (inr "hello", st') ∧
    messages (stored st' "cli:direct") = two_messages ++ [u; a] ∧
    m_content u = "hi" ∧ m_content a = "hello".
Proof.
  destruct (direct_reply_is_recorded (demo_agent 20 50) "hi" "cli:direct" "cli" "direct"
              hello_start "hello"
              (process_direct (demo_agent 20 50) "hi" "cli:direct" "cli" "direct"
                 hello_start).2)
    as (u & a & Hm & Hu & _ & Ha);
    [discriminate | discriminate | discriminate | apply boot_cache_ok
     | vm_compute; reflexivity |].
  injection Hu as _ Hu _. eexists _, u, a.
  split; [vm_compute; reflexivity|]. split; [exact Hm|]. split; [exact Hu | exact Ha].
Defined.

Lemma every_message_gets_one_reply_witness :
  ∃ out st3,
    run_iteration (demo_agent 20 50) chatty_start = (inr tt, st3) ∧
    outbound st3
    = [{| o_channel := "cli"; o_chat_id := "direct"; o_content := "working on it";
          o_metadata := [] |}; out] ∧
    o_channel out = "cli" ∧ o_chat_id out = "direct" ∧ o_content out = "hello".
Proof.
  destruct (every_message_gets_one_reply (demo_agent 20 50) chatty_start (from_user "hi")
              (script [call_tool "message" "content" "working on it"; answer "hello"] []))
    as (out & st3 & Hrun & _ & Ho & Hreply & Haddr); [vm_compute; reflexivity|].
  destruct (Haddr ltac:(discriminate)) as [Hc Hi].
  exists out, st3. split; [exact Hrun|]. split; [exact Ho|]. split; [exact Hc|].
  split; [exact Hi|]. vm_compute in Hreply. injection Hreply as <-. reflexivity.
Defined.

(** A tool whose validator raises ends the turn: the calls of the answer
    stop there, the loop raises what the validator raised, and the run loop
    answers with the apology. *)
Example strict_validator_ends_the_turn :
  let self := demo_agent 20 50 in
  let turn := _process_message self (from_user "hi") None strict_start in
  turn.1 = inl (Exn KValueError "Schema must be object type, got 'array'") ∧
  loop_chats (log turn.2) = [call_tool "strict" "x" "y"] ∧
  List.map o_content (outbound (run self 1 (set_world (script [call_tool "strict" "x" "y"; answer "late"] [from_user "hi"]) strict_start)).2)
  = ["Sorry, I encountered an internal error. Please try again."].
Proof. vm_compute. repeat split; reflexivity. Qed.

Lemma system_reply_goes_to_origin_witness :
  let run := _process_system_message (demo_agent 20 50) (tick "cli:direct") hello_start in
  ∃ out u v,
    run.1 = inr (Some out) ∧ o_channel out = "cli" ∧ o_chat_id out = "direct" ∧
    messages (stored run.2 "cli:direct") = two_messages ++ [u; v] ∧
    m_content u = "[System: cron] tick" ∧ m_content v = "hello".
Proof.
  cbv zeta.
  destruct (system_reply_goes_to_origin (demo_agent 20 50) (tick "cli:direct") "cli" "direct"
              hello_start
              (Some {| o_channel := "cli"; o_chat_id := "direct"; o_content := "hello";
                       o_metadata := [] |})
              (_process_system_message (demo_agent 20 50) (tick "cli:direct") hello_start).2)
    as (out & u & v & Hout & Hc & Hi & Hm & Hu & Hv);
    [reflexivity | reflexivity | apply boot_cache_ok | vm_compute; reflexivity |].
  injection Hout as <-. injection Hu as _ Hu _. injection Hv as _ Hv _.
  eexists _, u, v. split; [vm_compute; reflexivity|].
  split; [reflexivity|]. split; [reflexivity|]. split; [exact Hm|].
  split; [exact Hu | exact Hv].
Defined.

Lemma system_reply_falls_back_to_cli_witness :
  let run := _process_system_message (demo_agent 20 50) (tick "direct") hello_start in
  ∃ out u v,
    run.1 = inr (Some out) ∧ o_channel out = "cli" ∧ o_chat_id out = "direct" ∧
    messages (stored run.2 "cli:direct") = two_messages ++ [u; v] ∧
    m_content u = "[System: cron] tick" ∧ m_content v = "hello".
Proof.
  cbv zeta.
  destruct (system_reply_falls_back_to_cli (demo_agent 20 50) (tick "direct") hello_start
              (Some {| o_channel := "cli"; o_chat_id := "direct"; o_content := "hello";
                       o_metadata := [] |})
              (_process_system_message (demo_agent 20 50) (tick "direct") hello_start).2)
    as (out & u & v & Hout & Hc & Hi & Hm & Hu & Hv);
    [reflexivity | apply boot_cache_ok | vm_compute; reflexivity |].
  injection Hout as <-. injection Hu as _ Hu _. injection Hv as _ Hv _.
  eexists _, u, v. split; [vm_compute; reflexivity|].
  split; [reflexivity|]. split; [reflexivity|]. split; [exact Hm|].
  split; [exact Hu | exact Hv].
Defined.

Lemma archive_job_works_on_a_copy_witness :
  let st := loaded (script [answer summary_text] []) two_messages 1 [] in
  let run := advance (demo_agent 20 50) (ConsolidateAndCleanup 0 two_messages) st in
  deref run.2 0 = deref st 0 ∧
  ∃ p, run.1 = inr (Some p) ∧ p_session p = 1%nat ∧
       deref (consolidate_resume (demo_agent 20 50) p run.2).2 0 = deref st 0 ∧
       last_consolidated (deref st 0) = 1.
Proof.
  cbv zeta.
  destruct (archive_job_works_on_a_copy (demo_agent 20 50) 0 two_messages
              (loaded (script [answer summary_text] []) two_messages 1 []))
    as [Hstart Hresume].
  split; [apply Hstart; vm_compute; lia|].
  eexists. split; [vm_compute; reflexivity|].
  edestruct Hresume as [Hs Hr]; [vm_compute; reflexivity|].
  split; [exact Hs|]. split; [|reflexivity].
  rewrite Hr by (vm_compute; lia). apply Hstart. vm_compute. lia.
Defined.

End AgentFacts.
